(** * Fedora hardening-script generator: selection engine, gateway and pipeline

    A shallow embedding of the orchestration core of the application:
    - [services/geminiService.ts]: error classification, fence cleaning,
      the analysis and improvement operations;
    - [constants.ts]: the option catalog [PARANOIA_LEVELS];
    - [App.tsx]: the lookup indices, the tri-state toggle, the generation
      pipeline and the improvement loop.

    Conventions.  A JavaScript string is a Rocq [string], read as a sequence
    of code units; the model has the 256 code units of Latin-1.  A plain
    JavaScript object used as a dictionary is a [gmap string _] together with
    the properties it inherits from [Object.prototype].  A [Map] is an
    insertion-ordered association list.  An asynchronous handler is a state
    transformer over the component's cells, the option objects and the log of
    the gateway calls it has dispatched; what each call settles to is given
    by an oracle. *)

From Stdlib Require Import Ascii QArith.
From stdpp Require Import gmap strings list pretty.

#[local] Set Warnings "-register-all".


(** ** JavaScript strings *)

Module JsString.

(** [WhiteSpace] and [LineTerminator] code units below 256: TAB, LF, VT,
    FF, CR, SP and NBSP.  This is the set matched by the regular expression
    class [\s] and removed by [String.prototype.trim]. *)
Definition isWhiteSpace (c : ascii) : bool :=
  match c with
  | "009" | "010" | "011" | "012" | "013" | " " | "160" => true
  | _ => false
  end%char.

(** [strip_prefix p s] is [Some r] when [s = p ++ r]. *)
Fixpoint strip_prefix (p s : string) : option string :=
  match p, s with
  | EmptyString, _ => Some s
  | String a p', String b s' =>
      if decide (a = b) then strip_prefix p' s' else None
  | String _ _, EmptyString => None
  end.

Definition startsWith (s p : string) : bool :=
  bool_decide (is_Some (strip_prefix p s)).

(** [strip_suffix p s] is [Some r] when [s = r ++ p]: the leftmost position
    from which the rest of [s] is exactly [p]. *)
Fixpoint strip_suffix (p s : string) : option string :=
  if decide (s = p) then Some EmptyString
  else match s with
       | EmptyString => None
       | String c s' => String c <$> strip_suffix p s'
       end.

Definition endsWith (s p : string) : bool :=
  bool_decide (is_Some (strip_suffix p s)).

(** [String.prototype.includes]. *)
Fixpoint includes (s p : string) : bool :=
  if startsWith s p then true
  else match s with
       | EmptyString => false
       | String _ s' => includes s' p
       end.

Fixpoint trimStart (s : string) : string :=
  match s with
  | EmptyString => EmptyString
  | String c s' => if isWhiteSpace c then trimStart s' else s
  end.

Fixpoint trimEnd (s : string) : string :=
  match s with
  | EmptyString => EmptyString
  | String c s' =>
      match trimEnd s' with
      | EmptyString => if isWhiteSpace c then EmptyString else String c EmptyString
      | t => String c t
      end
  end.

Definition trim (s : string) : string := trimEnd (trimStart s).

(** ASCII part of [String.prototype.toLowerCase]. *)
Definition toLowerAscii (c : ascii) : ascii :=
  let n := nat_of_ascii c in
  if (65 <=? n)%nat && (n <=? 90)%nat then ascii_of_nat (n + 32) else c.

Fixpoint toLowerCase (s : string) : string :=
  match s with
  | EmptyString => EmptyString
  | String c s' => String (toLowerAscii c) (toLowerCase s')
  end.

(** A string is truthy when it is not empty. *)
Definition truthy (s : string) : bool := negb (bool_decide (s = "")).

End JsString.

(** ** geminiService.ts: fence cleaning *)

(** [rawOutput.replace(/^```(?:bash|sh)?\s*/, '')]: the pattern is anchored
    at the start; after the three backticks it takes [bash], else [sh], else
    nothing, then all the white space that follows.  Every choice is greedy
    and the rest of the pattern cannot fail, so the first choice stands. *)
Definition replace_leading_fence (s : string) : string :=
  match JsString.strip_prefix "```" s with
  | None => s
  | Some r =>
      let r' :=
        match JsString.strip_prefix "bash" r with
        | Some t => t
        | None =>
            match JsString.strip_prefix "sh" r with
            | Some t => t
            | None => r
            end
        end in
      JsString.trimStart r'
  end.

(** [.replace(/```$/, '')]: without the [m] flag [$] is the end of input, so
    the pattern matches exactly the last three code units. *)
Definition replace_trailing_fence (s : string) : string :=
  match JsString.strip_suffix "```" s with
  | None => s
  | Some r => r
  end.

Definition cleanScriptOutput (rawOutput : string) : string :=
  JsString.trim (replace_trailing_fence (replace_leading_fence rawOutput)).

(** ** JavaScript values *)

(** Numbers.  Finite values are exact rationals: the program only compares
    them and takes minima and maxima, which are exact on doubles, and rounding
    to a double is monotone and fixes 0 and 100.  The sign of zero is not
    represented. *)
Inductive number :=
| NaN
| PosInf
| NegInf
| Fin (q : Q).

(** The values that flow through the program: what [JSON.parse] builds, plus
    [undefined] for absent properties and the numbers [Math.max] returns. *)
Inductive value :=
| VUndefined
| VNull
| VBool (b : bool)
| VNumber (n : number)
| VString (s : string)
| VArray (items : list value)
| VObject (fields : list (string * value)).

(** What a [throw] carries: an instance of [Error] with its message, or any
    other value. *)
Inductive thrown :=
| ThrownError (message : string)
| ThrownOther.

(** The outcome of a call or of an awaited promise. *)
Inductive Result (A : Type) :=
| Ok (a : A)
| Throw (e : thrown).
Arguments Ok {A} a.
Arguments Throw {A} e.

#[global] Instance Result_ret : MRet Result := @Ok.
#[global] Instance Result_bind : MBind Result := fun A B f r =>
  match r with
  | Ok a => f a
  | Throw e => Throw e
  end.
#[global] Instance Result_fmap : FMap Result := fun A B f r =>
  match r with
  | Ok a => Ok (f a)
  | Throw e => Throw e
  end.

(** [try { body } catch (e) { handler e }]. *)
Definition tryCatch {A} (body : Result A) (handler : thrown → Result A) : Result A :=
  match body with
  | Ok a => Ok a
  | Throw e => handler e
  end.

(** What the JavaScript engine and its built-ins contribute.  The program is
    verified against any engine; [Reference.engine] below is one instance,
    used to run examples. *)
Record Engine := {
  (** [JSON.parse]; [None] is a [SyntaxError].  In an object the first
      binding of a key is the property's value. *)
  JSON_parse : string → option value;
  (** [ToNumber] applied to a string. *)
  StringToNumber : string → number;
  (** [ToNumber] applied to an array or an object; [None] is the
      [TypeError] of a failed [ToPrimitive]. *)
  ObjectToNumber : value → option number;
  (** The message the engine gives the [TypeError] it raises when property
      [p] of [v] cannot be read, written or called. *)
  TypeError_message : string → value → string;
}.

Module Js.

Definition number_lt (a b : number) : bool :=
  match a, b with
  | NaN, _ | _, NaN => false
  | PosInf, _ => false
  | _, PosInf => true
  | _, NegInf => false
  | NegInf, _ => true
  | Fin x, Fin y => negb (Qle_bool y x)
  end.

(** [Math.min] and [Math.max] of two numbers. *)
Definition number_min (a b : number) : number :=
  match a, b with
  | NaN, _ | _, NaN => NaN
  | _, _ => if number_lt b a then b else a
  end.

Definition number_max (a b : number) : number :=
  match a, b with
  | NaN, _ | _, NaN => NaN
  | _, _ => if number_lt a b then b else a
  end.

(** [ToBoolean]. *)
Definition truthy (v : value) : bool :=
  match v with
  | VUndefined | VNull => false
  | VBool b => b
  | VNumber NaN => false
  | VNumber (Fin q) => negb (Qeq_bool q 0)
  | VNumber _ => true
  | VString s => JsString.truthy s
  | VArray _ | VObject _ => true
  end.

(** [a || b]. *)
Definition or (a b : value) : value := if truthy a then a else b.

Definition typeError (E : Engine) (p : string) (v : value) : thrown :=
  ThrownError (TypeError_message E p v).

(** [ToNumber]. *)
Definition ToNumber (E : Engine) (v : value) : Result number :=
  match v with
  | VUndefined => Ok NaN
  | VNull => Ok (Fin 0)
  | VBool b => Ok (Fin (if b then 1 else 0))
  | VNumber n => Ok n
  | VString s => Ok (StringToNumber E s)
  | VArray _ | VObject _ =>
      match ObjectToNumber E v with
      | Some n => Ok n
      | None => Throw (typeError E "toString" v)
      end
  end.

Definition lookup_field (fields : list (string * value)) (p : string) : value :=
  match list_find (λ kv, kv.1 = p) fields with
  | Some (_, (_, v)) => v
  | None => VUndefined
  end.

Definition number_of_nat (n : nat) : number := Fin (inject_Z (Z.of_nat n)).

(** [v.p] for the property names this program reads ([securityScore],
    [analysisText], [correctedScript], [improvementSummary],
    [refinedPrompts], [id], [newPrompt], [length]): none of them is
    inherited from a prototype except [length] on arrays and strings. *)
Definition get (E : Engine) (v : value) (p : string) : Result value :=
  match v with
  | VUndefined | VNull => Throw (typeError E p v)
  | VObject fields => Ok (lookup_field fields p)
  | VArray items =>
      Ok (if decide (p = "length") then VNumber (number_of_nat (length items))
          else VUndefined)
  | VString s =>
      Ok (if decide (p = "length") then VNumber (number_of_nat (String.length s))
          else VUndefined)
  | VBool _ | VNumber _ => Ok VUndefined
  end.

(** Whether [v.p = ...] succeeds: the module is strict code, where creating
    a property on a primitive raises a [TypeError]. *)
Definition put_allowed (E : Engine) (v : value) (p : string) : Result unit :=
  match v with
  | VObject _ | VArray _ => Ok ()
  | _ => Throw (typeError E p v)
  end.

End Js.

(** ** geminiService.ts: the remote collaborator *)

(** The instruction text of a request, by the operation that builds it and
    the values interpolated into its template; the fixed wording of the
    templates is not represented. *)
Inductive Prompt :=
| HeaderPrompt
| SectionPrompt (label : string) (prompt : value)
| FooterPrompt
| AnalysisPrompt (output : string)
| ImprovementPrompt (originalScript : string) (originalPrompts : list (string * value)).

(** What [ai.models.generateContent] settles to: a response whose [text] is
    a string, or a rejection. *)
Inductive Reply :=
| Resolved (text : string)
| Rejected (e : thrown).

Definition Remote := Prompt → Reply.

Definition await (r : Reply) : Result string :=
  match r with
  | Resolved text => Ok text
  | Rejected e => Throw e
  end.

(** [process.env.API_KEY]. *)
Definition Env := option string.

(** [!process.env.API_KEY]: unset or empty. *)
Definition key_missing (API_KEY : Env) : bool :=
  match API_KEY with
  | None => true
  | Some k => negb (JsString.truthy k)
  end.

Definition configurationError : thrown :=
  ThrownError "Configuration Error: The API_KEY environment variable is not set.".

(** ** geminiService.ts: error classification *)

Definition handleApiError (error : thrown) (context : string) : thrown :=
  match error with
  | ThrownError msg =>
      let message := JsString.toLowerCase msg in
      if JsString.includes message "api key not valid"
         || JsString.includes message "permission denied" then
        ThrownError "Authentication Error: The API key is invalid or missing. Please ensure it is configured correctly."
      else if JsString.includes message "fetch failed"
              || JsString.includes message "network" then
        ThrownError "Network Error: Could not connect to the API. Please check your internet connection."
      else if JsString.includes message "resource has been exhausted"
              || JsString.includes message "rate limit" then
        ThrownError "Rate Limit Exceeded: Too many requests sent. Please wait a while before trying again."
      else
        ThrownError ("An unexpected API error occurred during " +:+ context
                     +:+ ". Check the console for details.")
  | ThrownOther =>
      ThrownError ("An unknown error occurred during " +:+ context +:+ ".")
  end.

(** ** geminiService.ts: the three generation operations *)

Definition callApi (API_KEY : Env) (remote : Remote) (prompt : Prompt) : Result string :=
  if key_missing API_KEY then Throw configurationError
  else
    tryCatch
      (rawScript ← await (remote prompt);
       mret (cleanScriptOutput rawScript))
      (λ error, Throw (handleApiError error "script generation")).

(** ** types.ts *)

Module types.

(** [prompt] is declared a string, but the improvement loop stores under it
    whatever value the remote returned as [newPrompt]; the field is therefore
    kept dynamically typed.  [subOptions] and [rebootRequired] are optional. *)
Inductive HardeningOption := {
  id : string;
  label : string;
  description : string;
  prompt : value;
  subOptions : option (list HardeningOption);
  rebootRequired : option bool;
}.

(** A level of the catalog with the options it shows. *)
Record ParanoiaLevel := {
  level : nat;
  title : string;
  level_description : string;
  options : list HardeningOption;
}.

(** The two properties a caller reads off the object [analyzeScriptOutput]
    returns. *)
Record AnalysisResult := {
  analysisText : value;
  securityScore : value;
}.

(** The three properties a caller reads off the object
    [runShellcheckAndLearn] returns.  On return [correctedScript] is a string
    and [improvementSummary] an array; [refinedPrompts] is whatever the
    response carried. *)
Record ImprovementResult := {
  correctedScript : string;
  refinedPrompts : value;
  improvementSummary : list value;
}.

(** A suggestion offered under the custom prompt. *)
Record SuggestedPrompt := {
  suggestion_label : string;
  promptText : string;
}.

End types.
Import types.

(** ** geminiService.ts: the gateway operations *)

Definition generateScriptHeaderAndHelpers (API_KEY : Env) (remote : Remote) : Result string :=
  callApi API_KEY remote HeaderPrompt.

Definition generateScriptSection (API_KEY : Env) (remote : Remote)
    (option : HardeningOption) : Result string :=
  callApi API_KEY remote (SectionPrompt (label option) (prompt option)).

Definition generateScriptFooter (API_KEY : Env) (remote : Remote) : Result string :=
  callApi API_KEY remote FooterPrompt.

(** [JSON.parse(jsonString)] as a call that may throw.  Both callers catch
    the [SyntaxError] at once and never look at it. *)
Definition JSON_parse_or_throw (E : Engine) (jsonString : string) : Result value :=
  match JSON_parse E jsonString with
  | Some v => Ok v
  | None => Throw (ThrownError "SyntaxError")
  end.

(** [typeof s !== 'number' || s < 0 || s > 100]. *)
Definition score_needs_clamping (s : value) : bool :=
  match s with
  | VNumber n => Js.number_lt n (Fin 0) || Js.number_lt (Fin 100) n
  | _ => true
  end.

Definition analyzeScriptOutput (E : Engine) (API_KEY : Env) (remote : Remote)
    (output : string) : Result AnalysisResult :=
  if key_missing API_KEY then Throw configurationError
  else
    tryCatch
      (jsonString ← await (remote (AnalysisPrompt output));
       result ←
         tryCatch (JSON_parse_or_throw E jsonString)
           (λ _, Throw (ThrownError
              "Invalid Response: The analysis data from the API was malformed and could not be parsed."));
       score ← Js.get E result "securityScore";
       score' ←
         (if score_needs_clamping score then
            n ← Js.ToNumber E (Js.or score (VNumber (Fin 0)));
            let clamped := Js.number_max (Fin 0) (Js.number_min (Fin 100) n) in
            _ ← Js.put_allowed E result "securityScore";
            mret (VNumber clamped)
          else mret score);
       text ← Js.get E result "analysisText";
       mret {| analysisText := text; securityScore := score' |})
      (λ error, Throw (handleApiError error "output analysis")).

Definition runShellcheckAndLearn (E : Engine) (API_KEY : Env) (remote : Remote)
    (originalScript : string) (activeOptions : list HardeningOption)
    : Result ImprovementResult :=
  if key_missing API_KEY then Throw configurationError
  else
    let originalPrompts := (λ opt, (id opt, prompt opt)) <$> activeOptions in
    tryCatch
      (jsonString ← await (remote (ImprovementPrompt originalScript originalPrompts));
       tryCatch
         (result ← JSON_parse_or_throw E jsonString;
          (* result.correctedScript = cleanScriptOutput(result.correctedScript):
             [.replace] exists on strings only *)
          raw ← Js.get E result "correctedScript";
          cleaned ←
            match raw with
            | VString s => Ok (cleanScriptOutput s)
            | _ => Throw (Js.typeError E "replace" raw)
            end;
          _ ← Js.put_allowed E result "correctedScript";
          (* if (!Array.isArray(result.improvementSummary)) ... = [] *)
          summary ← Js.get E result "improvementSummary";
          let summary' := match summary with VArray items => items | _ => [] end in
          refined ← Js.get E result "refinedPrompts";
          mret {| correctedScript := cleaned;
                  refinedPrompts := refined;
                  improvementSummary := summary' |})
         (λ _, Throw (ThrownError
            "Invalid Response: The script improvement data from the API was malformed and could not be parsed.")))
      (λ error, Throw (handleApiError error "script improvement")).

(** ** constants.ts: the option catalog *)

(** The double-quote and line-feed characters, for texts that contain them. *)
Definition QUOTE : string := String "034"%char EmptyString.
Definition LF : string := String "010"%char EmptyString.

Module allOptions.

Definition updates : HardeningOption := {|
  id := "updates";
  label := "System Updates & Packages";
  description := "Ensure all packages are up-to-date and remove unnecessary software.";
  prompt := VString "*   **System Updates & Package Management**: Ensure the system is fully up-to-date using `dnf upgrade -y`. Identify and suggest removal of common unnecessary services or packages (e.g., telnet-server, rsh-server). After updates, clean the DNF cache using `dnf clean all`.";
  subOptions := None;
  rebootRequired := None;
|}.

Definition firewall : HardeningOption := {|
  id := "firewall";
  label := "Firewall Configuration";
  description := "Set up firewalld with a default-deny policy and allow essential services.";
  prompt := VString "*   **Firewall Configuration**: Configure `firewalld`. Set the default zone to public, with a default-deny policy for incoming traffic. Add rules to allow SSH (on a non-standard port if specified) and other essential services.";
  subOptions := None;
  rebootRequired := None;
|}.

Definition ssh : HardeningOption := {|
  id := "ssh";
  label := "SSH Hardening";
  description := "Secure the SSH daemon by disabling root login and enforcing key-based auth.";
  prompt := VString "*   **SSH Hardening**: Secure `/etc/ssh/sshd_config`. The script should programmatically (e.g., using `sed`) disable root login (`PermitRootLogin no`), disable password authentication (`PasswordAuthentication no`), and enable key-based authentication (`PubkeyAuthentication yes`). Warn the user to have a key in place before running.";
  subOptions := None;
  rebootRequired := None;
|}.

Definition fail2ban : HardeningOption := {|
  id := "fail2ban";
  label := "Fail2Ban Intrusion Prevention";
  description := "Install and configure Fail2Ban to block brute-force attacks on SSH.";
  prompt := VString "*   **Fail2Ban Intrusion Prevention**: Install the `fail2ban` package. Create a configuration file at `/etc/fail2ban/jail.local` to override the defaults and prevent changes from being overwritten by package updates. Populate this file with a `[sshd]` section, setting `enabled = true`, a `bantime` of `1h`, a `findtime` of `10m`, and a `maxretry` of `3`. After creating the file, enable and start the `fail2ban` service via `systemctl`. Add comments to the script explaining how a user can customize these values.";
  subOptions := None;
  rebootRequired := None;
|}.

Definition passwordPolicy : HardeningOption := {|
  id := "passwordPolicy";
  label := "Enforce Strong Password Policies";
  description := "Configure /etc/security/pwquality.conf to enforce password complexity.";
  prompt := VString "*   **Enforce Strong Password Policies**: Modify `/etc/security/pwquality.conf` using `sed` or `awk` to set strong password requirements. Include `minlen = 14`, `dcredit = -1` (at least one digit), `ucredit = -1` (at least one uppercase), `ocredit = -1` (at least one special char), `lcredit = -1` (at least one lowercase). Explain each setting in comments.";
  subOptions := None;
  rebootRequired := None;
|}.

Definition userAccountManagement : HardeningOption := {|
  id := "userAccountManagement";
  label := "User Account Management";
  description := "Add a placeholder for a new admin user and lock inactive accounts.";
  prompt := VString ("*   **User Account Management**: Define a placeholder variable `NEW_ADMIN_USER=" +:+ QUOTE +:+ "your_admin" +:+ QUOTE +:+ "`. The script will check if this user exists. If not, it will create this user (`useradd -m -s /bin/bash $NEW_ADMIN_USER`), add them to the `wheel` group for sudo access (`usermod -aG wheel $NEW_ADMIN_USER`), and set an account expiration date 90 days from creation using `chage`. The script should also include a function to find and lock any user accounts (excluding system accounts with UID < 1000) that have been inactive for over 35 days.");
  subOptions := None;
  rebootRequired := None;
|}.

Definition sudoAudit : HardeningOption := {|
  id := "sudoAudit";
  label := "Audit Sudo Privileges";
  description := "Check /etc/sudoers and /etc/sudoers.d/ for insecure configurations.";
  prompt := VString "*   **Audit Sudo Privileges**: The script should check for insecure sudo configurations by scanning `/etc/sudoers` and files in `/etc/sudoers.d/`. Specifically, it should report any users or groups with `NOPASSWD` privileges and any entries for the `ALL` keyword. The findings should be logged with `log_warning`.";
  subOptions := None;
  rebootRequired := None;
|}.

Definition kernel : HardeningOption := {|
  id := "kernel";
  label := "Kernel Hardening (sysctl)";
  description := "Apply security-focused kernel parameter tuning via sysctl.";
  prompt := VString "*   **Kernel Hardening (sysctl)**: Apply security-related kernel parameters by creating a configuration file in `/etc/sysctl.d/`. Include settings to prevent IP spoofing, mitigate SYN flood attacks, and harden network parameters.";
  subOptions := None;
  rebootRequired := Some true;
|}.

Definition filesystem : HardeningOption := {|
  id := "filesystem";
  label := "Secure Filesystem Mounts";
  description := "Secure shared memory and temporary directories; find insecure permissions.";
  prompt := VString "*   **Filesystem & Permissions**: Secure `/tmp` and `/var/tmp` by mounting them with `noexec`, `nosuid`, and `nodev` options. Secure shared memory (`/dev/shm`). Find and report world-writable files and directories.";
  subOptions := None;
  rebootRequired := Some true;
|}.

Definition logging : HardeningOption := {|
  id := "logging";
  label := "Logging & Auditing Setup (auditd)";
  description := "Configure and enable the auditd service with a baseline ruleset.";
  prompt := VString "*   **Logging & Auditing Setup**: Ensure the `audit` package is installed. Start and enable the `auditd` service. Create a baseline ruleset in `/etc/audit/rules.d/00-base.rules` that sets the buffer size, enables the daemon, and sets the failure mode to panic. After adding any specific rules files, the script must run `augenrules --load` to apply them.";
  subOptions := None;
  rebootRequired := None;
|}.

Definition auditFileAccess : HardeningOption := {|
  id := "auditFileAccess";
  label := "Monitor Critical File Access";
  description := "Set auditd rules to watch for changes to sensitive files like /etc/passwd.";
  prompt := VString "*   **Audit Critical File Access**: Generate auditd rules to monitor read, write, and attribute change access to critical system files. Include rules for `/etc/passwd`, `/etc/shadow`, `/etc/group`, `/etc/gshadow`, `/etc/sudoers`, and `/etc/selinux/semanage.conf`. The rules should be written to `/etc/audit/rules.d/50-file-access.rules`.";
  subOptions := None;
  rebootRequired := None;
|}.

Definition auditCommands : HardeningOption := {|
  id := "auditCommands";
  label := "Monitor Privileged Commands";
  description := "Log the execution of commands that can alter system security.";
  prompt := VString "*   **Audit Privileged Commands**: Generate auditd rules to monitor the execution of commands that can affect system security. Track `setuid` and `setgid` programs and specifically watch for the execution of `/usr/bin/sudo`, `/usr/bin/mount`, `/usr/bin/chown`, and `/usr/bin/chmod`. The rules should be written to `/etc/audit/rules.d/51-commands.rules`.";
  subOptions := None;
  rebootRequired := None;
|}.

Definition auditLogins : HardeningOption := {|
  id := "auditLogins";
  label := "Monitor Login Attempts";
  description := "Audit all login events, session creations, and failed login attempts.";
  prompt := VString "*   **Audit Login Attempts**: Generate auditd rules to create a log trail for all login events. Monitor the files `/var/log/faillog`, `/var/log/lastlog`, and `/var/log/tallylog`. Also, audit syscalls related to session creation like `setsid`. The rules should be written to `/etc/audit/rules.d/52-logins.rules`.";
  subOptions := None;
  rebootRequired := None;
|}.

Definition selinux : HardeningOption := {|
  id := "selinux";
  label := "SELinux Configuration";
  description := "Ensure SELinux is set to enforcing mode.";
  prompt := VString "*   **SELinux Configuration**: Ensure SELinux is enabled and running in `enforcing` mode. Modify `/etc/selinux/config` programmatically (e.g., using `sed`) to set `SELINUX=enforcing`. Add comments explaining how to check SELinux status (`sestatus`) and temporarily set modes (`setenforce 1`).";
  subOptions := None;
  rebootRequired := Some true;
|}.

Definition sshPort : HardeningOption := {|
  id := "sshPort";
  label := "Change Default SSH Port";
  description := "Move SSH to a non-standard port to reduce exposure to automated attacks.";
  prompt := VString "*   **Change SSH Port**: The script should define a variable `NEW_SSH_PORT` and set it to a non-standard port (e.g., 2222). It must then programmatically modify `/etc/ssh/sshd_config` to change the listening port to this new value. After updating the config, the script MUST also update both the firewall and SELinux policy to allow the new port. Use `firewall-cmd --permanent --add-port=$NEW_SSH_PORT/tcp` and `semanage port -a -t ssh_port_t -p tcp $NEW_SSH_PORT`. Check if the `policycoreutils-python-utils` package (which provides `semanage`) is installed first. The script must reload both `firewalld` and `sshd` services to apply all changes. Add comments explaining each step.";
  subOptions := None;
  rebootRequired := None;
|}.

Definition umask : HardeningOption := {|
  id := "umask";
  label := "Enforce Stricter Umask";
  description := "Set a more secure default umask (e.g., 027) for new users to limit default file permissions.";
  prompt := VString "*   **Stricter Umask**: Configure a stricter default umask of `027` for all users to ensure new files and directories are not world-readable by default. Modify both `/etc/bashrc` and `/etc/profile` to set the umask.";
  subOptions := None;
  rebootRequired := None;
|}.

Definition autoUpdates : HardeningOption := {|
  id := "autoUpdates";
  label := "Enable Automatic Security Updates";
  description := "Install and configure dnf-automatic to apply security updates daily.";
  prompt := VString "*   **Automatic Security Updates**: Install the `dnf-automatic` package. Configure it by modifying `/etc/dnf/automatic.conf`. Set `upgrade_type = security` and `apply_updates = yes`. Enable and start the `dnf-automatic.timer` systemd unit.";
  subOptions := None;
  rebootRequired := None;
|}.

Definition disableFilesystems : HardeningOption := {|
  id := "disableFilesystems";
  label := "Disable Unused Filesystems";
  description := "Prevent loading of uncommon filesystems to reduce kernel attack surface.";
  prompt := VString "*   **Disable Unused Filesystems**: Create a file in `/etc/modprobe.d/` to prevent the loading of uncommon filesystems. Add `install <filesystem_name> /bin/true` for filesystems like `cramfs`, `freevxfs`, `jffs2`, `hfs`, `hfsplus`, `squashfs`, and `udf`.";
  subOptions := None;
  rebootRequired := Some true;
|}.

Definition bindCheck : HardeningOption := {|
  id := "bindCheck";
  label := "Check for BIND Vulnerabilities";
  description := "Suggests updating BIND if it's installed and vulnerable to known exploits.";
  prompt := VString "*   **BIND Vulnerability Check**: The script will check if the `bind` package is installed. If it is, it will use `named -v` to get the version and display it to the user with a warning to check for CVEs. It will also use `dnf --security check-update bind` to see if there are pending security updates for the package and recommend the user to run `dnf upgrade bind` if any are found.";
  subOptions := None;
  rebootRequired := None;
|}.

Definition grubPassword : HardeningOption := {|
  id := "grubPassword";
  label := "Set GRUB Bootloader Password";
  description := "Protects the GRUB bootloader with a password to prevent unauthorized boot changes.";
  prompt := VString ("*   **Set GRUB Password**: Protects the bootloader menu. The script will first generate a secure, random 16-character alphanumeric password. It will log this password to the screen and to the log file, with a strong warning for the user to save it immediately. Then, it will generate a PBKDF2 hash of that password using `grub2-mkpasswd-pbdf2`. It will then create a custom GRUB settings file at `/etc/grub.d/01_users` and programmatically add a superuser (`set superusers=" +:+ QUOTE +:+ "root" +:+ QUOTE +:+ "`) and the hashed password (`password_pbkdf2 root HASH_FROM_PREVIOUS_STEP`). It must then make this file executable and readable only by root (`chmod 700 /etc/grub.d/01_users`). Finally, it should regenerate the main `grub.cfg` file by detecting the correct location (UEFI vs BIOS) and running `grub2-mkconfig` with the correct output path. Add very prominent, multi-line comments explaining that the generated password is critical and losing it will require boot media to recover the system.");
  subOptions := None;
  rebootRequired := Some true;
|}.

Definition iptablesAdvanced : HardeningOption := {|
  id := "iptablesAdvanced";
  label := "Advanced IPtables Ruleset";
  description := "Configure a stateful firewall, log dropped packets, and mitigate common stealth scans.";
  prompt := VString "*   **Advanced IPtables Ruleset**: The script must generate a secure, stateful firewall ruleset using `iptables`. First, it should flush all existing rules (`iptables -F`), delete all chains (`iptables -X`), and zero all counters (`iptables -Z`). It should then set default policies to `DROP` for the `INPUT` and `FORWARD` chains, and `ACCEPT` for the `OUTPUT` chain. The rules should: allow loopback traffic; allow established and related incoming connections (`-m conntrack --ctstate ESTABLISHED,RELATED`); log and drop common stealth scans (NULL, FIN, XMAS); log and drop invalid packets; and rate-limit new SSH connection attempts to 3 per minute to prevent brute-force attacks. After all rules are added, use `iptables-save` to persist them.";
  subOptions := None;
  rebootRequired := None;
|}.

Definition iptablesBogon : HardeningOption := {|
  id := "iptablesBogon";
  label := "Block Bogon Networks";
  description := ("Drop traffic from unroutable and unallocated " +:+ QUOTE +:+ "bogon" +:+ QUOTE +:+ " IP address spaces.");
  prompt := VString ("*   **Block Bogon Networks**: The script should add `iptables` rules to the `INPUT` chain to drop all packets from known unroutable and unallocated " +:+ QUOTE +:+ "bogon" +:+ QUOTE +:+ " IP address spaces. This includes ranges like `0.0.0.0/8`, `10.0.0.0/8`, `127.0.0.0/8`, `169.254.0.0/16`, `172.16.0.0/12`, `192.168.0.0/16`, etc. Add comments explaining what bogon networks are.");
  subOptions := None;
  rebootRequired := None;
|}.

Definition iptablesPortKnocking : HardeningOption := {|
  id := "iptablesPortKnocking";
  label := "Enable Port Knocking for SSH";
  description := ("Hide the SSH port, opening it only after a secret sequence of connection " +:+ QUOTE +:+ "knocks" +:+ QUOTE +:+ ".");
  prompt := VString "*   **Enable Port Knocking for SSH**: This is an advanced feature. The script should use `iptables` to set up a port knocking sequence for SSH. First, ensure the main SSH rule is REMOVED from the INPUT chain. Then, create three new chains (e.g., `KNOCK1`, `KNOCK2`, `SSH_GATE`). A new connection to a secret port (e.g., 7001) should move the source IP to the `KNOCK1` list. A subsequent connection from that IP to a second secret port (e.g., 7002) moves them to `KNOCK2`. A final knock on a third port (e.g., 7003) moves them to `SSH_GATE`, which contains the rule to `ACCEPT` traffic on the real SSH port. The user's IP is tracked via the `recent` module. IPs are remembered for only 15 seconds in each stage. Add extensive comments explaining how to use this (e.g., `knock server 7001 7002 7003`) and how to change the ports.";
  subOptions := None;
  rebootRequired := None;
|}.

Definition dnfSecurity : HardeningOption := {|
  id := "dnfSecurity";
  label := "Secure DNF Configuration";
  description := "Enforce GPG checks for all packages and audit repository configurations.";
  prompt := VString "*   **Secure DNF Configuration**: The script must ensure that GPG signature checking is globally enabled. Programmatically verify and set `gpgcheck=1` in the `[main]` section of `/etc/dnf/dnf.conf`. Additionally, the script should scan all `.repo` files in `/etc/yum.repos.d/` and use `log_warning` to report any repositories that are configured with `gpgcheck=0`, as this is a major security risk. It should also list any disabled repositories (`enabled=0`) for user review. Add comments explaining the importance of these settings.";
  subOptions := None;
  rebootRequired := None;
|}.

Definition pciDss : HardeningOption := {|
  id := "pciDss";
  label := "PCI DSS Baseline Checks";
  description := "Install and configure tools to meet common PCI DSS requirements like File Integrity Monitoring (AIDE) and log retention.";
  prompt := VString ("*   **PCI DSS Baseline Checks**: This section implements several controls related to the Payment Card Industry Data Security Standard." +:+ LF +:+ "*   **File Integrity Monitoring (Req 11.5)**: Install the `aide` package. Initialize the AIDE database using `aide --init` and then move the new database to become the active one (`mv /var/lib/aide/aide.db.new.gz /var/lib/aide/aide.db.gz`). Add comments explaining that the initial database must be stored securely. Create a cron job in `/etc/cron.daily/aidecheck` to run `aide --check` and log the results." +:+ LF +:+ "*   **Log Retention (Req 10.7)**: Configure system logs to be persistent and retained. Modify `/etc/systemd/journald.conf` to set `Storage=persistent` and `SystemMaxUse=500M` to prevent excessive disk usage. The script should then restart the `systemd-journald` service." +:+ LF +:+ "*   **Disable Unnecessary Services (Req 2.2.2)**: Systematically disable services that are insecure or typically not required in a PCI environment, such as `telnet.socket`, `rsh.socket`, `nfs-server`, and `samba`. Use `systemctl disable --now` for each." +:+ LF +:+ "*   **Password History & Lockout (Req 8.2.3, 8.1.6)**: Enhance password security. Check PAM configuration files in `/etc/pam.d/` (like `password-auth` and `system-auth`) to ensure `pam_pwhistory.so` is used to remember at least the last 5 passwords, and `pam_tally2.so` is configured to lock an account for 15 minutes after 5 failed login attempts.");
  subOptions := None;
  rebootRequired := None;
|}.

End allOptions.

(** *** Parent container definitions *)

Definition systemAndPackagesParent : HardeningOption := {|
  id := "systemAndPackages";
  label := "System & Package Management";
  description := "Core system updates and package manager configuration.";
  prompt := VString "";
  subOptions := Some [allOptions.updates; allOptions.autoUpdates; allOptions.dnfSecurity];
  rebootRequired := None;
|}.

Definition networkSecurityParent : HardeningOption := {|
  id := "networkSecurity";
  label := "Network Security";
  description := "Harden network services like SSH and the system firewall.";
  prompt := VString "";
  subOptions := Some [allOptions.firewall; allOptions.ssh; allOptions.sshPort; allOptions.fail2ban];
  rebootRequired := None;
|}.

Definition userManagementParent : HardeningOption := {|
  id := "userManagement";
  label := "User & Access Control";
  description := "Manage user accounts, enforce strong passwords, and set restrictive permissions.";
  prompt := VString "";
  subOptions := Some [allOptions.passwordPolicy; allOptions.userAccountManagement; allOptions.sudoAudit; allOptions.umask];
  rebootRequired := None;
|}.

Definition systemInternalsParent : HardeningOption := {|
  id := "systemInternals";
  label := "System Internals";
  description := "Harden low-level system components like the kernel and SELinux.";
  prompt := VString "";
  subOptions := Some [allOptions.kernel; allOptions.selinux];
  rebootRequired := None;
|}.

Definition serviceHardeningParent : HardeningOption := {|
  id := "serviceHardening";
  label := "Service-Specific Hardening";
  description := "Check for vulnerabilities in specific installed services.";
  prompt := VString "";
  subOptions := Some [allOptions.bindCheck];
  rebootRequired := None;
|}.

Definition iptablesParent : HardeningOption := {|
  id := "iptables";
  label := "Advanced Firewall (iptables)";
  description := "Implement a highly secure, layered firewall using advanced iptables features.";
  prompt := VString "";
  subOptions := Some [allOptions.iptablesAdvanced; allOptions.iptablesBogon; allOptions.iptablesPortKnocking];
  rebootRequired := None;
|}.

Definition loggingParent : HardeningOption := {|
  id := "loggingParent";
  label := "Auditing & Logging";
  description := "Configure detailed system logging and auditing to track security events.";
  prompt := VString "";
  subOptions := Some [allOptions.logging; allOptions.auditFileAccess; allOptions.auditCommands; allOptions.auditLogins];
  rebootRequired := None;
|}.

Definition bootAndFilesystemParent : HardeningOption := {|
  id := "bootAndFilesystem";
  label := "Boot & Filesystem Security";
  description := "Secure the boot process and harden filesystem configurations.";
  prompt := VString "";
  subOptions := Some [allOptions.grubPassword; allOptions.filesystem; allOptions.disableFilesystems];
  rebootRequired := None;
|}.

Definition complianceParent : HardeningOption := {|
  id := "compliance";
  label := "Compliance Frameworks";
  description := "Apply configurations based on common security standards like PCI DSS.";
  prompt := VString "";
  subOptions := Some [allOptions.pciDss];
  rebootRequired := None;
|}.

(** [{ ...parent, subOptions: subs }]. *)
Definition spread_subOptions (parent : HardeningOption)
    (subs : list HardeningOption) : HardeningOption := {|
  id := id parent;
  label := label parent;
  description := description parent;
  prompt := prompt parent;
  subOptions := Some subs;
  rebootRequired := rebootRequired parent;
|}.

Definition PARANOIA_LEVELS : list ParanoiaLevel := [
  {| level := 1;
     title := "Level 1: Essential Hardening";
     level_description := "Recommended for all systems. These are fundamental security practices with low risk of impacting system functionality.";
     options := [
       spread_subOptions systemAndPackagesParent [allOptions.updates];
       spread_subOptions networkSecurityParent
         [allOptions.firewall; allOptions.ssh; allOptions.sshPort]
     ] |};
  {| level := 2;
     title := "Level 2: Advanced Security";
     level_description := "For production servers and systems handling sensitive data. These measures offer enhanced protection but may require some configuration.";
     options := [
       spread_subOptions systemAndPackagesParent
         [allOptions.autoUpdates; allOptions.dnfSecurity];
       spread_subOptions networkSecurityParent [allOptions.fail2ban];
       userManagementParent;
       systemInternalsParent;
       serviceHardeningParent
     ] |};
  {| level := 3;
     title := ("Level 3: Maximum Security (" +:+ QUOTE +:+ "Paranoid Mode" +:+ QUOTE +:+ ")");
     level_description := "For high-risk environments where security is paramount. These settings may affect usability or application compatibility.";
     options := [
       iptablesParent;
       bootAndFilesystemParent;
       loggingParent;
       complianceParent
     ] |}
].

Definition SUGGESTED_PROMPTS : list SuggestedPrompt := [
  {| suggestion_label := "CVE-2021-3156 (Baron Samedit)";
     promptText := "Add a check for the sudo Baron Samedit vulnerability (CVE-2021-3156) and recommend updating if vulnerable." |};
  {| suggestion_label := "CVE-2014-6271 (Shellshock)";
     promptText := "Add a command to test if the system's bash executable is vulnerable to the Shellshock bug (CVE-2014-6271)." |};
  {| suggestion_label := "CVE-2021-44228 (Log4Shell)";
     promptText := "Include a section that scans the filesystem for vulnerable Log4j library versions (log4j-core*.jar) related to CVE-2021-44228." |};
  {| suggestion_label := "CVE-2016-5195 (Dirty COW)";
     promptText := "Add a check for the Dirty COW vulnerability (CVE-2016-5195) by verifying the kernel version is patched. The script should not attempt to compile and run an exploit." |};
  {| suggestion_label := "CVE-2021-4034 (PwnKit)";
     promptText := "Add a check for the PwnKit vulnerability (CVE-2021-4034) by checking the installed version of the `polkit` package and recommending an update if it is vulnerable." |};
  {| suggestion_label := "CVE-2014-0160 (Heartbleed)";
     promptText := "Add a check for the Heartbleed vulnerability (CVE-2014-0160) by checking the installed version of `openssl` and recommending an update if vulnerable." |};
  {| suggestion_label := "Create Auditor User";
     promptText := ("Create a new user named " +:+ QUOTE +:+ "auditor" +:+ QUOTE +:+ " with a locked password, a home directory, and add them to a new group also named " +:+ QUOTE +:+ "auditor" +:+ QUOTE +:+ ". This user should not have shell access.") |};
  {| suggestion_label := "Minimal Services";
     promptText := "Disable all non-essential services. Ensure core services like sshd, crond, auditd, and firewalld remain enabled." |};
  {| suggestion_label := "Weekly Update Check";
     promptText := "Add a weekly cron job in /etc/cron.weekly/ that runs `dnf check-update` and logs the output to /var/log/weekly_update_check.log." |}
].

(** ** JavaScript containers *)

(** A [Map] with string keys: bindings in insertion order; [set] on a key
    that is present replaces the value where the key already stands. *)
Module JsMap.

Definition t (V : Type) := list (string * V).

Fixpoint set {V} (m : t V) (k : string) (v : V) : t V :=
  match m with
  | [] => [(k, v)]
  | (k', v') :: m' =>
      if decide (k' = k) then (k, v) :: m' else (k', v') :: set m' k v
  end.

Fixpoint get {V} (m : t V) (k : string) : option V :=
  match m with
  | [] => None
  | (k', v') :: m' => if decide (k' = k) then Some v' else get m' k
  end.

Definition keys {V} (m : t V) : list string := m.*1.
Definition values {V} (m : t V) : list V := m.*2.

End JsMap.

(** A plain object used as a [Record<string, boolean>]: its own properties
    are a [gmap]; the properties inherited from [Object.prototype] (functions,
    and the prototype itself under [__proto__]) read as truthy. *)
Module JsObject.

Definition prototype_keys : list string :=
  [ "constructor"; "__defineGetter__"; "__defineSetter__"; "hasOwnProperty";
    "__lookupGetter__"; "__lookupSetter__"; "isPrototypeOf";
    "propertyIsEnumerable"; "toString"; "valueOf"; "__proto__";
    "toLocaleString" ].

(** The truthiness of [o[k]]. *)
Definition get (o : gmap string bool) (k : string) : bool :=
  match o !! k with
  | Some b => b
  | None => bool_decide (k ∈ prototype_keys)
  end.

(** [o[k] = b].  Assigning a boolean to [__proto__] runs the inherited
    setter, which ignores it. *)
Definition set (o : gmap string bool) (k : string) (b : bool) : gmap string bool :=
  if decide (k = "__proto__") then o else <[k := b]> o.

(** [Object.values(o)]. *)
Definition values (o : gmap string bool) : list bool := (map_to_list o).*2.

End JsObject.

(** ** components/ScriptDisplay.tsx *)

Module ScriptDisplay.

(** The props of the panel.  [currentStep] and [totalSteps] default to 0 and
    [isRebootRecommended] to [false]; [placeholder] says whether a truthy
    placeholder node was passed. *)
Record Props := {
  script : string;
  isLoading : bool;
  error : option string;
  loadingMessage : string;
  currentStep : nat;
  totalSteps : nat;
  placeholder : bool;
  isRebootRecommended : bool;
}.

(** What [renderContent] returns: the progress bar with its width in percent
    and the message under it, the error, the placeholder node, the invitation
    [Your script will appear here], or the script. *)
Inductive Content :=
| Progress (percent : Q) (message : string)
| ErrorMessage (error : string)
| PlaceholderNode
| Invitation
| Code (script : string).

(** The truthiness of a [string | null]. *)
Definition truthy (e : option string) : bool :=
  match e with
  | Some m => JsString.truthy m
  | None => false
  end.

(** [totalSteps > 0 ? (currentStep / totalSteps) * 100 : 0]. *)
Definition progress (p : Props) : Q :=
  if bool_decide (0 < totalSteps p) then
    (inject_Z (Z.of_nat (currentStep p)) / inject_Z (Z.of_nat (totalSteps p))) * 100
  else 0.

Definition renderContent (p : Props) : Content :=
  if isLoading p then Progress (progress p) (loadingMessage p)
  else if truthy (error p) then ErrorMessage (default "" (error p))
  else if negb (JsString.truthy (script p)) then
    if placeholder p then PlaceholderNode else Invitation
  else Code (script p).



End ScriptDisplay.

(** ** components/AnalysisDisplay.tsx *)

Module AnalysisDisplay.

Record Props := {
  result : option AnalysisResult;
  isLoading : bool;
  error : option string;
}.

(** [getScoreColor] of [ScoreIndicator], on the number its parameter is
    declared to be. *)
Definition getScoreColor (s : number) : string :=
  if Js.number_lt s (Fin 50) then "bg-red-600"
  else if Js.number_lt s (Fin 80) then "bg-yellow-500"
  else "bg-green-500".

(** The callback of [progressInterval], which runs while the analysis is
    loading: [Math.min(prev + Math.random() * 15, 95)], with the sum taken
    exactly.  [random] is what [Math.random()] returned. *)
Definition progressTick (random : Q) (prev : Q) : Q :=
  let next := (prev + random * 15)%Q in
  if Qle_bool next 95 then next else 95%Q.

(** The cell [progress] of the component, and whether [progressInterval]
    is set. *)
Record Bar := {
  progress : Q;
  intervalSet : bool;
}.

(** [useState(0)]: the cell at the first render, before any effect. *)
Definition mounted : Bar := {| progress := 0; intervalSet := false |}.

(** What acts on the cell.  The effect runs after the render that follows
    the mount or a change of [isLoading] or [result], once the cleanup of
    its previous run has cleared the intervals: it resets the cell and, when
    loading, sets the interval.  The interval fires only while it is set. *)
Inductive Event :=
| EffectRuns (isLoading : bool) (result : option AnalysisResult)
| IntervalFires (random : Q).

Definition step (bar : Bar) (event : Event) : Bar :=
  match event with
  | EffectRuns true _ => {| progress := 0; intervalSet := true |}
  | EffectRuns false result =>
      {| progress := if result is Some _ then 100 else 0; intervalSet := false |}
  | IntervalFires random =>
      if intervalSet bar then
        {| progress := progressTick random (progress bar); intervalSet := true |}
      else bar
  end.

(** The cell after a sequence of events, from the mount on. *)
Definition run (events : list Event) : Bar := fold_left step events mounted.

(** The width, in percent, of the bar a render draws: there is a bar only
    in the loading branch of [renderContent], and it shows the cell as it is
    at that render.  The render that begins a loading phase comes before the
    effect, so it still draws what the previous phase left in the cell. *)
Definition barWidth (isLoading : bool) (bar : Bar) : option Q :=
  if isLoading then Some (progress bar) else None.

(** What [renderContent] returns: the progress bar, the error, the
    invitation [Analysis will appear here], or the score indicator above the
    analysis text. *)
Inductive Content :=
| Progress
| ErrorMessage (error : string)
| Invitation
| Report (securityScore : value) (analysisText : value).

Definition renderContent (p : Props) : Content :=
  if isLoading p then Progress
  else if ScriptDisplay.truthy (error p) then ErrorMessage (default "" (error p))
  else match result p with
       | None => Invitation
       | Some r => Report (securityScore r) (analysisText r)
       end.

End AnalysisDisplay.

(** ** App.tsx *)

Module App.

Definition MAX_CUSTOM_PROMPT_LENGTH : nat := 1000.

Record GenerationStatus := {
  totalSteps : nat;
  currentStep : nat;
  message : string;
}.

(** *** Pre-computation for efficient option handling *)

(** The source recurses on the array and, inside the loop, on
    [option.subOptions]; here the recursion is on the option, and the array
    is traversed by the list bind. *)
Fixpoint option_and_descendants (option : HardeningOption) : list HardeningOption :=
  option ::
    match subOptions option with
    | Some subs => subs ≫= option_and_descendants
    | None => []
    end.

Definition getAllOptionsRecursively (options : list HardeningOption)
    : list HardeningOption :=
  options ≫= option_and_descendants.

(** The two module-level maps [idToOptionMap] and [parentMap]. *)
Record Lookups := {
  idToOptionMap : JsMap.t HardeningOption;
  parentMap : JsMap.t string;
}.

Definition no_lookups : Lookups := {| idToOptionMap := []; parentMap := [] |}.

(** [if (parentId)]: neither [null] nor the empty string. *)
Definition parentId_truthy (parentId : option string) : option string :=
  match parentId with
  | Some p => if JsString.truthy p then Some p else None
  | None => None
  end.

(** One iteration of the loop of [buildLookups]. *)
Fixpoint buildLookups_option (parentId : option string) (L : Lookups)
    (option : HardeningOption) : Lookups :=
  let L1 := {| idToOptionMap := JsMap.set (idToOptionMap L) (id option) option;
               parentMap := parentMap L |} in
  let L2 :=
    match parentId_truthy parentId with
    | Some p => {| idToOptionMap := idToOptionMap L1;
                   parentMap := JsMap.set (parentMap L1) (id option) p |}
    | None => L1
    end in
  match subOptions option with
  | Some subs => fold_left (buildLookups_option (Some (id option))) subs L2
  | None => L2
  end.

Definition buildLookups (options : list HardeningOption) (parentId : option string)
    (L : Lookups) : Lookups :=
  fold_left (buildLookups_option parentId) options L.

(** [levels.forEach(level => buildLookups(level.options))]. *)
Definition lookups_of (levels : list ParanoiaLevel) : Lookups :=
  fold_left (λ L level, buildLookups (options level) None L) levels no_lookups.

(** [Array.from(idToOptionMap.values())]. *)
Definition allOptionsFromLevels_of (L : Lookups) : list HardeningOption :=
  JsMap.values (idToOptionMap L).

(** [Array.from(idToOptionMap.keys()).reduce(...)]: every key unselected. *)
Definition initialSelections_of (L : Lookups) : gmap string bool :=
  fold_left (λ acc key, JsObject.set acc key false)
    (JsMap.keys (idToOptionMap L)) ∅.

(** The instances for the shipped catalog. *)
Definition lookups : Lookups := lookups_of PARANOIA_LEVELS.
Definition allOptionsFromLevels : list HardeningOption := allOptionsFromLevels_of lookups.
Definition initialSelections : gmap string bool := initialSelections_of lookups.

(** *** handleOptionChange *)

(** Step 3, the [while (parentId)] loop.  [fuel] bounds the number of
    iterations; [None] means the bound was reached. *)
Fixpoint propagate_up (L : Lookups) (isChecked : bool) (fuel : nat)
    (newSelections : gmap string bool) (parentId : option string)
    : option (gmap string bool) :=
  match parentId_truthy parentId with
  | None => Some newSelections
  | Some p =>
      match fuel with
      | O => None
      | S fuel' =>
          match JsMap.get (idToOptionMap L) p ≫= subOptions with
          | None => Some newSelections (* break *)
          | Some subs =>
              let newSelections' :=
                if negb isChecked then
                  JsObject.set newSelections p false
                else
                  let allChildrenChecked :=
                    forallb (λ sub, JsObject.get newSelections (id sub)) subs in
                  JsObject.set newSelections p allChildrenChecked in
              propagate_up L isChecked fuel' newSelections'
                (JsMap.get (parentMap L) p)
          end
      end
  end.

(** The updater passed to [setSelectedOptions]; [optionId] is the source's
    parameter [id]. *)
Definition handleOptionChange (L : Lookups) (fuel : nat) (optionId : string)
    (prev : gmap string bool) : option (gmap string bool) :=
  (* 1. Toggle the clicked option's state *)
  let isChecked := negb (JsObject.get prev optionId) in
  let newSelections := JsObject.set prev optionId isChecked in
  let changedOption := JsMap.get (idToOptionMap L) optionId in
  (* 2. Propagate changes downwards to all descendants *)
  let newSelections :=
    match changedOption ≫= subOptions with
    | Some subs =>
        fold_left (λ acc descendant, JsObject.set acc (id descendant) isChecked)
          (getAllOptionsRecursively subs) newSelections
    | None => newSelections
    end in
  (* 3. Propagate changes upwards to all ancestors *)
  propagate_up L isChecked fuel newSelections (JsMap.get (parentMap L) optionId).

(** A sequence of clicks, each applied to the state the previous one left. *)
Fixpoint toggles (L : Lookups) (fuel : nat) (ids : list string)
    (sel : gmap string bool) : option (gmap string bool) :=
  match ids with
  | [] => Some sel
  | i :: rest => handleOptionChange L fuel i sel ≫= toggles L fuel rest
  end.

(** *** Component state *)

(** An element of the array [activeOptions], and of [lastActiveOptions]
    after it.  The array holds option objects, not copies: an element is
    one of the objects of [allOptionsFromLevels], named here by its place in
    that array, so that an assignment to the object's [prompt] shows through
    every array that holds it; or it is the object literal the handler
    pushes for the custom request, which no other array holds. *)
Inductive ActiveOption :=
| OptionObject (place : nat)
| CustomObject (option : HardeningOption).

(** The object an element stands for, as it is when it is read; [allOptions]
    is what the objects of [allOptionsFromLevels] hold at that moment. *)
Definition read_option (allOptions : list HardeningOption) (element : ActiveOption)
    : option HardeningOption :=
  match element with
  | OptionObject place => allOptions !! place
  | CustomObject option => Some option
  end.

Definition read_options (allOptions : list HardeningOption)
    (elements : list ActiveOption) : list HardeningOption :=
  omap (read_option allOptions) elements.

(** The [useState] cells of the generation and of the ShellCheck tabs.
    The cells of the analysis tab and [activeTab] only feed the display. *)
Record AppState := mkAppState {
  selectedOptions : gmap string bool;
  customPrompt : string;
  customExclusions : string;
  generatedScript : string;
  isLoading : bool;
  error : option string;
  generationStatus : option GenerationStatus;
  lastActiveOptions : list ActiveOption;
  isRebootRecommended : bool;
  isImproving : bool;
  improvingError : option string;
  improvedScript : string;
  improvementSummary : list value;
  improvedPromptIds : gset string;
  showImprovementSuccess : bool;
}.

(** The state setters: each replaces one cell. *)
Definition setGeneratedScript (x : string) (s : AppState) : AppState :=
  let '(mkAppState so cp ce gs il er st la rb ii ie is' su ids sh) := s in
  mkAppState so cp ce x il er st la rb ii ie is' su ids sh.
Definition setIsLoading (x : bool) (s : AppState) : AppState :=
  let '(mkAppState so cp ce gs il er st la rb ii ie is' su ids sh) := s in
  mkAppState so cp ce gs x er st la rb ii ie is' su ids sh.
Definition setError (x : option string) (s : AppState) : AppState :=
  let '(mkAppState so cp ce gs il er st la rb ii ie is' su ids sh) := s in
  mkAppState so cp ce gs il x st la rb ii ie is' su ids sh.
Definition setGenerationStatus (x : option GenerationStatus) (s : AppState) : AppState :=
  let '(mkAppState so cp ce gs il er st la rb ii ie is' su ids sh) := s in
  mkAppState so cp ce gs il er x la rb ii ie is' su ids sh.
Definition setLastActiveOptions (x : list ActiveOption) (s : AppState) : AppState :=
  let '(mkAppState so cp ce gs il er st la rb ii ie is' su ids sh) := s in
  mkAppState so cp ce gs il er st x rb ii ie is' su ids sh.
Definition setIsRebootRecommended (x : bool) (s : AppState) : AppState :=
  let '(mkAppState so cp ce gs il er st la rb ii ie is' su ids sh) := s in
  mkAppState so cp ce gs il er st la x ii ie is' su ids sh.
Definition setIsImproving (x : bool) (s : AppState) : AppState :=
  let '(mkAppState so cp ce gs il er st la rb ii ie is' su ids sh) := s in
  mkAppState so cp ce gs il er st la rb x ie is' su ids sh.
Definition setImprovingError (x : option string) (s : AppState) : AppState :=
  let '(mkAppState so cp ce gs il er st la rb ii ie is' su ids sh) := s in
  mkAppState so cp ce gs il er st la rb ii x is' su ids sh.
Definition setImprovedScript (x : string) (s : AppState) : AppState :=
  let '(mkAppState so cp ce gs il er st la rb ii ie is' su ids sh) := s in
  mkAppState so cp ce gs il er st la rb ii ie x su ids sh.
Definition setImprovementSummary (x : list value) (s : AppState) : AppState :=
  let '(mkAppState so cp ce gs il er st la rb ii ie is' su ids sh) := s in
  mkAppState so cp ce gs il er st la rb ii ie is' x ids sh.
Definition setImprovedPromptIds (x : gset string) (s : AppState) : AppState :=
  let '(mkAppState so cp ce gs il er st la rb ii ie is' su ids sh) := s in
  mkAppState so cp ce gs il er st la rb ii ie is' su x sh.
Definition setShowImprovementSuccess (x : bool) (s : AppState) : AppState :=
  let '(mkAppState so cp ce gs il er st la rb ii ie is' su ids sh) := s in
  mkAppState so cp ce gs il er st la rb ii ie is' su ids x.
Definition setSelectedOptions (x : gmap string bool) (s : AppState) : AppState :=
  let '(mkAppState so cp ce gs il er st la rb ii ie is' su ids sh) := s in
  mkAppState x cp ce gs il er st la rb ii ie is' su ids sh.

(** The cells as [useState] initialises them. *)
Definition initialState : AppState := {|
  selectedOptions := initialSelections;
  customPrompt := "";
  customExclusions := "";
  generatedScript := "";
  isLoading := false;
  error := None;
  generationStatus := None;
  lastActiveOptions := [];
  isRebootRecommended := false;
  isImproving := false;
  improvingError := None;
  improvedScript := "";
  improvementSummary := [];
  improvedPromptIds := ∅;
  showImprovementSuccess := false;
|}.

(** *** The gateway as the component sees it *)

Inductive GatewayCall :=
| CallHeader
| CallSection (option : HardeningOption)
| CallFooter
| CallImprove (originalScript : string) (activeOptions : list HardeningOption).

(** What each gateway operation settles to, given how many calls the
    handler has dispatched before it. *)
Record Gateway := {
  gw_header : nat → Result string;
  gw_section : nat → HardeningOption → Result string;
  gw_footer : nat → Result string;
  gw_improve : nat → string → list HardeningOption → Result ImprovementResult;
}.

(** [services/geminiService.ts] behind that interface. *)
Definition geminiGateway (E : Engine) (API_KEY : Env) (remote : nat → Remote) : Gateway := {|
  gw_header k := generateScriptHeaderAndHelpers API_KEY (remote k);
  gw_section k option := generateScriptSection API_KEY (remote k) option;
  gw_footer k := generateScriptFooter API_KEY (remote k);
  gw_improve k script opts := runShellcheckAndLearn E API_KEY (remote k) script opts;
|}.

(** *** Handlers as state transformers *)

(** What a handler acts on: the component state, what the option objects
    of [allOptionsFromLevels] hold (the improvement loop overwrites their
    [prompt]; prompts are read through this array and through
    [lastActiveOptions], which holds some of the same objects), and the
    gateway calls dispatched so far, oldest first. *)
Record World := mkWorld {
  app : AppState;
  catalog : list HardeningOption;
  calls : list GatewayCall;
}.

(** The component when it mounts, before any call. *)
Definition initialWorld : World :=
  mkWorld initialState allOptionsFromLevels [].

Definition M (A : Type) : Type := World → Result A * World.

#[global] Instance M_ret : MRet M := λ A a w, (Ok a, w).
#[global] Instance M_bind : MBind M := λ A B f m w,
  match m w with
  | (Ok a, w') => f a w'
  | (Throw e, w') => (Throw e, w')
  end.

Definition throw {A} (e : thrown) : M A := λ w, (Throw e, w).

(** A synchronous computation that may throw. *)
Definition lift {A} (r : Result A) : M A := λ w, (r, w).

Definition try_catch {A} (body : M A) (handler : thrown → M A) : M A := λ w,
  match body w with
  | (Ok a, w') => (Ok a, w')
  | (Throw e, w') => handler e w'
  end.

Definition try_finally {A} (body : M A) (finalizer : M unit) : M A := λ w,
  let '(r, w') := body w in
  match finalizer w' with
  | (Ok _, w'') => (r, w'')
  | (Throw e, w'') => (Throw e, w'')
  end.

(** A call of a state setter. *)
Definition update (f : AppState → AppState) : M unit := λ w,
  (Ok (), mkWorld (f (app w)) (catalog w) (calls w)).

(** [await] of a gateway operation: the call is recorded, then it settles. *)
Definition dispatch {A} (c : GatewayCall) (settle : nat → Result A) : M A := λ w,
  (settle (length (calls w)), mkWorld (app w) (catalog w) (calls w ++ [c])).

(** [e instanceof Error ? e.message : fallback]. *)
Definition message_or (e : thrown) (fallback : string) : string :=
  match e with
  | ThrownError m => m
  | ThrownOther => fallback
  end.

Section Handlers.

Variable E : Engine.
Variable L : Lookups.
Variable G : Gateway.
(** [JOKES[Math.floor(Math.random() * JOKES.length)]] at the k-th
    progress update: what the random draw picks is left open. *)
Variable randomJoke : nat → string.

(** **** handleGenerateScript *)

Definition isPromptTooLong (s : AppState) : bool :=
  bool_decide (MAX_CUSTOM_PROMPT_LENGTH < String.length (customPrompt s)).

Definition isAnyOptionSelected (s : AppState) : bool :=
  existsb (λ b, b) (JsObject.values (selectedOptions s))
  || negb (bool_decide (JsString.trim (customPrompt s) = "")).

Definition finalCustomPrompt (s : AppState) : string :=
  let base := "*   **Custom Request**: " +:+ JsString.trim (customPrompt s) in
  if JsString.truthy (JsString.trim (customExclusions s)) then
    base +:+ LF +:+ "    *   **IMPORTANT EXCLUSIONS**: The user has specified that the following items MUST be excluded from this custom task: `"
      +:+ JsString.trim (customExclusions s)
      +:+ "`. For example, if the request is to " +:+ QUOTE +:+ "disable all services"
      +:+ QUOTE +:+ " and the exclusion is " +:+ QUOTE +:+ "sshd" +:+ QUOTE
      +:+ ", your script must NOT disable the sshd service. Honor these exclusions strictly."
  else base.

Definition customOption (s : AppState) : HardeningOption := {|
  id := "custom";
  label := "Custom Requirement";
  description := "User-defined custom prompt.";
  prompt := VString (finalCustomPrompt s);
  subOptions := None;
  rebootRequired := None;
|}.

(** The selected options that have a prompt, in the order of
    [allOptionsFromLevels], then the custom request if there is one. *)
Definition activeOptions_of (s : AppState) (allOptions : list HardeningOption)
    : list HardeningOption :=
  filter (λ option, JsObject.get (selectedOptions s) (id option)
                    && Js.truthy (prompt option) = true) allOptions
  ++ (if JsString.truthy (JsString.trim (customPrompt s)) then [customOption s] else []).

(** The same array as the objects it holds: [filter] keeps the objects of
    [allOptions] that pass the test, [push] adds the new object literal. *)
Fixpoint filter_objects (test : HardeningOption → bool) (place : nat)
    (allOptions : list HardeningOption) : list ActiveOption :=
  match allOptions with
  | [] => []
  | option :: rest =>
      (if test option then [OptionObject place] else [])
      ++ filter_objects test (S place) rest
  end.

Definition activeOptionObjects_of (s : AppState) (allOptions : list HardeningOption)
    : list ActiveOption :=
  filter_objects (λ option, JsObject.get (selectedOptions s) (id option)
                            && Js.truthy (prompt option)) 0 allOptions
  ++ (if JsString.truthy (JsString.trim (customPrompt s))
      then [CustomObject (customOption s)] else []).

Definition rebootNeeded_of (activeOptions : list HardeningOption) : bool :=
  existsb (λ option,
      match JsMap.get (idToOptionMap L) (id option) ≫= rebootRequired with
      | Some b => b
      | None => false
      end) activeOptions.

(** [updateProgress]: increments the local [currentStep], which it
    returns, and publishes the status. *)
Definition updateProgress (totalSteps currentStep : nat) (stepMessage : string) : M nat :=
  let currentStep := S currentStep in
  let message := stepMessage +:+ LF +:+ LF +:+ QUOTE +:+ randomJoke currentStep +:+ QUOTE in
  _ ← update (setGenerationStatus (Some (Build_GenerationStatus totalSteps currentStep message)));
  mret currentStep.

(** The [for (const option of activeOptions)] loop, threading the locals
    [currentStep] and [fullScript]. *)
Fixpoint generate_sections (totalSteps : nat) (activeOptions : list HardeningOption)
    (currentStep : nat) (fullScript : string) : M (nat * string) :=
  match activeOptions with
  | [] => mret (currentStep, fullScript)
  | option :: rest =>
      currentStep ← updateProgress totalSteps currentStep
        ("Step " +:+ pretty (currentStep + 1) +:+ ": Generating '" +:+ label option
         +:+ "' section...");
      section ← dispatch (CallSection option) (λ k, gw_section G k option);
      let fullScript := fullScript +:+ section +:+ LF +:+ LF in
      _ ← update (setGeneratedScript fullScript);
      generate_sections totalSteps rest currentStep fullScript
  end.

Definition handleGenerateScript : M unit := λ w,
  let s := app w in
  if isPromptTooLong s || negb (isAnyOptionSelected s) then (Ok (), w)
  else
    (_ ← update (setIsLoading true);
     _ ← update (setError None);
     _ ← update (setGeneratedScript "");
     _ ← update (setImprovedScript "");
     _ ← update (setImprovementSummary []);
     _ ← update (setIsRebootRecommended false);
     let activeOptions := activeOptions_of s (catalog w) in
     (* the cell keeps the array itself, that is, the objects *)
     _ ← update (setLastActiveOptions (activeOptionObjects_of s (catalog w)));
     (* Check for reboot requirement *)
     _ ← update (setIsRebootRecommended (rebootNeeded_of activeOptions));
     let totalSteps := length activeOptions + 2 in
     try_finally
       (try_catch
          ((* Initial state *)
           _ ← update (setGenerationStatus (Some
                  (Build_GenerationStatus totalSteps 0 "Initializing generation...")));
           (* Step 1: Header *)
           currentStep ← updateProgress totalSteps 0
             "Step 1: Generating script header and helpers...";
           header ← dispatch CallHeader (gw_header G);
           let fullScript := "" +:+ header +:+ LF +:+ LF in
           _ ← update (setGeneratedScript fullScript);
           (* Step 2...N: Sections *)
           '(currentStep, fullScript) ←
              generate_sections totalSteps activeOptions currentStep fullScript;
           (* Final Step: Footer *)
           _ ← updateProgress totalSteps currentStep
             ("Step " +:+ pretty totalSteps +:+ ": Adding script footer...");
           footer ← dispatch CallFooter (gw_footer G);
           let fullScript := fullScript +:+ footer +:+ LF in
           update (setGeneratedScript fullScript))
          (λ e,
             let errorMessage :=
               message_or e "An unknown error occurred during script generation." in
             _ ← update (setError (Some errorMessage));
             update (setGenerationStatus None)))
       (_ ← update (setIsLoading false);
        update (setGenerationStatus None))) w.

(** **** handleRunShellcheck *)

(** [optionToUpdate.prompt = newPrompt] on the first option of the array
    whose [id] is [optionId].  The object keeps its place, so the arrays
    that hold it read the new prompt from then on. *)
Fixpoint assign_prompt (allOptions : list HardeningOption) (optionId : string)
    (newPrompt : value) : list HardeningOption :=
  match allOptions with
  | [] => []
  | opt :: rest =>
      if decide (id opt = optionId) then
        {| id := id opt; label := label opt; description := description opt;
           prompt := newPrompt;
           subOptions := subOptions opt; rebootRequired := rebootRequired opt |}
        :: rest
      else opt :: assign_prompt rest optionId newPrompt
  end.

Definition set_catalog (c : list HardeningOption) : M unit := λ w,
  (Ok (), mkWorld (app w) c (calls w)).

(** The callback of [result.refinedPrompts.forEach], threading the local
    set [newImprovedIds]. *)
Definition apply_refined (refined : value) (newImprovedIds : gset string)
    : M (gset string) := λ w,
  (refinedId ← lift (Js.get E refined "id");
   (* allOptionsFromLevels.find(opt => opt.id === refined.id) *)
   match refinedId with
   | VString i =>
       if bool_decide (i ∈ id <$> catalog w) then
         newPrompt ← lift (Js.get E refined "newPrompt");
         _ ← set_catalog (assign_prompt (catalog w) i newPrompt);
         mret ({[ i ]} ∪ newImprovedIds)
       else mret newImprovedIds
   | _ => mret newImprovedIds
   end) w.

Fixpoint forEach_refined (items : list value) (newImprovedIds : gset string)
    : M (gset string) :=
  match items with
  | [] => mret newImprovedIds
  | refined :: rest =>
      newImprovedIds ← apply_refined refined newImprovedIds;
      forEach_refined rest newImprovedIds
  end.

Definition handleRunShellcheck : M unit := λ w,
  let s := app w in
  let script := generatedScript s in
  if negb (JsString.truthy (JsString.trim script))
     || negb (JsString.startsWith (JsString.trim script) "#!") then
    update (setImprovingError (Some
      "A valid script with a shebang (e.g., #!/bin/bash) must be generated on the first tab before running ShellCheck.")) w
  else
    (_ ← update (setIsImproving true);
     _ ← update (setImprovingError None);
     _ ← update (setImprovedScript "");
     _ ← update (setImprovementSummary []);
     try_finally
       (try_catch
          ((* Filter out the custom prompt before sending to learn *)
           let learnableOptions :=
             filter (λ opt, id opt ≠ "custom")
               (read_options (catalog w) (lastActiveOptions s)) in
           result ← dispatch (CallImprove script learnableOptions)
                      (λ k, gw_improve G k script learnableOptions);
           _ ← update (setImprovedScript (correctedScript result));
           _ ← update (setImprovementSummary (types.improvementSummary result));
           (* Apply learned prompt improvements *)
           len ← lift (Js.get E (refinedPrompts result) "length");
           n ← lift (Js.ToNumber E len);
           if Js.number_lt (Fin 0) n then
             _ ← update (setShowImprovementSuccess true);
             let newImprovedIds := improvedPromptIds s in
             newImprovedIds ←
               match refinedPrompts result with
               | VArray items => forEach_refined items newImprovedIds
               | other => throw (Js.typeError E "forEach" other)
               end;
             update (setImprovedPromptIds newImprovedIds)
           else mret ())
          (λ e,
             let errorMessage :=
               message_or e "An unknown error occurred during script refinement." in
             update (setImprovingError (Some errorMessage))))
       (update (setIsImproving false))) w.

End Handlers.

(** **** handleSuggestedPromptClick *)

(** The updater passed to [setCustomPrompt]. *)
Definition handleSuggestedPromptClick (promptText : string) (prev : string) : string :=
  if bool_decide (JsString.trim prev = "") then promptText
  else JsString.trim prev +:+ LF +:+ promptText.

(** **** handleAnalyzeOutput *)




(** **** What the component renders from its cells *)

(** [generationStatus?.message || "Generating your custom script..."]. *)
Definition loadingMessage_of (s : AppState) : string :=
  match generationStatus s with
  | Some st => if JsString.truthy (message st) then message st
               else "Generating your custom script..."
  | None => "Generating your custom script..."
  end.

(** The [ScriptDisplay] of the generate tab. *)
Definition generateDisplay (s : AppState) : ScriptDisplay.Props := {|
  ScriptDisplay.script := generatedScript s;
  ScriptDisplay.isLoading := isLoading s;
  ScriptDisplay.error := error s;
  ScriptDisplay.loadingMessage := loadingMessage_of s;
  ScriptDisplay.currentStep := default 0 (currentStep <$> generationStatus s);
  ScriptDisplay.totalSteps := default 0 (totalSteps <$> generationStatus s);
  ScriptDisplay.placeholder := false;
  ScriptDisplay.isRebootRecommended := isRebootRecommended s;
|}.

(** The [ScriptDisplay] of the ShellCheck tab. *)
Definition shellcheckDisplay (s : AppState) : ScriptDisplay.Props := {|
  ScriptDisplay.script := improvedScript s;
  ScriptDisplay.isLoading := isImproving s;
  ScriptDisplay.error := improvingError s;
  ScriptDisplay.loadingMessage := "Refining script...";
  ScriptDisplay.currentStep := 0;
  ScriptDisplay.totalSteps := 0;
  ScriptDisplay.placeholder := false;
  ScriptDisplay.isRebootRecommended := false;
|}.


End App.

(** ** A reference engine *)

(** One concrete [Engine], to run the program on examples: a JSON parser for
    the grammar of ECMA-404 over the model's alphabet (an escape above
    [\u00ff] names a code unit the model does not have and is rejected),
    [StringToNumber] for decimal literals and [Infinity], and the outcome of
    [ToPrimitive] on the arrays and plain objects [JSON.parse] builds. *)
Module Reference.

Fixpoint skip_ws (s : string) : string :=
  match s with
  | String c s' =>
      match c with
      | " " | "009" | "010" | "013" => skip_ws s'
      | _ => s
      end%char
  | EmptyString => s
  end.

(** The longest prefix of decimal digits, most significant first. *)
Fixpoint digits (s : string) : list nat * string :=
  match s with
  | String c s' =>
      match Ascii.is_nat c with
      | Some d => let '(ds, r) := digits s' in (d :: ds, r)
      | None => ([], s)
      end
  | EmptyString => ([], s)
  end.

Definition nat_of_digits (ds : list nat) : nat :=
  fold_left (λ acc d, 10 * acc + d) ds 0.

Definition pow10 (e : Z) : Q :=
  if (0 <=? e)%Z then inject_Z (10 ^ e) else / inject_Z (10 ^ (- e)).

(** [[eE][+-]?digits]; [None] when an exponent starts but has no digit. *)
Definition exponent (s : string) : option (Z * string) :=
  match s with
  | String c r =>
      if bool_decide (c = "e"%char ∨ c = "E"%char) then
        let '(neg, r) :=
          match r with
          | String "-" r' => (true, r')
          | String "+" r' => (false, r')
          | _ => (false, r)
          end in
        match digits r with
        | ([], _) => None
        | (ds, r') =>
            let e := Z.of_nat (nat_of_digits ds) in
            Some (if neg : bool then (- e)%Z else e, r')
        end
      else Some (0%Z, s)
  | EmptyString => Some (0%Z, s)
  end.

Definition decimal (ip fp : list nat) (e : Z) : Q :=
  Qred ((inject_Z (Z.of_nat (nat_of_digits (ip ++ fp))))
        * pow10 (e - Z.of_nat (length fp))).

(** A JSON number: an optional minus sign; an integer part without a
    superfluous leading zero; an optional fraction with at least one
    digit; an optional exponent. *)
Definition parse_number (s : string) : option (Q * string) :=
  let '(neg, s) :=
    match s with
    | String "-" r => (true, r)
    | _ => (false, s)
    end in
  match digits s with
  | ([], _) => None
  | (ip, r) =>
      if bool_decide (1 < length ip ∧ head ip = Some 0) then None
      else
        fp_r ←
          match r with
          | String "." r' =>
              match digits r' with
              | ([], _) => None
              | (fp, r'') => Some (fp, r'')
              end
          | _ => Some ([], r)
          end;
        '(e, r) ← exponent fp_r.2;
        let q := decimal ip fp_r.1 e in
        Some (if neg : bool then Qopp q else q, r)
  end.

Definition hex_digit (c : ascii) : option nat :=
  let n := nat_of_ascii c in
  if (48 <=? n) && (n <=? 57) then Some (n - 48)
  else if (97 <=? n) && (n <=? 102) then Some (n - 87)
  else if (65 <=? n) && (n <=? 70) then Some (n - 55)
  else None.

(** The characters of a JSON string after its opening quote, up to and
    including the closing quote. *)
Fixpoint parse_chars (s : string) : option (string * string) :=
  match s with
  | EmptyString => None
  | String c r =>
      if decide (c = "034"%char) then Some (EmptyString, r)
      else if decide (c = "\"%char) then
        match r with
        | String e r' =>
            let escaped (c' : ascii) :=
              '(t, k) ← parse_chars r'; Some (String c' t, k) in
            match e with
            | "034" => escaped "034"
            | "\" => escaped "\"
            | "/" => escaped "/"
            | "b" => escaped "008"
            | "f" => escaped "012"
            | "n" => escaped "010"
            | "r" => escaped "013"
            | "t" => escaped "009"
            | "u" =>
                match r' with
                | String h1 (String h2 (String h3 (String h4 r''))) =>
                    a ← hex_digit h1; b ← hex_digit h2;
                    c ← hex_digit h3; d ← hex_digit h4;
                    if bool_decide (a = 0 ∧ b = 0) then
                      '(t, k) ← parse_chars r'';
                      Some (String (ascii_of_nat (16 * c + d)) t, k)
                    else None
                | _ => None
                end
            | _ => None
            end%char
        | EmptyString => None
        end
      else if (nat_of_ascii c <? 32) then None
      else '(t, k) ← parse_chars r; Some (String c t, k)
  end.

(** The three mutually recursive productions; [fuel] bounds the depth of
    the descent and each step consumes input. *)
Fixpoint parse_value (fuel : nat) (s : string) : option (value * string) :=
  match fuel with
  | O => None
  | S fuel =>
      match skip_ws s with
      | EmptyString => None
      | String c r =>
          if decide (c = "{"%char) then
            match skip_ws r with
            | String "}" r' => Some (VObject [], r')
            | _ => '(fs, r') ← parse_members fuel [] r; Some (VObject fs, r')
            end
          else if decide (c = "["%char) then
            match skip_ws r with
            | String "]" r' => Some (VArray [], r')
            | _ => '(vs, r') ← parse_elements fuel r; Some (VArray vs, r')
            end
          else if decide (c = "034"%char) then
            '(t, r') ← parse_chars r; Some (VString t, r')
          else
            match JsString.strip_prefix "true" (String c r),
                  JsString.strip_prefix "false" (String c r),
                  JsString.strip_prefix "null" (String c r) with
            | Some r', _, _ => Some (VBool true, r')
            | _, Some r', _ => Some (VBool false, r')
            | _, _, Some r' => Some (VNull, r')
            | _, _, _ =>
                '(q, r') ← parse_number (String c r); Some (VNumber (Fin q), r')
            end
      end
  end
with parse_elements (fuel : nat) (s : string) : option (list value * string) :=
  match fuel with
  | O => None
  | S fuel =>
      '(v, r) ← parse_value fuel s;
      match skip_ws r with
      | String "," r' => '(vs, k) ← parse_elements fuel r'; Some (v :: vs, k)
      | String "]" r' => Some ([v], r')
      | _ => None
      end
  end
with parse_members (fuel : nat) (acc : list (string * value)) (s : string)
    : option (list (string * value) * string) :=
  match fuel with
  | O => None
  | S fuel =>
      match skip_ws s with
      | String "034" r =>
          '(key, r) ← parse_chars r;
          match skip_ws r with
          | String ":" r =>
              '(v, r) ← parse_value fuel r;
              (* a repeated key keeps its place and takes the later value *)
              let acc := JsMap.set acc key v in
              match skip_ws r with
              | String "," r' => parse_members fuel acc r'
              | String "}" r' => Some (acc, r')
              | _ => None
              end
          | _ => None
          end
      | _ => None
      end
  end.

Definition JSON_parse (text : string) : option value :=
  '(v, r) ← parse_value (2 * String.length text + 2) text;
  if decide (skip_ws r = "") then Some v else None.

(** [StringToNumber]: white space is trimmed; the empty string is 0; then
    an optionally signed [Infinity] or decimal literal; anything else,
    [NaN].  (Radix-prefixed integers are not covered.) *)
Definition StringToNumber (s : string) : number :=
  let t := JsString.trim s in
  if decide (t = "") then Fin 0
  else
    let '(neg, u) :=
      match t with
      | String "-" r => (true, r)
      | String "+" r => (false, r)
      | _ => (false, t)
      end in
    if decide (u = "Infinity") then (if neg : bool then NegInf else PosInf)
    else
      let '(ip, r) := digits u in
      let '(fp, r) :=
        match r with
        | String "." r' => digits r'
        | _ => ([], r)
        end in
      if bool_decide (ip = [] ∧ fp = []) then NaN
      else
        match exponent r with
        | Some (e, EmptyString) =>
            let q := decimal ip fp e in
            Fin (if neg then Qopp q else q)
        | _ => NaN
        end.

(** Whether converting [v] to a primitive throws: an object fails when an
    own [toString] property (never callable after [JSON.parse]) shadows the
    inherited method; an array fails when [join] meets such an element. *)
Fixpoint to_primitive_throws (v : value) : bool :=
  match v with
  | VObject fields => bool_decide ("toString" ∈ fields.*1)
  | VArray items => existsb to_primitive_throws items
  | _ => false
  end.

(** [StringToNumber] of the string an array or object converts to:
    [[object Object]] for an object; for an array the [join] of its
    elements, which holds a comma as soon as there are two. *)
Fixpoint number_of_join (v : value) : number :=
  match v with
  | VArray [] => Fin 0
  | VArray [x] =>
      match x with
      | VUndefined | VNull => Fin 0
      | VNumber n => n
      | VString s => StringToNumber s
      | VArray _ => number_of_join x
      | VBool _ | VObject _ => NaN
      end
  | _ => NaN
  end.

Definition ObjectToNumber (v : value) : option number :=
  if to_primitive_throws v then None else Some (number_of_join v).

Definition TypeError_message (p : string) (v : value) : string :=
  "Cannot use property '" +:+ p +:+ "' of this value".

Definition engine : Engine :=
  Build_Engine JSON_parse StringToNumber ObjectToNumber TypeError_message.

End Reference.

(** * Verification *)

(** What follows proves, or refutes on an input, what the specification says
    of the definitions above. *)

Import App.

(** ** Fence cleaning *)

Section StringFacts.

Import JsString.

Lemma strip_prefix_length p s r :
  strip_prefix p s = Some r → String.length s = String.length p + String.length r.
Proof.
  revert s; induction p as [|a p IH]; intros [|b s] H; simplify_eq/=; try done.
  case_decide; [|done]. by rewrite (IH _ H).
Qed.

Lemma strip_suffix_length p s r :
  strip_suffix p s = Some r → String.length s = String.length r + String.length p.
Proof.
  revert r; induction s as [|c s IH]; intros r H; simpl in H.
  - case_decide; simplify_eq/=; done.
  - case_decide as Hd; simplify_eq/=; [done|].
    destruct (strip_suffix p s) as [t|] eqn:Ht; simplify_eq/=.
    by rewrite (IH _ eq_refl).
Qed.

Lemma trimStart_length s : String.length (trimStart s) ≤ String.length s.
Proof. induction s as [|c s IH]; simpl; [done|]. destruct (isWhiteSpace c); simpl; lia. Qed.

Lemma trimEnd_length s : String.length (trimEnd s) ≤ String.length s.
Proof.
  induction s as [|c s IH]; simpl; [done|].
  destruct (trimEnd s); simpl in *; [destruct (isWhiteSpace c); simpl; lia | lia].
Qed.

Lemma trim_length s : String.length (trim s) ≤ String.length s.
Proof. unfold trim. etrans; [apply trimEnd_length | apply trimStart_length]. Qed.

(** A string with no white space at either end. *)
Definition trimmed (s : string) : Prop := trim s = s.

Lemma trimEnd_idemp s : trimEnd (trimEnd s) = trimEnd s.
Proof.
  induction s as [|c s IH]; simpl; [done|].
  destruct (trimEnd s) as [|d t] eqn:Ht.
  - destruct (isWhiteSpace c) eqn:Hc; simpl; [done | by rewrite Hc].
  - simpl in IH. simpl. by rewrite IH.
Qed.

Lemma trimStart_head c s : isWhiteSpace c = false → trimStart (String c s) = String c s.
Proof. intros H. simpl. by rewrite H. Qed.

Lemma trimEnd_head c s :
  isWhiteSpace c = false → ∃ t, trimEnd (String c s) = String c t.
Proof.
  intros H. simpl. destruct (trimEnd s); [rewrite H|]; eauto.
Qed.

Lemma trimStart_cases s :
  trimStart s = EmptyString ∨ ∃ c t, trimStart s = String c t ∧ isWhiteSpace c = false.
Proof.
  induction s as [|c s IH]; simpl; [by left|].
  destruct (isWhiteSpace c) eqn:Hc; [done|]. right; eauto.
Qed.

Lemma trim_idemp s : trim (trim s) = trim s.
Proof.
  unfold trim. destruct (trimStart_cases s) as [->|(c & t & -> & Hc)]; [done|].
  destruct (trimEnd_head c t Hc) as [u Hu]. rewrite Hu.
  rewrite (trimStart_head _ _ Hc), <-Hu. apply trimEnd_idemp.
Qed.

End StringFacts.

Lemma startsWith_false s p :
  JsString.startsWith s p = false → JsString.strip_prefix p s = None.
Proof.
  unfold JsString.startsWith. intros H%bool_decide_eq_false.
  destruct (JsString.strip_prefix p s); [|done]. by destruct H.
Qed.

Lemma endsWith_false s p :
  JsString.endsWith s p = false → JsString.strip_suffix p s = None.
Proof.
  unfold JsString.endsWith. intros H%bool_decide_eq_false.
  destruct (JsString.strip_suffix p s); [|done]. by destruct H.
Qed.

Lemma leading_fence_rest_length r :
  String.length
    (JsString.trimStart
       match JsString.strip_prefix "bash" r with
       | Some t => t
       | None => match JsString.strip_prefix "sh" r with
                 | Some t => t
                 | None => r
                 end
       end) ≤ String.length r.
Proof.
  etrans; [apply trimStart_length|].
  destruct (JsString.strip_prefix "bash" r) as [t|] eqn:Ht.
  { apply strip_prefix_length in Ht. lia. }
  destruct (JsString.strip_prefix "sh" r) as [t|] eqn:Ht2.
  { apply strip_prefix_length in Ht2. lia. }
  done.
Qed.

Lemma replace_leading_fence_length s :
  String.length (replace_leading_fence s) ≤ String.length s.
Proof.
  unfold replace_leading_fence.
  destruct (JsString.strip_prefix "```" s) as [r|] eqn:Hr; [|done].
  apply strip_prefix_length in Hr.
  pose proof (leading_fence_rest_length r). lia.
Qed.

Lemma replace_leading_fence_shorter s :
  JsString.startsWith s "```" = true →
  String.length (replace_leading_fence s) < String.length s.
Proof.
  unfold JsString.startsWith, replace_leading_fence.
  intros [r Hr]%bool_decide_eq_true. rewrite Hr.
  apply strip_prefix_length in Hr.
  pose proof (leading_fence_rest_length r).
  change (String.length "```") with 3 in Hr. lia.
Qed.

Lemma replace_trailing_fence_length s :
  String.length (replace_trailing_fence s) ≤ String.length s.
Proof.
  unfold replace_trailing_fence.
  destruct (JsString.strip_suffix "```" s) as [r|] eqn:Hr; [|done].
  apply strip_suffix_length in Hr. lia.
Qed.

Lemma replace_trailing_fence_shorter s :
  JsString.endsWith s "```" = true →
  String.length (replace_trailing_fence s) < String.length s.
Proof.
  unfold JsString.endsWith, replace_trailing_fence.
  intros [r Hr]%bool_decide_eq_true. rewrite Hr.
  apply strip_suffix_length in Hr.
  change (String.length "```") with 3 in Hr. lia.
Qed.

Lemma cleanScriptOutput_length s :
  String.length (cleanScriptOutput s) ≤ String.length s.
Proof.
  unfold cleanScriptOutput.
  etrans; [apply trim_length|].
  etrans; [apply replace_trailing_fence_length|].
  apply replace_leading_fence_length.
Qed.

(** Cleaning leaves a trimmed text as it is exactly when the text carries no
    fence at either end. *)
Lemma cleanScriptOutput_fixpoint y :
  trimmed y →
  cleanScriptOutput y = y ↔
  JsString.startsWith y "```" = false ∧ JsString.endsWith y "```" = false.
Proof.
  intros Hy. split.
  - intros Heq.
    assert (String.length (cleanScriptOutput y) = String.length y) as Hlen
      by by rewrite Heq.
    unfold cleanScriptOutput in Hlen.
    pose proof (trim_length (replace_trailing_fence (replace_leading_fence y))).
    pose proof (replace_trailing_fence_length (replace_leading_fence y)).
    pose proof (replace_leading_fence_length y).
    destruct (JsString.startsWith y "```") eqn:Hs.
    { pose proof (replace_leading_fence_shorter y Hs). lia. }
    split; [done|].
    destruct (JsString.endsWith y "```") eqn:He; [|done].
    assert (replace_leading_fence y = y) as Hl.
    { unfold replace_leading_fence. by rewrite (startsWith_false _ _ Hs). }
    rewrite Hl in *.
    pose proof (replace_trailing_fence_shorter y He). lia.
  - intros [Hs He]. unfold cleanScriptOutput, replace_leading_fence.
    rewrite (startsWith_false _ _ Hs). unfold replace_trailing_fence.
    by rewrite (endsWith_false _ _ He).
Qed.

Lemma cleanScriptOutput_trimmed x : trimmed (cleanScriptOutput x).
Proof. unfold trimmed, cleanScriptOutput. apply trim_idemp. Qed.

(** The claim as the specification words it. *)
Definition clean_idempotent_at (x : string) : Prop :=
  cleanScriptOutput (cleanScriptOutput x) = cleanScriptOutput x.

Definition fenced_foo : string := "```bash" +:+ LF +:+ "foo" +:+ LF +:+ "```".

(** C5, amended.  Cleaning strips one fence from each end: a second cleaning
    changes nothing exactly when the cleaned text neither starts nor ends
    with a fence of three backticks; and the fenced text
    [```bash\nfoo\n```] cleans to exactly [foo]. *)
Theorem cleanScriptOutput_idempotent_iff :
  (∀ x,
     clean_idempotent_at x ↔
     JsString.startsWith (cleanScriptOutput x) "```" = false
     ∧ JsString.endsWith (cleanScriptOutput x) "```" = false)
  ∧ cleanScriptOutput fenced_foo = "foo".
Proof.
  split; [|reflexivity].
  intros x. apply cleanScriptOutput_fixpoint, cleanScriptOutput_trimmed.
Qed.

(** C5, as stated, fails: white space before the opening fence hides it from
    the first cleaning, and the second cleaning removes it. *)
Lemma cleanScriptOutput_not_idempotent :
  cleanScriptOutput (" " +:+ fenced_foo) = "```bash" +:+ LF +:+ "foo"
  ∧ cleanScriptOutput (cleanScriptOutput (" " +:+ fenced_foo)) = "foo"
  ∧ ¬ clean_idempotent_at (" " +:+ fenced_foo).
Proof.
  split_and!; [reflexivity..|]. unfold clean_idempotent_at. vm_compute. discriminate.
Qed.

(** ** The gateway's structured operations *)

Definition genericApiError (context : string) : thrown :=
  ThrownError ("An unexpected API error occurred during " +:+ context
               +:+ ". Check the console for details.").

Definition analysisMalformed : thrown :=
  ThrownError "Invalid Response: The analysis data from the API was malformed and could not be parsed.".

Definition improvementMalformed : thrown :=
  ThrownError "Invalid Response: The script improvement data from the API was malformed and could not be parsed.".

(** The classifier files both malformed-response errors under the generic
    kind: their messages hold none of its key phrases. *)
Lemma handleApiError_malformed context :
  handleApiError analysisMalformed context = genericApiError context
  ∧ handleApiError improvementMalformed context = genericApiError context.
Proof. split; reflexivity. Qed.

(** C1 (defect).  When the remote call succeeds and its text is not JSON,
    [analyzeScriptOutput] and [runShellcheckAndLearn] raise the malformed
    response error inside the [try] block whose [catch] reclassifies every
    error; what the caller receives is the generic API error, whose message
    does not begin with [Invalid Response:]. *)
Theorem malformed_response_surfaces_as_generic_error
    (E : Engine) (API_KEY : Env) (remote : Remote) (text : string) :
  key_missing API_KEY = false →
  JSON_parse E text = None →
  (∀ output,
     remote (AnalysisPrompt output) = Resolved text →
     analyzeScriptOutput E API_KEY remote output
     = Throw (genericApiError "output analysis"))
  ∧ (∀ script opts,
     remote (ImprovementPrompt script ((λ opt, (id opt, prompt opt)) <$> opts))
     = Resolved text →
     runShellcheckAndLearn E API_KEY remote script opts
     = Throw (genericApiError "script improvement")).
Proof.
  intros Hkey Hparse. split.
  - intros output Hr. unfold analyzeScriptOutput.
    rewrite Hkey, Hr. simpl. unfold JSON_parse_or_throw. rewrite Hparse.
    reflexivity.
  - intros script opts Hr. unfold runShellcheckAndLearn.
    rewrite Hkey, Hr. simpl. unfold JSON_parse_or_throw. rewrite Hparse.
    reflexivity.
Qed.

Definition not_json : string := "This is not a valid JSON.".

Lemma malformed_response_witness :
  analyzeScriptOutput Reference.engine (Some "test-api-key")
    (λ _, Resolved not_json) "..."
  = Throw (genericApiError "output analysis")
  ∧ runShellcheckAndLearn Reference.engine (Some "test-api-key")
      (λ _, Resolved not_json) "script" []
    = Throw (genericApiError "script improvement").
Proof.
  destruct (malformed_response_surfaces_as_generic_error
              Reference.engine (Some "test-api-key") (λ _, Resolved not_json)
              not_json eq_refl eq_refl) as [Ha Hi].
  split; [apply Ha | apply Hi]; reflexivity.
Defined.

(** *** The security score *)

(** A number between 0 and 100, bounds included. *)
Definition score_in_range (v : value) : Prop :=
  ∃ q, v = VNumber (Fin q) ∧ (0 <= q)%Q ∧ (q <= 100)%Q.

Definition clamp (n : number) : number :=
  Js.number_max (Fin 0) (Js.number_min (Fin 100) n).

Lemma clamp_in_range n : n ≠ NaN → score_in_range (VNumber (clamp n)).
Proof.
  intros Hn. destruct n as [| | |q]; [done|..].
  - exists 100%Q. by vm_compute.
  - exists 0%Q. by vm_compute.
  - unfold clamp, Js.number_min. cbn [Js.number_lt].
    destruct (Qle_bool 100 q) eqn:H100; cbn [negb].
    + exists 100%Q. by vm_compute.
    + unfold Js.number_max. cbn [Js.number_lt].
      destruct (Qle_bool q 0) eqn:H0; cbn [negb].
      * exists 0%Q. by vm_compute.
      * exists q. split; [done|].
        assert (¬ (100 <= q)%Q) by (rewrite <-Qle_bool_iff; congruence).
        assert (¬ (q <= 0)%Q) by (rewrite <-Qle_bool_iff; congruence).
        split; apply Qlt_le_weak, Qnot_le_lt; done.
Qed.

Lemma score_kept_in_range n :
  score_needs_clamping (VNumber n) = false → n ≠ NaN →
  score_in_range (VNumber n).
Proof.
  intros Hc Hn. destruct n as [| | |q]; try done.
  simpl in Hc. apply orb_false_elim in Hc as [H0 H100].
  apply negb_false_iff, Qle_bool_iff in H0, H100. by exists q.
Qed.

(** The part of the clamping rule that holds: a score that is absent,
    [null], a boolean or a number ends between 0 and 100. *)
Lemma analyze_score_in_range (E : Engine) API_KEY remote output text doc r :
  remote (AnalysisPrompt output) = Resolved text →
  JSON_parse E text = Some doc →
  analyzeScriptOutput E API_KEY remote output = Ok r →
  match Js.get E doc "securityScore" with
  | Ok (VUndefined | VNull | VBool _) => True
  | Ok (VNumber n) => n ≠ NaN
  | _ => False
  end →
  score_in_range (securityScore r).
Proof.
  intros Hr Hp. unfold analyzeScriptOutput.
  destruct (key_missing API_KEY); [done|].
  rewrite Hr. simpl. unfold JSON_parse_or_throw. rewrite Hp. simpl.
  destruct (Js.get E doc "securityScore") as [s|] eqn:Hs; [|done]. simpl.
  intros Hrun Hshape.
  destruct s as [| |b|n| | |]; try done.
  - simpl in Hrun. destruct (Js.put_allowed E doc "securityScore"); [|done].
    simpl in Hrun. destruct (Js.get E doc "analysisText"); simplify_eq/=.
    exists 0%Q. by vm_compute.
  - simpl in Hrun. destruct (Js.put_allowed E doc "securityScore"); [|done].
    simpl in Hrun. destruct (Js.get E doc "analysisText"); simplify_eq/=.
    exists 0%Q. by vm_compute.
  - destruct b; simpl in Hrun;
      (destruct (Js.put_allowed E doc "securityScore"); [|done]);
      simpl in Hrun; destruct (Js.get E doc "analysisText"); simplify_eq/=.
    + exists 1%Q. by vm_compute.
    + exists 0%Q. by vm_compute.
  - destruct (score_needs_clamping (VNumber n)) eqn:Hc.
    + assert (Js.ToNumber E (Js.or (VNumber n) (VNumber (Fin 0))) = Ok n
              ∨ Js.or (VNumber n) (VNumber (Fin 0)) = VNumber (Fin 0)) as Hor.
      { unfold Js.or. destruct (Js.truthy (VNumber n)); [by left | by right]. }
      destruct Hor as [Hor|Hor].
      * rewrite Hor in Hrun. simpl in Hrun.
        destruct (Js.put_allowed E doc "securityScore"); [|done].
        simpl in Hrun. destruct (Js.get E doc "analysisText"); simplify_eq/=.
        by apply clamp_in_range.
      * rewrite Hor in Hrun. simpl in Hrun.
        destruct (Js.put_allowed E doc "securityScore"); [|done].
        simpl in Hrun. destruct (Js.get E doc "analysisText"); simplify_eq/=.
        exists 0%Q. by vm_compute.
    + simpl in Hrun. destruct (Js.get E doc "analysisText"); simplify_eq/=.
      by apply score_kept_in_range.
Qed.

Definition score_150 : string :=
  "{" +:+ QUOTE +:+ "analysisText" +:+ QUOTE +:+ ":" +:+ QUOTE +:+ "Perfect!" +:+ QUOTE
  +:+ "," +:+ QUOTE +:+ "securityScore" +:+ QUOTE +:+ ":150}".

Definition score_minus_10 : string :=
  "{" +:+ QUOTE +:+ "analysisText" +:+ QUOTE +:+ ":" +:+ QUOTE +:+ "Something is wrong" +:+ QUOTE
  +:+ "," +:+ QUOTE +:+ "securityScore" +:+ QUOTE +:+ ":-10}".

Definition score_missing : string :=
  "{" +:+ QUOTE +:+ "analysisText" +:+ QUOTE +:+ ":" +:+ QUOTE +:+ "ok" +:+ QUOTE +:+ "}".

Definition score_high : string :=
  "{" +:+ QUOTE +:+ "analysisText" +:+ QUOTE +:+ ":" +:+ QUOTE +:+ "ok" +:+ QUOTE
  +:+ "," +:+ QUOTE +:+ "securityScore" +:+ QUOTE +:+ ":" +:+ QUOTE +:+ "high" +:+ QUOTE +:+ "}".

Definition analyze_reply (text : string) : Result AnalysisResult :=
  analyzeScriptOutput Reference.engine (Some "test-api-key") (λ _, Resolved text) "...".

(** The three scores the specification names. *)
Lemma analyze_named_scores :
  securityScore <$> analyze_reply score_150 = Ok (VNumber (Fin 100))
  ∧ securityScore <$> analyze_reply score_minus_10 = Ok (VNumber (Fin 0))
  ∧ securityScore <$> analyze_reply score_missing = Ok (VNumber (Fin 0)).
Proof. by vm_compute. Qed.

(** C6 (defect).  The response [{"analysisText":"ok","securityScore":"high"}]
    parses; its score is not a number, so the clamp runs on ["high" || 0],
    which is ["high"]; [Math.min(100, "high")] is [NaN] and so is the score
    of the result the call returns: not a number between 0 and 100. *)
Theorem analyze_score_of_text_is_NaN :
  analyze_reply score_high
  = Ok {| analysisText := VString "ok"; securityScore := VNumber NaN |}
  ∧ ¬ score_in_range (VNumber NaN).
Proof.
  split; [by vm_compute|]. by intros (q & ? & _).
Qed.

(** ** The selection engine *)

(** Induction on an option with the hypothesis for each of its
    sub-options. *)
Lemma option_nested_ind (P : HardeningOption → Prop) :
  (∀ o, (∀ subs, subOptions o = Some subs → Forall P subs) → P o) →
  ∀ o, P o.
Proof.
  intros IH. fix self 1. intros [i l d p [subs|] r]; apply IH; cbn.
  - intros ? [= <-]. induction subs as [|x subs IHs]; constructor;
      [apply self | apply IHs].
  - intros ? [=].
Qed.

(** The direct children of an option, and everything below it. *)
Definition kids (o : HardeningOption) : list HardeningOption :=
  default [] (subOptions o).

Definition descendants (o : HardeningOption) : list HardeningOption :=
  getAllOptionsRecursively (kids o).

Lemma option_and_descendants_eq o :
  option_and_descendants o = o :: descendants o.
Proof. destruct o as [? ? ? ? [subs|] ?]; reflexivity. Qed.

Lemma subOptions_kids o subs : subOptions o = Some subs → kids o = subs.
Proof. unfold kids. by intros ->. Qed.

Lemma bind_sublist {A B} (f : A → list B) l y :
  y ∈ l → f y `sublist_of` l ≫= f.
Proof.
  intros (l1 & l2 & ->)%list_elem_of_split.
  rewrite bind_app, bind_cons.
  apply sublist_inserts_l, sublist_inserts_r. done.
Qed.

Lemma option_and_descendants_sublist o P :
  P ∈ option_and_descendants o →
  option_and_descendants P `sublist_of` option_and_descendants o.
Proof.
  induction o as [o IH] using option_nested_ind. intros HP.
  rewrite (option_and_descendants_eq o) in HP |- *.
  apply elem_of_cons in HP as [->|HP].
  { by rewrite <-option_and_descendants_eq. }
  apply sublist_cons.
  unfold descendants, getAllOptionsRecursively in HP |- *.
  apply list_elem_of_bind in HP as (K & HP & HK).
  unfold kids in HK |- *.
  destruct (subOptions o) as [subs|] eqn:Hsubs; [|by apply elem_of_nil in HK].
  specialize (IH subs eq_refl). rewrite Forall_forall in IH.
  etrans; [apply (IH K HK HP)|]. by apply bind_sublist.
Qed.

Lemma getAllOptionsRecursively_sublist F P :
  P ∈ getAllOptionsRecursively F →
  option_and_descendants P `sublist_of` getAllOptionsRecursively F.
Proof.
  unfold getAllOptionsRecursively. intros (R & HP & HR)%list_elem_of_bind.
  etrans; [by apply option_and_descendants_sublist|]. by apply bind_sublist.
Qed.

Lemma kid_tree_in_descendants P K :
  K ∈ kids P → option_and_descendants K `sublist_of` descendants P.
Proof. intros HK. by apply bind_sublist. Qed.

Lemma kid_in_descendants P K : K ∈ kids P → K ∈ descendants P.
Proof.
  intros HK. eapply elem_of_sublist; [|by apply kid_tree_in_descendants].
  rewrite option_and_descendants_eq. by left.
Qed.

(** A child of an option of the forest is an option of the forest. *)
Lemma kid_in_forest F P K :
  P ∈ getAllOptionsRecursively F → K ∈ kids P → K ∈ getAllOptionsRecursively F.
Proof.
  intros HP HK. eapply elem_of_sublist; [|by apply getAllOptionsRecursively_sublist].
  rewrite option_and_descendants_eq. right. by apply kid_in_descendants.
Qed.

(** A child of an option at or below [X] lies below [X]. *)
Lemma kid_below X Q K :
  Q ∈ option_and_descendants X → K ∈ kids Q → K ∈ descendants X.
Proof.
  intros HQ HK. rewrite option_and_descendants_eq in HQ.
  apply elem_of_cons in HQ as [->|HQ]; [by apply kid_in_descendants|].
  by eapply kid_in_forest.
Qed.

(** Every option below [X] is the child of an option at or below [X]. *)
Lemma descendant_has_parent X D :
  D ∈ descendants X → ∃ Q, Q ∈ option_and_descendants X ∧ D ∈ kids Q.
Proof.
  induction X as [X IH] using option_nested_ind. intros HD.
  unfold descendants, getAllOptionsRecursively in HD.
  apply list_elem_of_bind in HD as (K & HD & HK).
  rewrite option_and_descendants_eq in HD. apply elem_of_cons in HD as [->|HD].
  { exists X. split; [|done]. rewrite option_and_descendants_eq. by left. }
  assert (K ∈ kids X) as HKX by done.
  unfold kids in HK.
  destruct (subOptions X) as [subs|] eqn:Hsubs; [|by apply elem_of_nil in HK].
  specialize (IH subs eq_refl). rewrite Forall_forall in IH.
  destruct (IH K HK HD) as (Q & HQ & HDQ). exists Q. split; [|done].
  rewrite (option_and_descendants_eq X). right.
  eapply elem_of_sublist; [exact HQ|]. by apply kid_tree_in_descendants.
Qed.

Lemma kid_weight P K :
  K ∈ kids P →
  length (option_and_descendants K) < length (option_and_descendants P).
Proof.
  intros HK%kid_tree_in_descendants%sublist_length.
  rewrite (option_and_descendants_eq P). simpl. lia.
Qed.

(** *** The lookup maps *)

Lemma JsMap_get_set {V} (m : JsMap.t V) k v k' :
  JsMap.get (JsMap.set m k v) k' = if decide (k = k') then Some v else JsMap.get m k'.
Proof.
  induction m as [|[k0 v0] m IH]; simpl.
  - by case_decide.
  - destruct (decide (k0 = k)) as [->|Hne]; simpl.
    + repeat case_decide; congruence.
    + rewrite IH. repeat case_decide; congruence.
Qed.

Section FoldSet.

Context {X V : Type} (key : X → string) (val : X → V).

Definition set_all (xs : list X) (m : JsMap.t V) : JsMap.t V :=
  fold_left (λ m x, JsMap.set m (key x) (val x)) xs m.

Lemma get_set_all_notin xs m k :
  k ∉ key <$> xs → JsMap.get (set_all xs m) k = JsMap.get m k.
Proof.
  revert m; induction xs as [|x xs IH]; intros m Hk; simpl; [done|].
  rewrite fmap_cons, not_elem_of_cons in Hk. destruct Hk as [Hne Hk].
  rewrite IH, JsMap_get_set by done. by rewrite decide_False.
Qed.

Lemma get_set_all_in xs m x :
  NoDup (key <$> xs) → x ∈ xs → JsMap.get (set_all xs m) (key x) = Some (val x).
Proof.
  revert m; induction xs as [|y xs IH]; intros m Hnd Hx; [by apply elem_of_nil in Hx|].
  rewrite fmap_cons, NoDup_cons in Hnd. destruct Hnd as [Hy Hnd].
  simpl. apply elem_of_cons in Hx as [->|Hx].
  - rewrite get_set_all_notin, JsMap_get_set by done. by rewrite decide_True.
  - by apply IH.
Qed.

Lemma get_set_all_Some xs k v :
  JsMap.get (set_all xs []) k = Some v → ∃ x, x ∈ xs ∧ key x = k ∧ val x = v.
Proof.
  assert (∀ m, JsMap.get (set_all xs m) k = Some v →
               JsMap.get m k = Some v ∨ ∃ x, x ∈ xs ∧ key x = k ∧ val x = v) as H.
  { induction xs as [|y xs IH]; intros m Hg; simpl in Hg; [by left|].
    destruct (IH _ Hg) as [Hm|(x & Hx & Hk & Hv)].
    - rewrite JsMap_get_set in Hm. case_decide; [|by left].
      right. exists y. split; [by left|]. split; congruence.
    - right. exists x. split; [by right|done]. }
  intros Hg. by destruct (H [] Hg) as [?|?].
Qed.

Lemma keys_set k (m : JsMap.t V) k' v :
  k ∈ JsMap.keys (JsMap.set m k' v) ↔ k ∈ JsMap.keys m ∨ k = k'.
Proof.
  unfold JsMap.keys. induction m as [|[k0 v0] m IH]; simpl.
  - rewrite list_elem_of_singleton, elem_of_nil. tauto.
  - destruct (decide (k0 = k')) as [->|Hne]; simpl; rewrite !elem_of_cons.
    + tauto.
    + rewrite IH. tauto.
Qed.

Lemma keys_set_all xs m k :
  k ∈ JsMap.keys (set_all xs m) ↔ k ∈ JsMap.keys m ∨ k ∈ key <$> xs.
Proof.
  revert m; induction xs as [|x xs IH]; intros m; simpl.
  - rewrite elem_of_nil. tauto.
  - rewrite IH, keys_set, elem_of_cons. tauto.
Qed.

End FoldSet.

(** The bindings [buildLookups] adds to [parentMap], in the order it adds
    them. *)
Fixpoint edges_option (parentId : option string) (o : HardeningOption)
    : list (string * string) :=
  match parentId_truthy parentId with
  | Some p => [(id o, p)]
  | None => []
  end ++
  match subOptions o with
  | Some subs => subs ≫= edges_option (Some (id o))
  | None => []
  end.

Definition lookups_spec (opts : list HardeningOption) (parentId : option string)
    (L : Lookups) : Lookups := {|
  idToOptionMap := set_all id (λ o, o) (getAllOptionsRecursively opts) (idToOptionMap L);
  parentMap := set_all fst snd (opts ≫= edges_option parentId) (parentMap L);
|}.

Lemma list_bind_nil {A B} (f : A → list B) : [] ≫= f = [].
Proof. reflexivity. Qed.

Lemma set_all_app {X V} (key : X → string) (val : X → V) xs ys m :
  set_all key val (xs ++ ys) m = set_all key val ys (set_all key val xs m).
Proof. apply fold_left_app. Qed.

Lemma buildLookups_option_spec o : ∀ parentId L,
  buildLookups_option parentId L o = lookups_spec [o] parentId L.
Proof.
  induction o as [o IH] using option_nested_ind. intros pid L.
  unfold lookups_spec, getAllOptionsRecursively.
  rewrite !bind_cons, !list_bind_nil, !app_nil_r.
  destruct o as [i l d p so r]. cbn [buildLookups_option option_and_descendants
    edges_option subOptions id idToOptionMap parentMap] in *.
  assert (∀ subs L0, Forall (λ o, ∀ pid L, buildLookups_option pid L o
                                           = lookups_spec [o] pid L) subs →
            fold_left (buildLookups_option (Some i)) subs L0
            = lookups_spec subs (Some i) L0) as Hfold.
  { clear. induction subs as [|x subs IHs]; intros L0 HF.
    - by destruct L0.
    - apply Forall_cons in HF as [Hx HF]. simpl. rewrite Hx, IHs by done.
      unfold lookups_spec, getAllOptionsRecursively. cbn [idToOptionMap parentMap].
      rewrite !bind_cons, !list_bind_nil, !app_nil_r, !set_all_app. done. }
  rewrite !set_all_app.
  destruct so as [subs|].
  - rewrite Hfold by (by apply IH). unfold lookups_spec, getAllOptionsRecursively.
    cbn [idToOptionMap parentMap]. destruct (parentId_truthy pid); done.
  - destruct (parentId_truthy pid); done.
Qed.

Lemma buildLookups_spec opts parentId L :
  buildLookups opts parentId L = lookups_spec opts parentId L.
Proof.
  unfold buildLookups. revert L; induction opts as [|o opts IH]; intros L.
  - by destruct L.
  - simpl. rewrite buildLookups_option_spec, IH.
    unfold lookups_spec, getAllOptionsRecursively. cbn [idToOptionMap parentMap].
    rewrite !bind_cons, !list_bind_nil, !app_nil_r, !set_all_app. done.
Qed.

(** The options of a catalog, roots first and each followed by what is below
    it: the order in which [buildLookups] meets them. *)
Definition catalog_options (levels : list ParanoiaLevel) : list HardeningOption :=
  getAllOptionsRecursively (levels ≫= options).

Definition catalog_edges (levels : list ParanoiaLevel) : list (string * string) :=
  (levels ≫= options) ≫= edges_option None.

Lemma lookups_of_spec levels :
  lookups_of levels = {|
    idToOptionMap := set_all id (λ o, o) (catalog_options levels) [];
    parentMap := set_all fst snd (catalog_edges levels) [];
  |}.
Proof.
  unfold lookups_of, catalog_options, catalog_edges.
  assert (∀ L, fold_left (λ L level, buildLookups (options level) None L) levels L
               = lookups_spec (levels ≫= options) None L) as H; [|by rewrite H].
  induction levels as [|lv levels IH]; intros L; [by destruct L|].
  simpl. rewrite IH, buildLookups_spec.
  unfold lookups_spec, getAllOptionsRecursively. cbn [idToOptionMap parentMap].
  rewrite ?bind_cons, !bind_app, !set_all_app. done.
Qed.

Lemma edges_option_eq parentId o :
  edges_option parentId o
  = match parentId_truthy parentId with Some p => [(id o, p)] | None => [] end
    ++ (kids o ≫= edges_option (Some (id o))).
Proof. destruct o as [? ? ? ? [subs|] ?]; reflexivity. Qed.

(** The keys of the edges are ids of the options, in the same order. *)
Lemma edges_option_keys o : ∀ parentId,
  (edges_option parentId o).*1 `sublist_of` id <$> option_and_descendants o.
Proof.
  induction o as [o IH] using option_nested_ind. intros pid.
  rewrite edges_option_eq, option_and_descendants_eq, fmap_app, fmap_cons.
  assert ((kids o ≫= edges_option (Some (id o))).*1
            `sublist_of` id <$> descendants o) as Hsub.
  { unfold descendants, getAllOptionsRecursively, kids.
    destruct (subOptions o) as [subs|]; [|done].
    specialize (IH subs eq_refl). simpl.
    induction IH as [|x subs Hx _ IHs]; [done|].
    rewrite !bind_cons, !fmap_app. by apply sublist_app. }
  destruct (parentId_truthy pid); simpl.
  - by apply sublist_skip.
  - by apply sublist_cons.
Qed.

Lemma forest_edges_keys F parentId :
  (F ≫= edges_option parentId).*1 `sublist_of` id <$> getAllOptionsRecursively F.
Proof.
  unfold getAllOptionsRecursively. induction F as [|o F IH]; [done|].
  rewrite !bind_cons, !fmap_app. apply sublist_app; [apply edges_option_keys|done].
Qed.

(** What the edges are: an option that has a parent with a non-empty id is
    bound to that id. *)
Lemma edges_option_elem c p o : ∀ parentId,
  (c, p) ∈ edges_option parentId o ↔
  (parentId_truthy parentId = Some p ∧ c = id o)
  ∨ ∃ P K, P ∈ option_and_descendants o ∧ K ∈ kids P ∧ c = id K
           ∧ parentId_truthy (Some (id P)) = Some p.
Proof.
  induction o as [o IH] using option_nested_ind. intros pid.
  rewrite edges_option_eq, elem_of_app.
  assert ((c, p) ∈ match parentId_truthy pid with Some p => [(id o, p)] | None => [] end
          ↔ parentId_truthy pid = Some p ∧ c = id o) as ->.
  { destruct (parentId_truthy pid).
    - rewrite list_elem_of_singleton. split; [by intros [= -> ->]|by intros [[= ->] ->]].
    - rewrite elem_of_nil. split; [done|by intros [? _]]. }
  assert (∀ K0, K0 ∈ kids o →
            ((c, p) ∈ edges_option (Some (id o)) K0 ↔
             (parentId_truthy (Some (id o)) = Some p ∧ c = id K0)
             ∨ ∃ P K, P ∈ option_and_descendants K0 ∧ K ∈ kids P ∧ c = id K
                      ∧ parentId_truthy (Some (id P)) = Some p)) as IH'.
  { intros K0 HK0. unfold kids in HK0.
    destruct (subOptions o) as [subs|]; [|by apply elem_of_nil in HK0].
    specialize (IH subs eq_refl). rewrite Forall_forall in IH. by apply IH. }
  clear IH. rewrite list_elem_of_bind. split.
  - intros [?|(K0 & HK0e & HK0)]; [by left|]. right.
    apply IH' in HK0e; [|done].
    destruct HK0e as [[Hp ->]|(P & K & HP & HK & -> & Hp)].
    + exists o, K0. split_and!; try done.
      rewrite option_and_descendants_eq. by left.
    + exists P, K. split_and!; try done.
      rewrite (option_and_descendants_eq o). right.
      eapply elem_of_sublist; [exact HP|]. by apply kid_tree_in_descendants.
  - intros [?|(P & K & HP & HK & -> & Hp)]; [by left|]. right.
    rewrite option_and_descendants_eq in HP. apply elem_of_cons in HP as [->|HP].
    + exists K. split; [|done]. apply IH'; [done|]. by left.
    + unfold descendants, getAllOptionsRecursively in HP.
      apply list_elem_of_bind in HP as (K0 & HP & HK0).
      exists K0. split; [|done]. apply IH'; [done|]. right. by exists P, K.
Qed.

Lemma forest_edges_elem c p F :
  (c, p) ∈ F ≫= edges_option None ↔
  ∃ P K, P ∈ getAllOptionsRecursively F ∧ K ∈ kids P ∧ c = id K
         ∧ parentId_truthy (Some (id P)) = Some p.
Proof.
  unfold getAllOptionsRecursively. rewrite list_elem_of_bind. split.
  - intros (R & [[[=] _]|(P & K & HP & ?)]%edges_option_elem & HR).
    exists P, K. split; [|done]. apply list_elem_of_bind. by exists R.
  - intros (P & K & (R & HP & HR)%list_elem_of_bind & ?).
    exists R. split; [|done]. apply edges_option_elem. right. by exists P, K.
Qed.




(** *** Catalogs with usable keys *)

(** Every id names one option, none is empty (an empty parent id fails the
    truthiness tests of [buildLookups] and of the upward loop) and none is
    [__proto__] (which plain objects cannot hold as a key). *)
Definition well_keyed (levels : list ParanoiaLevel) : Prop :=
  NoDup (id <$> catalog_options levels)
  ∧ ("" ∉ id <$> catalog_options levels)
  ∧ ("__proto__" ∉ id <$> catalog_options levels).

Section WellKeyed.

Variable levels : list ParanoiaLevel.
Hypothesis Hwf : well_keyed levels.

Let A := catalog_options levels.
Let L := lookups_of levels.

Lemma id_inj o o' : o ∈ A → o' ∈ A → id o = id o' → o = o'.
Proof.
  destruct Hwf as [Hnd _]. fold A in Hnd. clear Hwf. revert Hnd.
  induction A as [|x l IH]; intros Hnd Ho Ho' Heq; [by apply elem_of_nil in Ho|].
  rewrite fmap_cons, NoDup_cons in Hnd. destruct Hnd as [Hx Hnd].
  apply elem_of_cons in Ho as [->|Ho], Ho' as [->|Ho']; [done|..|by apply IH].
  - destruct Hx. rewrite Heq. by apply list_elem_of_fmap_2.
  - destruct Hx. rewrite <-Heq. by apply list_elem_of_fmap_2.
Qed.

Lemma id_truthy o : o ∈ A → parentId_truthy (Some (id o)) = Some (id o).
Proof.
  intros Ho. destruct Hwf as (_ & Hne & _). unfold parentId_truthy, JsString.truthy.
  rewrite bool_decide_eq_false_2; [done|].
  intros Heq. apply Hne. rewrite <-Heq. by apply list_elem_of_fmap_2.
Qed.

Lemma id_not_proto o : o ∈ A → id o ≠ "__proto__".
Proof.
  intros Ho Heq. destruct Hwf as (_ & _ & Hnp). apply Hnp.
  rewrite <-Heq. by apply list_elem_of_fmap_2.
Qed.

Lemma lookup_option o : o ∈ A → JsMap.get (idToOptionMap L) (id o) = Some o.
Proof.
  intros Ho. unfold L. rewrite lookups_of_spec. cbn [idToOptionMap].
  apply (get_set_all_in id (λ o, o)); [apply Hwf|done].
Qed.


Lemma edges_keys_NoDup : NoDup (catalog_edges levels).*1.
Proof.
  eapply sublist_NoDup; [apply Hwf|]. apply forest_edges_keys.
Qed.

Lemma lookup_parent P K :
  P ∈ A → K ∈ kids P → JsMap.get (parentMap L) (id K) = Some (id P).
Proof.
  intros HP HK. unfold L. rewrite lookups_of_spec. cbn [parentMap].
  apply (get_set_all_in fst snd _ _ (id K, id P)); [apply edges_keys_NoDup|].
  apply forest_edges_elem. exists P, K. split_and!; try done. by apply id_truthy.
Qed.

Lemma lookup_parent_Some c p :
  JsMap.get (parentMap L) c = Some p →
  ∃ P K, P ∈ A ∧ K ∈ kids P ∧ c = id K ∧ p = id P.
Proof.
  unfold L. rewrite lookups_of_spec. cbn [parentMap].
  intros ([c' p'] & Hin & <- & <-)%get_set_all_Some.
  apply forest_edges_elem in Hin as (P & K & HP & HK & -> & Hp).
  exists P, K. split_and!; try done. rewrite id_truthy in Hp by done. by injection Hp.
Qed.

(** An option has at most one parent. *)
Lemma parent_unique Q Q' K : Q ∈ A → Q' ∈ A → K ∈ kids Q → K ∈ kids Q' → Q = Q'.
Proof.
  intros HQ HQ' HK HK'. apply id_inj; [done..|].
  pose proof (lookup_parent Q K HQ HK) as H1.
  pose proof (lookup_parent Q' K HQ' HK') as H2. congruence.
Qed.

(** An option is not below itself. *)
Lemma id_not_below P D : P ∈ A → D ∈ descendants P → id D ≠ id P.
Proof.
  intros HP HD Heq.
  pose proof (getAllOptionsRecursively_sublist _ _ HP) as Hsub.
  apply (fmap_sublist id) in Hsub. apply sublist_NoDup in Hsub; [|apply Hwf].
  rewrite option_and_descendants_eq, fmap_cons, NoDup_cons in Hsub.
  destruct Hsub as [Hnotin _]. apply Hnotin. rewrite <-Heq. by apply list_elem_of_fmap_2.
Qed.


(** *** The selection state *)

Lemma JsObject_get_set sel k b j :
  k ≠ "__proto__" →
  JsObject.get (JsObject.set sel k b) j = if decide (k = j) then b else JsObject.get sel j.
Proof.
  intros Hk. unfold JsObject.set, JsObject.get. rewrite decide_False by done.
  case_decide as Hkj.
  - subst. by rewrite lookup_insert_eq.
  - by rewrite lookup_insert_ne.
Qed.

Lemma JsObject_get_set_ne sel k b j :
  k ≠ j → JsObject.get (JsObject.set sel k b) j = JsObject.get sel j.
Proof.
  intros Hkj. unfold JsObject.set, JsObject.get. case_decide; [done|].
  by rewrite lookup_insert_ne.
Qed.

(** Step 2 of the handler writes [b] under the given options and nothing
    else. *)
Lemma set_descendants sel b (ds : list HardeningOption) j :
  Forall (λ d, id d ≠ "__proto__") ds →
  JsObject.get (fold_left (λ acc d, JsObject.set acc (id d) b) ds sel) j
  = if decide (j ∈ id <$> ds) then b else JsObject.get sel j.
Proof.
  revert sel; induction ds as [|d ds IH]; intros sel Hds.
  - cbn [fold_left]. case_decide as Hin; [by apply elem_of_nil in Hin|done].
  - apply Forall_cons in Hds as [Hd Hds]. cbn [fold_left]. rewrite IH by done.
    rewrite JsObject_get_set by done. rewrite fmap_cons.
    destruct (decide (j ∈ id <$> ds)) as [Hin|Hnotin].
    + rewrite decide_True; [done|by right].
    + destruct (decide (id d = j)) as [<-|Hne].
      * rewrite decide_True; [done|by left].
      * rewrite decide_False; [done|]. rewrite not_elem_of_cons. split; [congruence|done].
Qed.

(** Whether the box of an option is ticked. *)
Definition selected (sel : gmap string bool) (o : HardeningOption) : bool :=
  JsObject.get sel (id o).

(** An interior option is closed when it is ticked exactly if all its
    children are. *)
Definition closed_at (sel : gmap string bool) (P : HardeningOption) : Prop :=
  kids P ≠ [] → selected sel P = forallb (selected sel) (kids P).

Definition tri_state (opts : list HardeningOption) (sel : gmap string bool) : Prop :=
  ∀ P, P ∈ opts → closed_at sel P.

Lemma forallb_ext_in {X} (f g : X → bool) l :
  (∀ x, x ∈ l → f x = g x) → forallb f l = forallb g l.
Proof.
  induction l as [|x l IH]; intros H; simpl; [done|].
  rewrite H by (by left). rewrite IH; [done|]. intros y Hy. apply H. by right.
Qed.

Lemma forallb_const_in {X} (f : X → bool) b l :
  l ≠ [] → (∀ x, x ∈ l → f x = b) → forallb f l = b.
Proof.
  induction l as [|x l IH]; intros Hne H; [done|]. simpl.
  rewrite H by (by left). destruct b; [|done]. simpl.
  destruct l as [|y l]; [done|]. apply IH; [done|]. intros z Hz. apply H. by right.
Qed.

Lemma forallb_false_in {X} (f : X → bool) l x :
  x ∈ l → f x = false → forallb f l = false.
Proof.
  intros Hx Hf. apply not_true_is_false. intros Hall.
  rewrite forallb_forall in Hall. apply list_elem_of_In in Hx.
  specialize (Hall _ Hx). congruence.
Qed.

(** Step 3: the upward loop.  It starts below an option [C] whose parent is
    the only option that may not be closed, and closes every option. *)
Lemma propagate_up_closes b : ∀ fuel C sel,
  C ∈ A →
  length A < fuel + length (option_and_descendants C) →
  (∀ Q, Q ∈ A → C ∉ kids Q → closed_at sel Q) →
  (b = false → selected sel C = false) →
  ∃ sel', propagate_up L b fuel sel (JsMap.get (parentMap L) (id C)) = Some sel'
          ∧ tri_state A sel'.
Proof.
  induction fuel as [|fuel IH]; intros C sel HC Hfuel Hclosed Hoff.
  { apply getAllOptionsRecursively_sublist, sublist_length in HC.
    fold (catalog_options levels) in HC. fold A in HC. lia. }
  destruct (JsMap.get (parentMap L) (id C)) as [p|] eqn:Hp.
  - apply lookup_parent_Some in Hp as (P & K & HP & HK & HidK & ->).
    assert (K = C) as ->.
    { apply id_inj; [by eapply kid_in_forest|done|done]. }
    cbn [propagate_up]. rewrite id_truthy by done.
    rewrite (lookup_option P HP). cbn [mbind option_bind].
    assert (∃ subs, subOptions P = Some subs ∧ kids P = subs) as (subs & Hsubs & Hkids).
    { unfold kids in HK |- *. destruct (subOptions P) as [subs|]; [by exists subs|].
      by apply elem_of_nil in HK. }
    rewrite Hsubs.
    set (v := if negb b then false
              else forallb (λ sub, JsObject.get sel (id sub)) subs).
    assert ((if negb b then JsObject.set sel (id P) false
             else JsObject.set sel (id P)
                    (forallb (λ sub, JsObject.get sel (id sub)) subs))
            = JsObject.set sel (id P) v) as ->.
    { subst v. by destruct b. }
    assert (∀ o, o ∈ A → o ≠ P → selected (JsObject.set sel (id P) v) o = selected sel o)
      as Hother.
    { intros o Ho Hne. unfold selected. apply JsObject_get_set_ne.
      intros Heq. apply Hne. by apply id_inj. }
    assert (selected (JsObject.set sel (id P) v) P = v) as HselP.
    { unfold selected. rewrite JsObject_get_set by (by apply id_not_proto).
      by rewrite decide_True. }
    apply (IH P).
    + done.
    + pose proof (kid_weight P C HK). lia.
    + intros Q HQ HPQ Hne.
      assert (Q = P ∨ Q ≠ P) as [->|HQP].
      { destruct (decide (id Q = id P)) as [Heq|Hneq]; [left; by apply id_inj|].
        right. by intros ->. }
      * (* the parent itself *)
        rewrite HselP.
        rewrite (forallb_ext_in _ (selected sel)).
        2:{ intros K' HK'. apply Hother; [by eapply kid_in_forest|].
            intros ->. eapply id_not_below; [exact HP| |reflexivity].
            by apply kid_in_descendants. }
        subst v. rewrite Hkids. destruct b; cbn [negb]; [done|].
        symmetry. apply (forallb_false_in _ _ C); [by rewrite <-Hkids|by apply Hoff].
      * (* any other option: neither it nor its children changed *)
        unfold closed_at in *. rewrite Hother by done.
        rewrite (forallb_ext_in _ (selected sel)).
        2:{ intros K' HK'. apply Hother; [by eapply kid_in_forest|]. by intros ->. }
        apply Hclosed; try done.
        intros HCQ. apply HQP. by apply (parent_unique Q P C).
    + intros ->. rewrite HselP. by subst v.
  - cbn [propagate_up parentId_truthy]. exists sel. split; [done|].
    intros Q HQ. apply Hclosed; [done|]. intros HCQ.
    rewrite (lookup_parent Q C HQ HCQ) in Hp. done.
Qed.


(** Steps 1 and 2 leave every option closed except the parent of the
    clicked one; step 3 then closes them all. *)
Lemma handleOptionChange_closes X sel :
  X ∈ A → tri_state A sel →
  ∃ sel', handleOptionChange L (length A) (id X) sel = Some sel' ∧ tri_state A sel'.
Proof.
  intros HX Hsel. unfold handleOptionChange.
  set (b := negb (JsObject.get sel (id X))).
  rewrite (lookup_option X HX).
  set (sel1 := fold_left (λ acc d, JsObject.set acc (id d) b) (descendants X)
                 (JsObject.set sel (id X) b)).
  assert (match Some X ≫= subOptions with
          | Some subs =>
              fold_left (λ acc d, JsObject.set acc (id d) b)
                (getAllOptionsRecursively subs) (JsObject.set sel (id X) b)
          | None => JsObject.set sel (id X) b
          end = sel1) as ->.
  { subst sel1. unfold descendants, kids. cbn [mbind option_bind].
    by destruct (subOptions X). }
  assert (∀ o, o ∈ option_and_descendants X → o ∈ A) as Hsub.
  { intros o Ho. eapply elem_of_sublist; [exact Ho|].
    by apply getAllOptionsRecursively_sublist. }
  assert (∀ o, o ∈ A → id o ∈ id <$> option_and_descendants X →
               o ∈ option_and_descendants X) as Hback.
  { intros o Ho (d & Heq & Hd)%list_elem_of_fmap.
    assert (o = d) as ->; [|done]. apply id_inj; auto. }
  assert (∀ o, o ∈ A →
            selected sel1 o = if decide (id o ∈ id <$> option_and_descendants X) then b
                              else selected sel o) as Hsel1.
  { intros o Ho. unfold selected. subst sel1. rewrite set_descendants.
    2:{ apply Forall_forall. intros d Hd. apply id_not_proto, Hsub.
        rewrite option_and_descendants_eq. by right. }
    rewrite JsObject_get_set by (by apply id_not_proto).
    rewrite option_and_descendants_eq, fmap_cons.
    destruct (decide (id o ∈ id <$> descendants X)) as [Hin|Hnotin].
    - rewrite decide_True; [done|]. by right.
    - destruct (decide (id X = id o)) as [Heq|Hne].
      + rewrite decide_True; [done|]. rewrite <-Heq. by left.
      + rewrite decide_False; [done|]. rewrite not_elem_of_cons. split; [congruence|done]. }
  apply (propagate_up_closes b (length A) X sel1 HX).
  - rewrite option_and_descendants_eq. simpl. lia.
  - intros Q HQ HXQ Hne. rewrite (Hsel1 Q HQ).
    destruct (decide (id Q ∈ id <$> option_and_descendants X)) as [Hin|Hnotin].
    + symmetry. apply forallb_const_in; [done|]. intros K HK.
      rewrite Hsel1 by (by eapply kid_in_forest).
      rewrite decide_True; [done|]. apply list_elem_of_fmap_2.
      rewrite option_and_descendants_eq. right.
      eapply kid_below; [|exact HK]. by apply Hback.
    + rewrite (forallb_ext_in _ (selected sel)); [by apply Hsel|].
      intros K HK. rewrite Hsel1 by (by eapply kid_in_forest).
      rewrite decide_False; [done|]. intros HKX.
      apply Hback in HKX; [|by eapply kid_in_forest].
      rewrite option_and_descendants_eq in HKX.
      apply elem_of_cons in HKX as [->|HKX]; [done|].
      apply descendant_has_parent in HKX as (Q' & HQ' & HKQ').
      assert (Q = Q') as ->.
      { apply (parent_unique Q Q' K); auto. }
      apply Hnotin. by apply list_elem_of_fmap_2.
  - intros Hb. rewrite (Hsel1 X HX).
    rewrite decide_True; [done|]. apply list_elem_of_fmap_2.
    rewrite option_and_descendants_eq. by left.
Qed.


Lemma initialSelections_unselected o :
  o ∈ A → selected (initialSelections_of L) o = false.
Proof.
  intros Ho. unfold selected, initialSelections_of.
  assert (∀ ks (m : gmap string bool) k,
            k ≠ "__proto__" → k ∈ ks →
            JsObject.get (fold_left (λ acc key, JsObject.set acc key false) ks m) k
            = false) as Hfold.
  { induction ks as [|k0 ks IH] using rev_ind; intros m k Hk Hin;
      [by apply elem_of_nil in Hin|].
    rewrite fold_left_app. cbn [fold_left].
    destruct (decide (k0 = k)) as [->|Hne].
    - rewrite JsObject_get_set by done. by rewrite decide_True.
    - rewrite JsObject_get_set_ne by done. apply IH; [done|].
      apply elem_of_app in Hin as [?|Hin%list_elem_of_singleton]; [done|congruence]. }
  apply Hfold; [by apply id_not_proto|].
  unfold L. rewrite lookups_of_spec. cbn [idToOptionMap].
  apply (keys_set_all id (λ o, o)). right. by apply list_elem_of_fmap_2.
Qed.

Lemma initialSelections_tri_state : tri_state A (initialSelections_of L).
Proof.
  intros P HP Hne. rewrite initialSelections_unselected by done.
  destruct (kids P) as [|K ks] eqn:Hk; [done|]. simpl.
  rewrite initialSelections_unselected; [done|].
  eapply kid_in_forest; [exact HP|]. rewrite Hk. by left.
Qed.



End WellKeyed.


#[local] Instance well_keyed_dec levels : Decision (well_keyed levels).
Proof. unfold well_keyed. apply _. Defined.

(** *** The shipped catalog *)

(** The two containers that level 1 and level 2 both spread. *)
Definition level1_systemAndPackages : HardeningOption :=
  spread_subOptions systemAndPackagesParent [allOptions.updates].

Definition level2_systemAndPackages : HardeningOption :=
  spread_subOptions systemAndPackagesParent
    [allOptions.autoUpdates; allOptions.dnfSecurity].

(** C4 (defect).  The flattened catalog holds 36 options but 34 ids: the
    containers of level 1 and of level 2 are different options (they have
    different children) under the one id [systemAndPackages], and likewise
    for [networkSecurity]; the index keeps the level 2 container under each
    of the two ids. *)
Theorem catalog_ids_not_unique :
  catalog_options PARANOIA_LEVELS !! 0 = Some level1_systemAndPackages
  ∧ catalog_options PARANOIA_LEVELS !! 6 = Some level2_systemAndPackages
  ∧ id level1_systemAndPackages = id level2_systemAndPackages
  ∧ subOptions level1_systemAndPackages ≠ subOptions level2_systemAndPackages
  ∧ ¬ NoDup (id <$> catalog_options PARANOIA_LEVELS)
  ∧ JsMap.get (idToOptionMap lookups) "systemAndPackages" = Some level2_systemAndPackages.
Proof.
  split_and!; [reflexivity..|discriminate| |reflexivity].
  apply (bool_decide_eq_false_1 (NoDup (id <$> catalog_options PARANOIA_LEVELS))).
  by vm_compute.
Qed.




(** The nine containers as [constants.ts] first defines them, each with all
    its children, in one level: a catalog with usable keys. *)
Definition unsplit_catalog : list ParanoiaLevel := [
  {| level := 1;
     title := "All containers";
     level_description := "";
     options := [
       systemAndPackagesParent; networkSecurityParent; userManagementParent;
       systemInternalsParent; serviceHardeningParent; iptablesParent;
       loggingParent; bootAndFilesystemParent; complianceParent
     ] |}
].


(** *** Unknown ids *)






(** ** The generation pipeline *)

(** What each setter leaves of the cells the pipeline's claims speak of. *)
Lemma setGeneratedScript_spec x s :
  generatedScript (setGeneratedScript x s) = x
  ∧ error (setGeneratedScript x s) = error s
  ∧ isLoading (setGeneratedScript x s) = isLoading s.
Proof. by destruct s. Qed.

(** The steps of a run over [opts], in the order the handler takes them. *)
Definition pipeline_steps (opts : list HardeningOption) : list GatewayCall :=
  CallHeader :: (CallSection <$> opts) ++ [CallFooter].

(** What the section calls settle to when the first is the [k]-th call. *)
Fixpoint section_outcomes (G : Gateway) (k : nat) (opts : list HardeningOption)
    : list (Result string) :=
  match opts with
  | [] => []
  | o :: rest => gw_section G k o :: section_outcomes G (S k) rest
  end.

Definition step_outcomes (G : Gateway) (k : nat) (opts : list HardeningOption)
    : list (Result string) :=
  gw_header G k :: section_outcomes G (S k) opts
  ++ [gw_footer G (S k + length opts)].

(** The texts of the steps that succeed before the first failure, and that
    failure if there is one. *)
Fixpoint leading_successes (rs : list (Result string)) : list string * option thrown :=
  match rs with
  | [] => ([], None)
  | Ok s :: rest => let '(outs, failure) := leading_successes rest in (s :: outs, failure)
  | Throw e :: _ => ([], Some e)
  end.

(** [fullScript] after the texts [outs] were appended, each followed by a
    blank line. *)
Definition accumulate (outs : list string) (fullScript : string) : string :=
  fold_left (λ acc s, acc +:+ s +:+ LF +:+ LF) outs fullScript.

(** Runs the monadic glue of a handler down to the gateway outcomes. *)
Ltac run_monad :=
  repeat (progress
    (unfold mbind, M_bind, update, try_finally, try_catch, dispatch,
       updateProgress, mret, M_ret;
     cbn beta iota; cbn [app catalog calls])).

Section Pipeline.

Variable L : Lookups.
Variable G : Gateway.
Variable randomJoke : nat → string.

Lemma generate_sections_spec totalSteps opts : ∀ currentStep fullScript w outs failure,
  leading_successes (section_outcomes G (length (calls w)) opts) = (outs, failure) →
  generatedScript (app w) = fullScript →
  ∃ w',
    generate_sections G randomJoke totalSteps opts currentStep fullScript w
    = (match failure with
       | Some e => Throw e
       | None => Ok (currentStep + length opts, accumulate outs fullScript)
       end, w')
    ∧ calls w' = calls w
        ++ (CallSection <$> take (length outs + (if failure is Some _ then 1 else 0)) opts)
    ∧ generatedScript (app w') = accumulate outs fullScript
    ∧ lastActiveOptions (app w') = lastActiveOptions (app w)
    ∧ error (app w') = error (app w)
    ∧ catalog w' = catalog w.
Proof.
  induction opts as [|o opts IH]; intros cs fs w outs failure Hout Hfs.
  - simpl in Hout. injection Hout as <- <-. exists w. simpl.
    rewrite Nat.add_0_r, app_nil_r. done.
  - simpl in Hout.
    destruct (gw_section G (length (calls w)) o) as [s|e] eqn:Hs.
    + destruct (leading_successes (section_outcomes G (S (length (calls w))) opts))
        as [outs' failure'] eqn:Hrest. injection Hout as <- <-.
      set (w1 := mkWorld
             (setGeneratedScript (fs +:+ s +:+ LF +:+ LF)
                (setGenerationStatus
                   (Some (Build_GenerationStatus totalSteps (S cs)
                      (("Step " +:+ pretty (cs + 1) +:+ ": Generating '" +:+ label o
                        +:+ "' section...") +:+ LF +:+ LF +:+ QUOTE
                       +:+ randomJoke (S cs) +:+ QUOTE)))
                   (app w)))
             (catalog w) (calls w ++ [CallSection o])).
      destruct (IH (S cs) (fs +:+ s +:+ LF +:+ LF) w1 outs' failure')
        as (w' & Hrun & Hc & Hg & Hla & Her & Hcat).
      { subst w1. simpl. rewrite length_app. simpl.
        by rewrite Nat.add_1_r. }
      { subst w1. simpl. apply setGeneratedScript_spec. }
      exists w'. split_and!.
      * simpl. unfold mbind, M_bind, updateProgress, update, dispatch, mret, M_ret.
        simpl. rewrite Hs. fold w1. rewrite Hrun.
        destruct failure'; [done|]. do 2 f_equal. f_equal. lia.
      * rewrite Hc. subst w1. simpl. by rewrite <-app_assoc.
      * rewrite Hg. done.
      * rewrite Hla. subst w1. simpl. by destruct (app w).
      * rewrite Her. subst w1. simpl. by destruct (app w).
      * rewrite Hcat. done.
    + injection Hout as <- <-. eexists. split_and!.
      * simpl. unfold mbind, M_bind, updateProgress, update, dispatch, mret, M_ret.
        simpl. rewrite Hs. reflexivity.
      * done.
      * simpl. by destruct (app w).
      * simpl. by destruct (app w).
      * simpl. by destruct (app w).
      * done.
Qed.


Lemma section_outcomes_length k opts :
  length (section_outcomes G k opts) = length opts.
Proof. revert k; induction opts; intros k; simpl; [done|]. by rewrite IHopts. Qed.

Lemma leading_successes_all rs outs :
  leading_successes rs = (outs, None) → length outs = length rs.
Proof.
  revert outs; induction rs as [|[s|e] rs IH]; intros outs H; simpl in H.
  - by injection H as <-.
  - destruct (leading_successes rs) as [o f]. injection H as <- ->.
    simpl. by rewrite (IH o).
  - done.
Qed.

Lemma leading_successes_failed rs outs e :
  leading_successes rs = (outs, Some e) → length outs < length rs.
Proof.
  revert outs; induction rs as [|[s|e'] rs IH]; intros outs H; simpl in H.
  - done.
  - destruct (leading_successes rs) as [o f]. injection H as <- ->.
    simpl. pose proof (IH o eq_refl). lia.
  - injection H as <- _. simpl. lia.
Qed.

Lemma leading_successes_snoc rs r :
  leading_successes (rs ++ [r]) =
  match leading_successes rs, r with
  | (outs, Some e), _ => (outs, Some e)
  | (outs, None), Ok s => (outs ++ [s], None)
  | (outs, None), Throw e => (outs, Some e)
  end.
Proof.
  induction rs as [|[s|e] rs IH]; simpl; [by destruct r|..|done].
  rewrite IH. destruct (leading_successes rs) as [o [e|]]; [done|]. by destruct r.
Qed.

(** The script cell when the run ends: after a failure, what had been
    accumulated; after a full run, the footer closes the script. *)
Definition committed_script (outs : list string) (failure : option thrown) : string :=
  match failure with
  | Some _ => accumulate outs ""
  | None => accumulate (removelast outs) "" +:+ List.last outs "" +:+ LF
  end.

Definition generationErrorMessage (e : thrown) : string :=
  message_or e "An unknown error occurred during script generation.".

Lemma accumulate_snoc outs s fs :
  accumulate (outs ++ [s]) fs = accumulate outs fs +:+ s +:+ LF +:+ LF.
Proof. unfold accumulate. by rewrite fold_left_app. Qed.

(** The whole handler, once past its guard, against the outcomes of the
    steps. *)
Lemma handleGenerateScript_run w outs failure :
  isPromptTooLong (app w) = false →
  isAnyOptionSelected (app w) = true →
  let opts := activeOptions_of (app w) (catalog w) in
  leading_successes (step_outcomes G (length (calls w)) opts) = (outs, failure) →
  ∃ w',
    handleGenerateScript L G randomJoke w = (Ok (), w')
    ∧ calls w' = calls w
        ++ take (length outs + (if failure is Some _ then 1 else 0)) (pipeline_steps opts)
    ∧ generatedScript (app w') = committed_script outs failure
    ∧ error (app w') = generationErrorMessage <$> failure
    ∧ isLoading (app w') = false
    ∧ generationStatus (app w') = None
    ∧ lastActiveOptions (app w') = activeOptionObjects_of (app w) (catalog w)
    ∧ catalog w' = catalog w.
Proof.
  intros Hlong Hany opts Hout.
  unfold handleGenerateScript. rewrite Hlong, Hany. cbn [orb negb].
  unfold step_outcomes in Hout. cbn [leading_successes] in Hout.
  fold opts. clearbody opts.
  run_monad.
  destruct (gw_header G (length (calls w))) as [h|e] eqn:Hh.
  - (* the header succeeded *)
    rewrite leading_successes_snoc in Hout.
    destruct (leading_successes (section_outcomes G (S (length (calls w))) opts))
      as [souts sfail] eqn:Hsec.
    match goal with
    | |- context [generate_sections G randomJoke ?t opts ?c ?f ?w0] =>
        destruct (generate_sections_spec t opts c f w0 souts sfail)
          as (w1 & Hrun & Hc1 & Hg1 & Hla1 & Her1 & Hcat1);
          [ cbn [calls]; rewrite length_app; cbn [length]; by rewrite Nat.add_1_r
          | cbn [app]; apply setGeneratedScript_spec
          | rewrite Hrun ]
    end.
    cbn [app calls catalog] in Hc1, Hla1, Her1, Hcat1.
    destruct sfail as [e|].
    + (* a section failed *)
      injection Hout as <- <-. eexists. split; [reflexivity|].
      pose proof (leading_successes_failed _ _ _ Hsec) as Hlen.
      rewrite section_outcomes_length in Hlen.
      cbn [app calls catalog]. rewrite Hc1, Hcat1.
      destruct w as [[] ? ?], w1 as [[] ? ?]; cbn in *.
      split_and!; try done.
      rewrite <-app_assoc. cbn. do 2 f_equal.
      rewrite !Nat.add_1_r. cbn. f_equal.
      rewrite take_app_le; [by rewrite fmap_take|].
      rewrite length_fmap. lia.
    + (* every section succeeded *)
      pose proof (leading_successes_all _ _ Hsec) as Hlen.
      rewrite section_outcomes_length in Hlen.
      rewrite Nat.add_0_r, Hlen, firstn_all in Hc1.
      cbn [app calls catalog]. rewrite Hc1, length_app, length_app, length_fmap.
      cbn [length]. rewrite <-Nat.add_assoc. cbn [Nat.add].
      replace (length (calls w) + S (length opts))
        with (S (length (calls w)) + length opts) by lia.
      destruct (gw_footer G (S (length (calls w)) + length opts)) as [f|e] eqn:Hf.
      * injection Hout as <- <-. eexists. split; [reflexivity|].
        cbn [app calls catalog]. rewrite Hcat1.
        assert (committed_script (h :: souts ++ [f]) None
                = accumulate souts ("" +:+ h +:+ LF +:+ LF) +:+ f +:+ LF) as ->.
        { unfold committed_script.
          change (h :: souts ++ [f]) with ((h :: souts) ++ [f]).
          by rewrite removelast_last, last_last. }
        assert (take (length (h :: souts ++ [f]) + 0) (pipeline_steps opts)
                = pipeline_steps opts) as ->.
        { apply firstn_all2. unfold pipeline_steps. cbn.
          rewrite !length_app, length_fmap. cbn. lia. }
        destruct w as [[] ? ?], w1 as [[] ? ?]; cbn in *.
        split_and!; try done.
        by rewrite <-!app_assoc.
      * injection Hout as <- <-. eexists. split; [reflexivity|].
        cbn [app calls catalog]. rewrite Hcat1.
        assert (take (length (h :: souts) + 1) (pipeline_steps opts)
                = pipeline_steps opts) as ->.
        { apply firstn_all2. unfold pipeline_steps. cbn.
          rewrite !length_app, length_fmap. cbn. lia. }
        destruct w as [[] ? ?], w1 as [[] ? ?]; cbn in *.
        split_and!; try done.
        by rewrite <-!app_assoc.
  - (* the header failed *)
    injection Hout as <- <-. eexists. split; [reflexivity|].
    destruct w as [[] ? ?]; cbn. split_and!; done.
Qed.






(** C7.  With exactly one active option and a gateway whose header, section
    and footer operations return [H], [S] and [F], the handler makes three
    calls, header then section then footer, and leaves the script
    [H\n\nS\n\nF\n] with no error. *)
Theorem single_option_run_assembles_script w o :
  isPromptTooLong (app w) = false →
  isAnyOptionSelected (app w) = true →
  activeOptions_of (app w) (catalog w) = [o] →
  (∀ k, gw_header G k = Ok "H") →
  (∀ k, gw_section G k o = Ok "S") →
  (∀ k, gw_footer G k = Ok "F") →
  let w' := (handleGenerateScript L G randomJoke w).2 in
  calls w' = calls w ++ [CallHeader; CallSection o; CallFooter]
  ∧ generatedScript (app w')
    = "H" +:+ LF +:+ LF +:+ "S" +:+ LF +:+ LF +:+ "F" +:+ LF
  ∧ error (app w') = None
  ∧ isLoading (app w') = false.
Proof.
  intros Hlong Hany Hopts Hh Hs Hf.
  destruct (handleGenerateScript_run w ["H"; "S"; "F"] None Hlong Hany)
    as (w' & -> & Hc & Hg & He & Hl & _).
  { rewrite Hopts. unfold step_outcomes. cbn. by rewrite Hh, Hs, Hf. }
  cbn [snd]. rewrite Hopts in Hc. done.
Qed.

(** C10.  The custom prompt is limited to 1000 characters: with a longer
    prompt, or with no option selected and a blank prompt, the handler
    returns at once; it dispatches no call and changes no cell. *)
Theorem generation_guard_returns_immediately w :
  1000 < String.length (customPrompt (app w))
  ∨ (Forall (λ b, b = false) (JsObject.values (selectedOptions (app w)))
     ∧ JsString.trim (customPrompt (app w)) = "") →
  handleGenerateScript L G randomJoke w = (Ok (), w).
Proof.
  intros Hguard. unfold handleGenerateScript.
  assert (isPromptTooLong (app w) || negb (isAnyOptionSelected (app w)) = true) as ->;
    [|done].
  destruct Hguard as [Hlong|[Hnone Hblank]].
  - apply orb_true_intro. left. by apply bool_decide_eq_true.
  - apply orb_true_intro. right. unfold isAnyOptionSelected.
    rewrite Hblank. cbn. rewrite orb_false_r. apply negb_true_iff.
    apply not_true_is_false. intros (b & Hb & ->)%existsb_exists.
    rewrite Forall_forall in Hnone. apply list_elem_of_In in Hb.
    by specialize (Hnone _ Hb).
Qed.

End Pipeline.

(** *** Concrete runs *)

(** A gateway whose operations return [H], [S] and [F], except that the
    call number [fail_at], if it is a section call, fails. *)
Definition mockGateway (fail_at : option nat) : Gateway := {|
  gw_header _ := Ok "H";
  gw_section k _ :=
    if decide (fail_at = Some k) then Throw (ThrownError "Network Error: Could not connect to the API. Please check your internet connection.")
    else Ok "S";
  gw_footer _ := Ok "F";
  gw_improve _ _ _ := Throw ThrownOther;
|}.

Definition noJoke : nat → string := λ _, "".

(** The component after the boxes [clicked] were ticked, one click each. *)
Definition after_clicks (clicked : list string) : World :=
  mkWorld
    (setSelectedOptions
       (default initialSelections
          (toggles lookups (length allOptionsFromLevels) clicked initialSelections))
       initialState)
    allOptionsFromLevels [].

Definition three_selected : World := after_clicks ["firewall"; "ssh"; "sshPort"].
Definition one_selected : World := after_clicks ["ssh"].




Lemma single_option_run_witness :
  let w' := (handleGenerateScript lookups (mockGateway None) noJoke one_selected).2 in
  calls w' = [CallHeader; CallSection allOptions.ssh; CallFooter]
  ∧ generatedScript (app w') = "H" +:+ LF +:+ LF +:+ "S" +:+ LF +:+ LF +:+ "F" +:+ LF.
Proof.
  pose proof (single_option_run_assembles_script lookups (mockGateway None) noJoke
                one_selected allOptions.ssh eq_refl eq_refl eq_refl
                (λ _, eq_refl) (λ _, eq_refl) (λ _, eq_refl)) as (Hc & Hg & _).
  split; [exact Hc | exact Hg].
Defined.

(** A prompt of 1001 characters typed over an otherwise fresh component. *)
Definition long_prompt_typed : World :=
  let '(mkAppState so cp ce gs il er st la rb ii ie is' su ids sh) := initialState in
  mkWorld
    (mkAppState (JsObject.set so "ssh" true)
       (String.string_of_list_ascii (replicate 1001 "x"%char))
       ce gs il er st la rb ii ie is' su ids sh)
    allOptionsFromLevels [].

Lemma generation_guard_witness :
  handleGenerateScript lookups (mockGateway None) noJoke long_prompt_typed
  = (Ok (), long_prompt_typed)
  ∧ handleGenerateScript lookups (mockGateway None) noJoke initialWorld
    = (Ok (), initialWorld).
Proof.
  split.
  - apply (generation_guard_returns_immediately lookups (mockGateway None) noJoke
             long_prompt_typed).
    left. vm_compute. lia.
  - apply (generation_guard_returns_immediately lookups (mockGateway None) noJoke
             initialWorld).
    right. split; [|reflexivity]. vm_compute. repeat constructor.
Defined.

(** ** The improvement loop *)

Definition refinementErrorMessage (e : thrown) : string :=
  message_or e "An unknown error occurred during script refinement.".

Lemma startsWith_shebang_truthy t :
  JsString.startsWith t "#!" = true → JsString.truthy t = true.
Proof. by destruct t. Qed.

(** C9.  When the improve operation fails, whatever the error, the handler
    shows that error's message, and the option catalog keeps every prompt and
    the set of improved ids stays as it was. *)
Theorem improvement_failure_leaves_catalog (E : Engine) (G : Gateway) w e :
  JsString.startsWith (JsString.trim (generatedScript (app w))) "#!" = true →
  gw_improve G (length (calls w)) (generatedScript (app w))
    (filter (λ opt, id opt ≠ "custom")
       (read_options (catalog w) (lastActiveOptions (app w)))) = Throw e →
  let w' := (handleRunShellcheck E G w).2 in
  improvingError (app w') = Some (refinementErrorMessage e)
  ∧ catalog w' = catalog w
  ∧ prompt <$> catalog w' = prompt <$> catalog w
  ∧ improvedPromptIds (app w') = improvedPromptIds (app w)
  ∧ isImproving (app w') = false.
Proof.
  intros Hshebang Hfail. unfold handleRunShellcheck.
  rewrite Hshebang, (startsWith_shebang_truthy _ Hshebang). cbn [negb orb].
  run_monad. rewrite Hfail.
  destruct w as [[] ? ?]; cbn. done.
Qed.

(** A rejected script never reaches the gateway, and the catalog is as
    untouched. *)
Lemma improvement_validation_leaves_catalog (E : Engine) (G : Gateway) w :
  JsString.startsWith (JsString.trim (generatedScript (app w))) "#!" = false →
  let w' := (handleRunShellcheck E G w).2 in
  calls w' = calls w ∧ catalog w' = catalog w
  ∧ improvedPromptIds (app w') = improvedPromptIds (app w).
Proof.
  intros Hno. unfold handleRunShellcheck. rewrite Hno, orb_true_r.
  destruct w as [[] ? ?]; cbn. done.
Qed.

(** A session that holds a generated script for the [ssh] option: the array
    of active options is the one a run with the [ssh] box ticked stores. *)
Definition after_generation : World :=
  mkWorld
    (setLastActiveOptions (activeOptionObjects_of (app one_selected) allOptionsFromLevels)
       (setGeneratedScript ("#!/bin/bash" +:+ LF +:+ "echo hardening" +:+ LF) initialState))
    allOptionsFromLevels [].

(** The real gateway, answering every request with text that is not JSON. *)
Definition malformed_gateway : Gateway :=
  geminiGateway Reference.engine (Some "test-api-key") (λ _ _, Resolved not_json).

Lemma improvement_failure_witness :
  let w' := (handleRunShellcheck Reference.engine malformed_gateway after_generation).2 in
  improvingError (app w')
  = Some "An unexpected API error occurred during script improvement. Check the console for details."
  ∧ catalog w' = allOptionsFromLevels
  ∧ improvedPromptIds (app w') = ∅.
Proof.
  pose proof (improvement_failure_leaves_catalog Reference.engine malformed_gateway
                after_generation
                (ThrownError "An unexpected API error occurred during script improvement. Check the console for details.")
                eq_refl eq_refl) as (He & Hc & _ & Hi & _).
  split_and!; [exact He | exact Hc | exact Hi].
Defined.

(** * Further properties of the code *)

(** The rest of the file covers code the specification's claims leave out:
    what cleaning removes, what the gateway reports, the option index of any
    catalog, the effect of one click, the suggestion buttons, complete runs,
    the learning step, and what the panels show. *)

(** ** Fence cleaning: what is removed *)

Section MoreStringFacts.

Import JsString.

#[local] Arguments String.append : simpl nomatch.

Lemma strip_prefix_app p s r : strip_prefix p s = Some r → s = p +:+ r.
Proof.
  revert s; induction p as [|a p IH]; intros [|b s] H; simplify_eq/=; try done.
  case_decide; [|done]. subst. simpl. f_equal. by apply IH.
Qed.

Lemma strip_prefix_of_app p s : strip_prefix p (p +:+ s) = Some s.
Proof. induction p as [|a p IH]; simpl; [done|]. by rewrite decide_True. Qed.

Lemma strip_suffix_app p s r : strip_suffix p s = Some r → s = r +:+ p.
Proof.
  revert r; induction s as [|c s IH]; intros r H; simpl in H.
  - case_decide; simplify_eq/=; done.
  - case_decide as Hd; simplify_eq/=; [done|].
    destruct (strip_suffix p s) as [t|] eqn:Ht; simplify_eq/=.
    f_equal. by apply IH.
Qed.

Lemma append_length_String (r p : string) :
  String.length (r +:+ p) = String.length r + String.length p.
Proof. induction r; simpl; [done|]. by rewrite IHr. Qed.

Lemma strip_suffix_of_app p r : strip_suffix p (r +:+ p) = Some r.
Proof.
  induction r as [|c r IH]; simpl.
  - destruct p; simpl; [done|by rewrite decide_True].
  - rewrite decide_False.
    2:{ intros Heq. apply (f_equal String.length) in Heq. simpl in Heq.
        rewrite append_length_String in Heq. lia. }
    by rewrite IH.
Qed.

Lemma trimStart_suffix s : ∃ pre, s = pre +:+ trimStart s.
Proof.
  induction s as [|c s [pre IH]]; [by exists ""|]. simpl.
  destruct (isWhiteSpace c).
  - exists (String c pre). simpl. by rewrite <-IH.
  - by exists "".
Qed.

Lemma trimEnd_prefix s : ∃ post, s = trimEnd s +:+ post.
Proof.
  induction s as [|c s [post IH]]; [by exists ""|]. simpl.
  destruct (trimEnd s) as [|d t] eqn:Ht.
  - destruct (isWhiteSpace c).
    + exists (String c s). done.
    + exists post. simpl. by rewrite IH at 1.
  - exists post. simpl. by rewrite IH at 1.
Qed.

(** A text with no white space in front is what [trimStart] leaves as it is,
    and likewise at the end. *)
Lemma trimStart_fixed s : String.length (trimStart s) = String.length s → trimStart s = s.
Proof.
  destruct s as [|c s]; [done|]. simpl.
  destruct (isWhiteSpace c); [|done].
  pose proof (trimStart_length s). simpl. lia.
Qed.

Lemma trimEnd_fixed s : String.length (trimEnd s) = String.length s → trimEnd s = s.
Proof.
  induction s as [|c s IH]; [done|]. simpl.
  pose proof (trimEnd_length s) as Hle.
  destruct (trimEnd s) as [|d t] eqn:Ht.
  - simpl in Hle. destruct (isWhiteSpace c); simpl; intros Hlen; [lia|].
    destruct s; [done|simpl in Hlen; lia].
  - simpl. intros Hlen. f_equal. apply IH. simpl in *. lia.
Qed.

Lemma trimmed_ends s : trimmed s → trimStart s = s ∧ trimEnd s = s.
Proof.
  unfold trimmed, trim. intros Heq.
  pose proof (trimStart_length s). pose proof (trimEnd_length (trimStart s)).
  assert (trimStart s = s) as Hs.
  { apply trimStart_fixed. apply (f_equal String.length) in Heq. lia. }
  split; [done|]. by rewrite Hs in Heq.
Qed.

Lemma ends_trimmed s : trimStart s = s → trimEnd s = s → trimmed s.
Proof. unfold trimmed, trim. by intros -> ->. Qed.

Lemma trimStart_app a x : a ≠ "" → trimStart a = a → trimStart (a +:+ x) = a +:+ x.
Proof.
  destruct a as [|c a]; [done|]. intros _. simpl.
  destruct (isWhiteSpace c); [|done].
  intros Heq. apply (f_equal String.length) in Heq.
  pose proof (trimStart_length a). simpl in Heq. lia.
Qed.

Lemma trimEnd_app x b : trimEnd b ≠ "" → trimEnd (x +:+ b) = x +:+ trimEnd b.
Proof.
  intros Hb. induction x as [|c x IH]; [done|]. simpl. rewrite IH.
  destruct (x +:+ trimEnd b) eqn:Hx; [|done].
  destruct x; simpl in Hx; [done|discriminate].
Qed.

Lemma trimEnd_white_tail s w :
  trimEnd w = "" → trimEnd (s +:+ w) = trimEnd s.
Proof.
  intros Hw. induction s as [|c s IH]; [done|]. simpl. by rewrite IH.
Qed.

(** [t] is a contiguous part of [s]. *)
Definition infix_of (t s : string) : Prop := ∃ pre post, s = pre +:+ t +:+ post.

Lemma append_assoc_String (a b c : string) : (a +:+ b) +:+ c = a +:+ b +:+ c.
Proof. induction a; simpl; [done|]. by rewrite IHa. Qed.

Lemma infix_of_refl s : infix_of s s.
Proof. exists "", "". simpl. induction s; simpl; [done|]. by rewrite <-IHs. Qed.

Lemma append_nil_r_String (s : string) : s +:+ "" = s.
Proof. induction s; simpl; [done|]. by rewrite IHs. Qed.

Lemma infix_of_trans a b c : infix_of a b → infix_of b c → infix_of a c.
Proof.
  intros (p1 & q1 & ->) (p2 & q2 & ->). exists (p2 +:+ p1), (q1 +:+ q2).
  by rewrite !append_assoc_String.
Qed.

Lemma infix_of_suffix pre s : infix_of s (pre +:+ s).
Proof. exists pre, "". by rewrite append_nil_r_String. Qed.

Lemma infix_of_prefix s post : infix_of s (s +:+ post).
Proof. by exists "", post. Qed.

Lemma trimStart_infix s : infix_of (JsString.trimStart s) s.
Proof. destruct (trimStart_suffix s) as [pre Hpre]. exists pre, "". by rewrite append_nil_r_String. Qed.

Lemma trimEnd_infix s : infix_of (JsString.trimEnd s) s.
Proof. destruct (trimEnd_prefix s) as [post Hpost]. by exists "", post. Qed.

Lemma replace_leading_fence_infix s : infix_of (replace_leading_fence s) s.
Proof.
  unfold replace_leading_fence.
  destruct (JsString.strip_prefix "```" s) as [r|] eqn:Hr; [|apply infix_of_refl].
  apply strip_prefix_app in Hr as ->.
  eapply infix_of_trans; [|apply infix_of_suffix].
  eapply infix_of_trans; [apply trimStart_infix|].
  destruct (JsString.strip_prefix "bash" r) as [t|] eqn:Ht.
  { apply strip_prefix_app in Ht as ->. apply infix_of_suffix. }
  destruct (JsString.strip_prefix "sh" r) as [t|] eqn:Ht2.
  { apply strip_prefix_app in Ht2 as ->. apply infix_of_suffix. }
  apply infix_of_refl.
Qed.

Lemma replace_trailing_fence_infix s : infix_of (replace_trailing_fence s) s.
Proof.
  unfold replace_trailing_fence.
  destruct (JsString.strip_suffix "```" s) as [r|] eqn:Hr; [|apply infix_of_refl].
  apply strip_suffix_app in Hr as ->. apply infix_of_prefix.
Qed.

Lemma trim_infix s : infix_of (JsString.trim s) s.
Proof.
  unfold JsString.trim.
  eapply infix_of_trans; [apply trimEnd_infix | apply trimStart_infix].
Qed.

End MoreStringFacts.

(** X1.  Cleaning only removes text at the two ends: the cleaned text is a
    contiguous part of the raw response, and it has no white space at
    either end. *)
Theorem cleanScriptOutput_keeps_a_part (rawOutput : string) :
  infix_of (cleanScriptOutput rawOutput) rawOutput
  ∧ trimmed (cleanScriptOutput rawOutput).
Proof.
  split; [|apply cleanScriptOutput_trimmed].
  unfold cleanScriptOutput.
  eapply infix_of_trans; [apply trim_infix|].
  eapply infix_of_trans; [apply replace_trailing_fence_infix|].
  apply replace_leading_fence_infix.
Qed.

(** The fenced form of a script. *)
Definition fenced (lang body : string) : string :=
  "```" +:+ lang +:+ LF +:+ body +:+ LF +:+ "```".

(** X2.  A script with no white space at its ends that comes back wrapped
    in a fence (three backticks, then [bash], [sh] or nothing, a line feed,
    the script, a line feed, three backticks) is returned exactly. *)
Theorem fenced_script_round_trip (lang body : string) :
  lang ∈ ["bash"; "sh"; ""] → trimmed body →
  cleanScriptOutput (fenced lang body) = body.
Proof.
  intros Hlang [Hs He]%trimmed_ends.
  assert (replace_leading_fence (fenced lang body)
          = JsString.trimStart (body +:+ LF +:+ "```")) as Hlead.
  { unfold fenced, replace_leading_fence. rewrite strip_prefix_of_app.
    set_unfold. destruct Hlang as [->|[->|[->|[]]]]; reflexivity. }
  unfold cleanScriptOutput. rewrite Hlead.
  destruct body as [|c body]; [reflexivity|].
  rewrite trimStart_app by done.
  unfold replace_trailing_fence.
  rewrite <-!append_assoc_String, strip_suffix_of_app.
  unfold JsString.trim. rewrite trimStart_app by done.
  rewrite trimEnd_white_tail by done. done.
Qed.

(** The header of the service's own test. *)
Definition header_reply : string := "#!/bin/bash" +:+ LF +:+ "# Header".

Lemma fenced_script_witness :
  cleanScriptOutput ("```bash" +:+ LF +:+ header_reply +:+ LF +:+ "```") = header_reply
  ∧ cleanScriptOutput ("```" +:+ LF +:+ "show" +:+ LF +:+ "```") = "show".
Proof.
  split.
  - apply (fenced_script_round_trip "bash" header_reply); [by left|reflexivity].
  - apply (fenced_script_round_trip "" "show"); [by right; right; left|reflexivity].
Defined.


(** ** The gateway: what its operations report and return *)

(** The errors of the classifier, by kind. *)
Definition authenticationError : thrown :=
  ThrownError "Authentication Error: The API key is invalid or missing. Please ensure it is configured correctly.".

Definition networkError : thrown :=
  ThrownError "Network Error: Could not connect to the API. Please check your internet connection.".

Definition rateLimitError : thrown :=
  ThrownError "Rate Limit Exceeded: Too many requests sent. Please wait a while before trying again.".

Definition unknownError (context : string) : thrown :=
  ThrownError ("An unknown error occurred during " +:+ context +:+ ".").

(** What [handleApiError] can return for a context. *)
Definition classifiedErrors (context : string) : list thrown :=
  [authenticationError; networkError; rateLimitError;
   genericApiError context; unknownError context].

Lemma handleApiError_classified error context :
  handleApiError error context ∈ classifiedErrors context.
Proof.
  unfold handleApiError, classifiedErrors. destruct error as [msg|].
  - repeat case_match; set_solver.
  - set_solver.
Qed.

Lemma tryCatch_classified {A} (body : Result A) context e :
  tryCatch body (λ error, Throw (handleApiError error context)) = Throw e →
  e ∈ classifiedErrors context.
Proof.
  destruct body as [a|e0]; simpl; [done|]. intros [= <-].
  apply handleApiError_classified.
Qed.

Lemma classified_not_configuration context :
  configurationError ∉ classifiedErrors context.
Proof.
  unfold classifiedErrors, configurationError, authenticationError, networkError,
    rateLimitError, genericApiError, unknownError.
  rewrite !not_elem_of_cons. split_and!; try discriminate. apply not_elem_of_nil.
Qed.

Lemma callApi_failure_classified API_KEY remote prompt e :
  callApi API_KEY remote prompt = Throw e →
  e ∈ configurationError :: classifiedErrors "script generation".
Proof.
  unfold callApi. destruct (key_missing API_KEY).
  - intros [= <-]. by left.
  - intros H%tryCatch_classified. by right.
Qed.

Lemma analyze_failure_classified E API_KEY remote output e :
  analyzeScriptOutput E API_KEY remote output = Throw e →
  e ∈ configurationError :: classifiedErrors "output analysis".
Proof.
  unfold analyzeScriptOutput. destruct (key_missing API_KEY).
  - intros [= <-]. by left.
  - intros H%tryCatch_classified. by right.
Qed.

Lemma improve_failure_classified E API_KEY remote script opts e :
  runShellcheckAndLearn E API_KEY remote script opts = Throw e →
  e ∈ configurationError :: classifiedErrors "script improvement".
Proof.
  unfold runShellcheckAndLearn. destruct (key_missing API_KEY).
  - intros [= <-]. by left.
  - intros H%tryCatch_classified. by right.
Qed.

(** X3.  Whatever the remote does, a gateway operation that fails throws an
    [Error] whose message is one of six fixed texts: the configuration error
    or one of the five the classifier has for the operation's context.  The
    remote's own message, and a thrown value that is not an [Error], never
    reach the caller. *)
Theorem gateway_failures_are_classified (E : Engine) (API_KEY : Env) (remote : Remote) :
  (∀ prompt e,
     callApi API_KEY remote prompt = Throw e →
     e ∈ configurationError :: classifiedErrors "script generation")
  ∧ (∀ output e,
     analyzeScriptOutput E API_KEY remote output = Throw e →
     e ∈ configurationError :: classifiedErrors "output analysis")
  ∧ (∀ script opts e,
     runShellcheckAndLearn E API_KEY remote script opts = Throw e →
     e ∈ configurationError :: classifiedErrors "script improvement").
Proof.
  split_and!.
  - apply callApi_failure_classified.
  - apply analyze_failure_classified.
  - apply improve_failure_classified.
Qed.

Lemma gateway_failures_witness :
  callApi (Some "test-api-key") (λ _, Rejected (ThrownError "fetch failed")) HeaderPrompt
  = Throw networkError
  ∧ networkError ∈ configurationError :: classifiedErrors "script generation".
Proof.
  split; [reflexivity|].
  apply (proj1 (gateway_failures_are_classified Reference.engine (Some "test-api-key")
                  (λ _, Rejected (ThrownError "fetch failed"))) HeaderPrompt).
  reflexivity.
Defined.

(** X4.  A gateway operation throws the configuration error exactly when
    the API key is unset or empty: no rejection by the remote, whatever its
    message, is reported as a configuration error. *)
Theorem configuration_error_iff_key_missing (E : Engine) (API_KEY : Env) (remote : Remote) :
  (∀ prompt,
     callApi API_KEY remote prompt = Throw configurationError
     ↔ key_missing API_KEY = true)
  ∧ (∀ output,
     analyzeScriptOutput E API_KEY remote output = Throw configurationError
     ↔ key_missing API_KEY = true)
  ∧ (∀ script opts,
     runShellcheckAndLearn E API_KEY remote script opts = Throw configurationError
     ↔ key_missing API_KEY = true).
Proof.
  split_and!.
  - intros prompt. unfold callApi. destruct (key_missing API_KEY); [done|].
    split; [|done]. intros H%tryCatch_classified.
    by apply classified_not_configuration in H.
  - intros output. unfold analyzeScriptOutput. destruct (key_missing API_KEY); [done|].
    split; [|done]. intros H%tryCatch_classified.
    by apply classified_not_configuration in H.
  - intros script opts. unfold runShellcheckAndLearn.
    destruct (key_missing API_KEY); [done|].
    split; [|done]. intros H%tryCatch_classified.
    by apply classified_not_configuration in H.
Qed.

(** An operation that returns went through every step of its body. *)
Lemma Result_bind_Ok {A B} (m : Result A) (f : A → Result B) b :
  m ≫= f = Ok b → ∃ a, m = Ok a ∧ f a = Ok b.
Proof. destruct m as [a|e]; [|done]. intros H. by exists a. Qed.

Lemma tryCatch_Ok {A} (body : Result A) (h : thrown → thrown) a :
  tryCatch body (λ e, Throw (h e)) = Ok a → body = Ok a.
Proof. by destruct body. Qed.

(** X5.  Every text the generation operations return, and the corrected
    script the improvement operation returns, has no white space at either
    end. *)
Theorem gateway_texts_are_trimmed (E : Engine) (API_KEY : Env) (remote : Remote) :
  (∀ prompt text, callApi API_KEY remote prompt = Ok text → trimmed text)
  ∧ (∀ script opts r,
       runShellcheckAndLearn E API_KEY remote script opts = Ok r →
       trimmed (correctedScript r)).
Proof.
  split.
  - intros prompt text. unfold callApi. destruct (key_missing API_KEY); [done|].
    intros (raw & _ & [= <-])%tryCatch_Ok%Result_bind_Ok.
    apply cleanScriptOutput_trimmed.
  - intros script opts r. unfold runShellcheckAndLearn.
    destruct (key_missing API_KEY); [done|].
    intros (raw & _ & Hin)%tryCatch_Ok%Result_bind_Ok.
    apply (tryCatch_Ok _ (λ _, _)) in Hin.
    apply Result_bind_Ok in Hin as (doc & _ & Hin).
    apply Result_bind_Ok in Hin as (raw' & _ & Hin).
    apply Result_bind_Ok in Hin as (cleaned & Hclean & Hin).
    apply Result_bind_Ok in Hin as (? & _ & Hin).
    apply Result_bind_Ok in Hin as (summary & _ & Hin).
    apply Result_bind_Ok in Hin as (refined & _ & [= <-]).
    cbn [correctedScript].
    destruct raw'; try discriminate Hclean. injection Hclean as <-.
    apply cleanScriptOutput_trimmed.
Qed.

Lemma gateway_texts_witness :
  callApi (Some "test-api-key") (λ _, Resolved ("```sh" +:+ LF +:+ "# Footer " +:+ LF +:+ "```"))
    FooterPrompt = Ok "# Footer"
  ∧ trimmed "# Footer".
Proof.
  split; [reflexivity|].
  apply (proj1 (gateway_texts_are_trimmed Reference.engine (Some "test-api-key")
                  (λ _, Resolved ("```sh" +:+ LF +:+ "# Footer " +:+ LF +:+ "```")))
           FooterPrompt).
  reflexivity.
Defined.

(** *** Numeric scores *)

(** The number of [0..100] nearest to [q]. *)
Definition nearest_score (q : Q) : Q :=
  if negb (Qle_bool 0 q) then 0 else if negb (Qle_bool q 100) then 100 else q.

Lemma Qle_bool_false_lt a b : Qle_bool a b = false → (b < a)%Q.
Proof.
  intros H. apply Qnot_le_lt. rewrite <-Qle_bool_iff. congruence.
Qed.

(** The score the operation settles on for what the response holds under
    [securityScore]: a number is brought into range, an absent score, [null]
    and [false] count as 0 and [true] as 1. *)
Definition settled_score (v : value) : option Q :=
  match v with
  | VNumber (Fin q) => Some (nearest_score q)
  | VUndefined | VNull | VBool false => Some 0%Q
  | VBool true => Some 1%Q
  | _ => None
  end.

Lemma clamp_finite E q :
  (if score_needs_clamping (VNumber (Fin q)) then
     n ← Js.ToNumber E (Js.or (VNumber (Fin q)) (VNumber (Fin 0)));
     Ok (VNumber (clamp n))
   else Ok (VNumber (Fin q)))
  = Ok (VNumber (Fin (nearest_score q))).
Proof.
  unfold nearest_score, clamp. simpl.
  destruct (Qle_bool 0 q) eqn:H0; simpl.
  - (* 0 <= q *)
    destruct (Qle_bool q 100) eqn:H100; simpl; [done|].
    apply Qle_bool_false_lt in H100.
    assert (Qeq_bool q 0 = false) as Hne.
    { apply not_true_is_false. intros Heq%Qeq_bool_iff. rewrite Heq in H100. done. }
    assert (Qle_bool 100 q = true) as Hle.
    { by apply Qle_bool_iff, Qlt_le_weak. }
    unfold Js.or. simpl. rewrite Hne. simpl. rewrite Hle. simpl. done.
  - (* q < 0 *)
    apply Qle_bool_false_lt in H0.
    assert (Qeq_bool q 0 = false) as Hne.
    { apply not_true_is_false. intros Heq%Qeq_bool_iff. rewrite Heq in H0. done. }
    assert (Qle_bool 100 q = false) as Hle.
    { apply not_true_is_false. rewrite Qle_bool_iff. intros H100.
      assert (100 < 0)%Q by (eapply Qle_lt_trans; eauto). done. }
    assert (Qle_bool q 0 = true) as Hq0.
    { by apply Qle_bool_iff, Qlt_le_weak. }
    unfold Js.or. simpl. rewrite Hne. simpl. rewrite Hle. simpl. rewrite Hq0. done.
Qed.

(** X6.  When the response parses to an object, the analysis returns the
    text it holds as it is, and the score it settles on: a number below 0
    becomes 0, one above 100 becomes 100 and one in range is kept; an absent
    score, [null] and [false] give 0, and [true] gives 1. *)
Theorem analyze_settles_score (E : Engine) (API_KEY : Env) (remote : Remote)
    (output text : string) (fields : list (string * value)) (q : Q) :
  key_missing API_KEY = false →
  remote (AnalysisPrompt output) = Resolved text →
  JSON_parse E text = Some (VObject fields) →
  settled_score (Js.lookup_field fields "securityScore") = Some q →
  analyzeScriptOutput E API_KEY remote output
  = Ok {| analysisText := Js.lookup_field fields "analysisText";
          securityScore := VNumber (Fin q) |}.
Proof.
  intros Hkey Hr Hp Hs. unfold analyzeScriptOutput.
  rewrite Hkey, Hr. simpl. unfold JSON_parse_or_throw. rewrite Hp. simpl.
  destruct (Js.lookup_field fields "securityScore") as [| |[]|[| | |q0]| | |];
    simplify_eq/=; try done.
  pose proof (clamp_finite E q0) as Hc. unfold clamp in Hc. simpl in Hc.
  unfold mret, Result_ret. by rewrite Hc.
Qed.


Lemma analyze_settles_score_witness :
  analyze_reply score_150
  = Ok {| analysisText := VString "Perfect!"; securityScore := VNumber (Fin 100) |}
  ∧ analyze_reply score_minus_10
    = Ok {| analysisText := VString "Something is wrong"; securityScore := VNumber (Fin 0) |}.
Proof.
  split.
  - apply (analyze_settles_score Reference.engine (Some "test-api-key")
             (λ _, Resolved score_150) "..." score_150
             [("analysisText", VString "Perfect!"); ("securityScore", VNumber (Fin 150))]
             100); reflexivity.
  - apply (analyze_settles_score Reference.engine (Some "test-api-key")
             (λ _, Resolved score_minus_10) "..." score_minus_10
             [("analysisText", VString "Something is wrong");
              ("securityScore", VNumber (Fin (-10)))]
             0); reflexivity.
Defined.


(** X7.  The colour of the score indicator is the same for a score and for
    its clamped value: bringing a score into the range 0 to 100 never moves
    it across the thresholds 50 and 80. *)
Theorem clamping_keeps_the_colour (n : number) :
  AnalysisDisplay.getScoreColor (clamp n) = AnalysisDisplay.getScoreColor n.
Proof.
  destruct n as [| | |q]; [reflexivity..|].
  unfold clamp, AnalysisDisplay.getScoreColor, Js.number_max, Js.number_min.
  cbn [Js.number_lt].
  destruct (Qle_bool 100 q) eqn:H100; cbn [negb].
  - (* 100 <= q *)
    apply Qle_bool_iff in H100.
    assert (Qle_bool 50 q = true) as ->.
    { apply Qle_bool_iff. eapply Qle_trans; [|exact H100]. done. }
    assert (Qle_bool 80 q = true) as ->.
    { apply Qle_bool_iff. eapply Qle_trans; [|exact H100]. done. }
    reflexivity.
  - cbn [Js.number_lt].
    destruct (Qle_bool q 0) eqn:H0; cbn [negb Js.number_lt]; [|done].
    apply Qle_bool_iff in H0.
    assert (Qle_bool 50 q = false) as ->.
    { apply not_true_is_false. rewrite Qle_bool_iff. intros H.
      assert (50 <= 0)%Q by (eapply Qle_trans; eauto). done. }
    reflexivity.
Qed.


(** ** The option index of any catalog *)

Section IndexFacts.

Context {X V : Type} (key : X → string) (val : X → V).

Lemma JsMap_set_keys_NoDup (m : JsMap.t V) k v :
  NoDup (JsMap.keys m) → NoDup (JsMap.keys (JsMap.set m k v)).
Proof.
  unfold JsMap.keys. induction m as [|[k0 v0] m IH]; simpl.
  - intros _. apply NoDup_singleton.
  - rewrite NoDup_cons. intros [Hk0 Hnd].
    destruct (decide (k0 = k)) as [->|Hne]; simpl; rewrite NoDup_cons; [done|].
    split; [|by apply IH].
    intros Hin. apply Hk0.
    apply (keys_set k0 m k v) in Hin as [?|?]; [done|congruence].
Qed.

Lemma set_all_keys_NoDup xs (m : JsMap.t V) :
  NoDup (JsMap.keys m) → NoDup (JsMap.keys (set_all key val xs m)).
Proof.
  revert m; induction xs as [|x xs IH]; intros m Hm; simpl; [done|].
  by apply IH, JsMap_set_keys_NoDup.
Qed.

Lemma set_all_snoc xs x (m : JsMap.t V) :
  set_all key val (xs ++ [x]) m = JsMap.set (set_all key val xs m) (key x) (val x).
Proof. unfold set_all. by rewrite fold_left_app. Qed.

(** The binding of a key is the last one that was set. *)
Lemma get_set_all_last xs k :
  JsMap.get (set_all key val xs []) k
  = val <$> last (filter (λ x, key x = k) xs).
Proof.
  induction xs as [|x xs IH] using rev_ind; [done|].
  rewrite set_all_snoc, JsMap_get_set, filter_app, IH.
  rewrite filter_cons, filter_nil. case_decide as Hk.
  - by rewrite last_snoc.
  - by rewrite app_nil_r.
Qed.

Lemma JsMap_get_elem (m : JsMap.t V) k v :
  NoDup (JsMap.keys m) → (k, v) ∈ m → JsMap.get m k = Some v.
Proof.
  unfold JsMap.keys. induction m as [|[k0 v0] m IH]; simpl.
  - intros _ Hin. by apply elem_of_nil in Hin.
  - rewrite NoDup_cons. intros [Hk0 Hnd] [[= -> ->]|Hin]%elem_of_cons.
    + by rewrite decide_True.
    + rewrite decide_False; [by apply IH|].
      intros ->. apply Hk0. by apply (list_elem_of_fmap_2 fst _ (k, v)).
Qed.

Lemma JsMap_set_fresh (m : JsMap.t V) k v :
  k ∉ JsMap.keys m → JsMap.set m k v = m ++ [(k, v)].
Proof.
  unfold JsMap.keys. induction m as [|[k0 v0] m IH]; simpl; [done|].
  rewrite not_elem_of_cons. intros [Hne Hk].
  rewrite decide_False by done. by rewrite IH.
Qed.

Lemma set_all_fresh xs :
  NoDup (key <$> xs) → set_all key val xs [] = (λ x, (key x, val x)) <$> xs.
Proof.
  induction xs as [|x xs IH] using rev_ind; [done|].
  rewrite fmap_app, NoDup_app. intros (Hxs & Hx & _).
  rewrite set_all_snoc, IH, fmap_app by done.
  apply JsMap_set_fresh. unfold JsMap.keys.
  rewrite <-list_fmap_compose. intros (y & Hy & Hin)%list_elem_of_fmap.
  simpl in Hy. apply (Hx (key x)); [|by left].
  rewrite Hy. by apply list_elem_of_fmap_2.
Qed.

End IndexFacts.

Lemma index_values_keyed levels :
  Forall (λ kv, id kv.2 = kv.1) (idToOptionMap (lookups_of levels)).
Proof.
  rewrite lookups_of_spec. cbn [idToOptionMap].
  generalize (catalog_options levels). intros xs.
  assert (∀ m : JsMap.t HardeningOption,
            Forall (λ kv, id kv.2 = kv.1) m →
            Forall (λ kv, id kv.2 = kv.1) (set_all id (λ o, o) xs m)) as H.
  { induction xs as [|x xs IH]; intros m Hm; simpl; [done|]. apply IH.
    clear IH. induction m as [|[k0 v0] m IHm]; simpl.
    - by repeat constructor.
    - apply Forall_cons in Hm as [H0 Hm]. case_decide.
      + by constructor.
      + constructor; [done|by apply IHm]. }
  by apply H.
Qed.

Lemma index_ids_are_keys levels :
  id <$> allOptionsFromLevels_of (lookups_of levels)
  = JsMap.keys (idToOptionMap (lookups_of levels)).
Proof.
  unfold allOptionsFromLevels_of, JsMap.values, JsMap.keys.
  pose proof (index_values_keyed levels) as H.
  induction H as [|[k o] m Hk _ IH]; [done|].
  rewrite !fmap_cons. simpl in *. by f_equal.
Qed.

(** X8.  For every catalog the index keeps one option per id: the options
    of [allOptionsFromLevels] have pairwise distinct ids, these are exactly
    the ids of the options of the catalog, the option kept under an id is
    the last one with that id in reading order, and looking up the id of an
    option of [allOptionsFromLevels] returns that option. *)
Theorem index_holds_one_option_per_id (levels : list ParanoiaLevel) :
  let all := allOptionsFromLevels_of (lookups_of levels) in
  NoDup (id <$> all)
  ∧ (∀ i, i ∈ id <$> all ↔ i ∈ id <$> catalog_options levels)
  ∧ (∀ i, JsMap.get (idToOptionMap (lookups_of levels)) i
          = last (filter (λ o, id o = i) (catalog_options levels)))
  ∧ (∀ o, o ∈ all → JsMap.get (idToOptionMap (lookups_of levels)) (id o) = Some o).
Proof.
  cbn zeta. rewrite index_ids_are_keys.
  assert (NoDup (JsMap.keys (idToOptionMap (lookups_of levels)))) as Hnd.
  { rewrite lookups_of_spec. cbn [idToOptionMap].
    apply set_all_keys_NoDup. constructor. }
  split_and!.
  - done.
  - intros i. rewrite lookups_of_spec. cbn [idToOptionMap].
    rewrite (keys_set_all id (λ o, o)).
    split; [intros [Hn|?]; [by apply elem_of_nil in Hn|done] | by right].
  - intros i. rewrite lookups_of_spec. cbn [idToOptionMap].
    rewrite (get_set_all_last id (λ o, o)). by rewrite option_fmap_id.
  - intros o Ho. unfold allOptionsFromLevels_of, JsMap.values in Ho.
    apply list_elem_of_fmap in Ho as ([k o'] & -> & Hin).
    pose proof (index_values_keyed levels) as Hk. rewrite Forall_forall in Hk.
    specialize (Hk _ Hin). simpl in *. rewrite Hk. by apply JsMap_get_elem.
Qed.

(** X9.  In a catalog whose ids are pairwise distinct, non-empty and other
    than [__proto__], [allOptionsFromLevels] lists the options in reading
    order, looking up the id of an option returns the option, and the parent
    map binds the id of an option to the id of the option that holds it
    among its sub-options, and to nothing else. *)
Theorem well_keyed_index_round_trip (levels : list ParanoiaLevel) :
  well_keyed levels →
  allOptionsFromLevels_of (lookups_of levels) = catalog_options levels
  ∧ (∀ o, o ∈ catalog_options levels →
          JsMap.get (idToOptionMap (lookups_of levels)) (id o) = Some o)
  ∧ (∀ K p, K ∈ catalog_options levels →
          JsMap.get (parentMap (lookups_of levels)) (id K) = Some p
          ↔ ∃ P, P ∈ catalog_options levels ∧ K ∈ kids P ∧ p = id P).
Proof.
  intros Hwf. split_and!.
  - unfold allOptionsFromLevels_of, JsMap.values.
    rewrite lookups_of_spec. cbn [idToOptionMap].
    rewrite (set_all_fresh id (λ o, o)) by apply Hwf.
    rewrite <-list_fmap_compose. apply list_fmap_id.
  - intros o Ho. by apply lookup_option.
  - intros K p HK. split.
    + intros (P & K' & HP & HK' & Heq & ->)%(lookup_parent_Some levels Hwf).
      exists P. split_and!; [done| |done].
      assert (K = K') as ->; [|done].
      apply (id_inj levels Hwf); [done|by eapply kid_in_forest|done].
    + intros (P & HP & HKP & ->). by apply lookup_parent.
Qed.

(** The catalog of the nine undivided containers has usable keys. *)
Lemma unsplit_catalog_well_keyed : well_keyed unsplit_catalog.
Proof. apply (bool_decide_unpack (well_keyed unsplit_catalog)). by vm_compute. Defined.

Lemma well_keyed_index_witness :
  allOptionsFromLevels_of (lookups_of unsplit_catalog) = catalog_options unsplit_catalog
  ∧ JsMap.get (parentMap (lookups_of unsplit_catalog)) "ssh" = Some "networkSecurity".
Proof.
  destruct (well_keyed_index_round_trip unsplit_catalog unsplit_catalog_well_keyed)
    as (Hall & _ & Hparent).
  split; [exact Hall|].
  apply (Hparent allOptions.ssh "networkSecurity").
  - apply (list_elem_of_lookup_2 _ 6). reflexivity.
  - exists networkSecurityParent. split_and!; [|by right; left|reflexivity].
    apply (list_elem_of_lookup_2 _ 4). reflexivity.
Defined.

(** ** The selection before any click *)

Lemma initialSelections_all_false (L : Lookups) (k : string) (b : bool) :
  initialSelections_of L !! k = Some b → b = false.
Proof.
  unfold initialSelections_of. generalize (JsMap.keys (idToOptionMap L)). intros ks.
  assert (∀ m : gmap string bool,
            (∀ k b, m !! k = Some b → b = false) →
            ∀ k b, fold_left (λ acc key, JsObject.set acc key false) ks m !! k = Some b →
                   b = false) as H.
  { induction ks as [|k0 ks IH]; intros m Hm k' b'; simpl; [apply Hm|].
    apply IH. intros k1 b1. unfold JsObject.set. case_decide; [apply Hm|].
    destruct (decide (k0 = k1)) as [->|Hne].
    - rewrite lookup_insert_eq. congruence.
    - rewrite lookup_insert_ne by done. apply Hm. }
  apply H. intros k1 b1. by rewrite lookup_empty.
Qed.

Lemma initialSelections_own_keys (L : Lookups) (k : string) :
  k ∈ JsMap.keys (idToOptionMap L) → k ≠ "__proto__" →
  initialSelections_of L !! k = Some false.
Proof.
  unfold initialSelections_of. generalize (JsMap.keys (idToOptionMap L)). intros ks.
  generalize (∅ : gmap string bool).
  induction ks as [|k0 ks IH] using rev_ind; intros m Hin Hk;
    [by apply elem_of_nil in Hin|].
  rewrite fold_left_app. cbn [fold_left]. unfold JsObject.set at 1.
  apply elem_of_app in Hin as [Hin|Hin%list_elem_of_singleton].
  - case_decide; [by apply IH|].
    destruct (decide (k0 = k)) as [->|Hne].
    + by rewrite lookup_insert_eq.
    + rewrite lookup_insert_ne by done. by apply IH.
  - subst k0. rewrite decide_False by done. by rewrite lookup_insert_eq.
Qed.

(** X10.  Before any click nothing is selected, in any catalog: no value
    of the initial selection is [true], and the id of each option (other
    than [__proto__]) is an own key with the value [false]. *)
Theorem nothing_selected_at_start (levels : list ParanoiaLevel) :
  let sel := initialSelections_of (lookups_of levels) in
  existsb (λ b, b) (JsObject.values sel) = false
  ∧ (∀ o, o ∈ catalog_options levels → id o ≠ "__proto__" → sel !! id o = Some false).
Proof.
  cbn zeta. split.
  - apply not_true_is_false. intros (b & Hb & ->)%existsb_exists.
    apply list_elem_of_In in Hb. unfold JsObject.values in Hb.
    apply list_elem_of_fmap in Hb as ([k b] & Heq & Hin). simpl in Heq. subst b.
    apply elem_of_map_to_list in Hin.
    by apply initialSelections_all_false in Hin.
  - intros o Ho Hne. apply initialSelections_own_keys; [|done].
    rewrite lookups_of_spec. cbn [idToOptionMap].
    apply (keys_set_all id (λ o, o)). right. by apply list_elem_of_fmap_2.
Qed.



(** ** What a click changes *)

Lemma descendants_trans X D Y :
  D ∈ descendants X → Y ∈ descendants D → Y ∈ descendants X.
Proof.
  intros HD HY. apply getAllOptionsRecursively_sublist in HD.
  eapply elem_of_sublist; [|exact HD].
  rewrite option_and_descendants_eq. by right.
Qed.

Section Clicks.

Variable levels : list ParanoiaLevel.
Hypothesis Hwf : well_keyed levels.

Let A := catalog_options levels.
Let L := lookups_of levels.

(** The options above [X]. *)
Definition above (X P : HardeningOption) : Prop :=
  P ∈ catalog_options levels ∧ X ∈ descendants P.

Lemma subtree_in_catalog X o : X ∈ A → o ∈ option_and_descendants X → o ∈ A.
Proof.
  intros HX Ho. eapply elem_of_sublist; [exact Ho|].
  by apply getAllOptionsRecursively_sublist.
Qed.

Lemma not_above_itself X D : X ∈ A → D ∈ option_and_descendants X → ¬ above X D.
Proof.
  intros HX HD [_ HXD].
  rewrite option_and_descendants_eq in HD. apply elem_of_cons in HD as [->|HD].
  - by apply (id_not_below levels Hwf X X).
  - apply (id_not_below levels Hwf X X); [done| |done].
    by apply (descendants_trans X D X).
Qed.

(** The upward loop ends, whatever the state. *)
Lemma propagate_up_ends b : ∀ fuel C sel,
  C ∈ A →
  length A < fuel + length (option_and_descendants C) →
  ∃ sel', propagate_up L b fuel sel (JsMap.get (parentMap L) (id C)) = Some sel'.
Proof.
  induction fuel as [|fuel IH]; intros C sel HC Hfuel.
  { apply getAllOptionsRecursively_sublist, sublist_length in HC.
    fold (catalog_options levels) in HC. fold A in HC. lia. }
  destruct (JsMap.get (parentMap L) (id C)) as [p|] eqn:Hp; [|by exists sel].
  apply (lookup_parent_Some levels Hwf) in Hp as (P & K & HP & HK & HidK & ->).
  assert (K = C) as ->.
  { apply (id_inj levels Hwf); [by eapply kid_in_forest|done|done]. }
  cbn [propagate_up]. rewrite (id_truthy levels Hwf) by done.
  fold L. unfold L at 1. rewrite (lookup_option levels Hwf P HP). cbn [mbind option_bind].
  destruct (subOptions P) as [subs|] eqn:Hsubs; [|by eexists].
  apply (IH P); [done|]. pose proof (kid_weight P C HK). lia.
Qed.

(** It writes under the ids of the options above the one it starts from, and
    nowhere else. *)
Lemma propagate_up_frame b k : ∀ fuel C sel sel',
  C ∈ A →
  propagate_up L b fuel sel (JsMap.get (parentMap L) (id C)) = Some sel' →
  (∀ P, above C P → k ≠ id P) →
  JsObject.get sel' k = JsObject.get sel k.
Proof.
  induction fuel as [|fuel IH]; intros C sel sel' HC Hrun Hk.
  - destruct (JsMap.get (parentMap L) (id C)) as [p|] eqn:Hp; [|by injection Hrun as <-].
    apply (lookup_parent_Some levels Hwf) in Hp as (P & K & HP & HK & HidK & ->).
    cbn [propagate_up] in Hrun. by rewrite (id_truthy levels Hwf) in Hrun.
  - destruct (JsMap.get (parentMap L) (id C)) as [p|] eqn:Hp; [|by injection Hrun as <-].
    apply (lookup_parent_Some levels Hwf) in Hp as (P & K & HP & HK & HidK & ->).
    assert (K = C) as ->.
    { apply (id_inj levels Hwf); [by eapply kid_in_forest|done|done]. }
    cbn [propagate_up] in Hrun. rewrite (id_truthy levels Hwf) in Hrun by done.
    unfold L in Hrun at 1. rewrite (lookup_option levels Hwf P HP) in Hrun.
    cbn [mbind option_bind] in Hrun.
    assert (k ≠ id P) as Hne.
    { apply Hk. split; [done|]. by apply kid_in_descendants. }
    destruct (subOptions P) as [subs|] eqn:Hsubs; [|by injection Hrun as <-].
    fold L in Hrun. apply (IH P) in Hrun; [|done|].
    + rewrite Hrun. destruct (negb b); by rewrite JsObject_get_set_ne.
    + intros Q [HQ HPQ]. apply Hk. split; [done|].
      eapply kid_below; [|exact HK]. rewrite option_and_descendants_eq. by right.
Qed.

Lemma handleOptionChange_ends X sel :
  X ∈ A → ∃ sel', handleOptionChange L (length A) (id X) sel = Some sel'.
Proof.
  intros HX. unfold handleOptionChange. apply propagate_up_ends; [done|].
  rewrite option_and_descendants_eq. simpl. lia.
Qed.

Lemma handleOptionChange_effect fuel X sel sel' :
  X ∈ A →
  handleOptionChange L fuel (id X) sel = Some sel' →
  (∀ D, D ∈ option_and_descendants X → selected sel' D = negb (selected sel X))
  ∧ (∀ k, k ∉ id <$> option_and_descendants X → (∀ P, above X P → k ≠ id P) →
          JsObject.get sel' k = JsObject.get sel k).
Proof.
  intros HX. unfold handleOptionChange.
  set (b := negb (JsObject.get sel (id X))).
  pose proof (lookup_option levels Hwf X HX) as HlX. fold L in HlX. rewrite HlX.
  set (sel1 := fold_left (λ acc d, JsObject.set acc (id d) b) (descendants X)
                 (JsObject.set sel (id X) b)).
  assert (match Some X ≫= subOptions with
          | Some subs =>
              fold_left (λ acc d, JsObject.set acc (id d) b)
                (getAllOptionsRecursively subs) (JsObject.set sel (id X) b)
          | None => JsObject.set sel (id X) b
          end = sel1) as ->.
  { subst sel1. unfold descendants, kids. cbn [mbind option_bind].
    by destruct (subOptions X). }
  assert (∀ k, JsObject.get sel1 k
               = if decide (k ∈ id <$> option_and_descendants X) then b
                 else JsObject.get sel k) as Hsel1.
  { intros k. subst sel1. rewrite set_descendants.
    2:{ apply Forall_forall. intros d Hd. apply (id_not_proto levels Hwf).
        apply (subtree_in_catalog X); [done|].
        rewrite option_and_descendants_eq. by right. }
    rewrite JsObject_get_set by (by apply (id_not_proto levels Hwf)).
    rewrite option_and_descendants_eq, fmap_cons.
    destruct (decide (k ∈ id <$> descendants X)) as [Hin|Hnotin].
    - rewrite decide_True; [done|]. by right.
    - destruct (decide (id X = k)) as [Heq|Hne].
      + rewrite decide_True; [done|]. rewrite <-Heq. by left.
      + rewrite decide_False; [done|]. rewrite not_elem_of_cons. split; [congruence|done]. }
  intros Hrun. split.
  - intros D HD. unfold selected.
    rewrite (propagate_up_frame _ _ _ _ _ _ HX Hrun).
    + rewrite Hsel1, decide_True; [done|]. by apply list_elem_of_fmap_2.
    + intros P HP Heq.
      assert (D = P) as ->.
      { apply (id_inj levels Hwf); [by apply (subtree_in_catalog X)|apply HP|done]. }
      by apply (not_above_itself X P).
  - intros k Hk Habove.
    rewrite (propagate_up_frame _ _ _ _ _ _ HX Hrun) by done.
    by rewrite Hsel1, decide_False.
Qed.

(** A closed state is known from the boxes of the options without
    children. *)
Lemma closed_state_determined sel sel' :
  tri_state A sel → tri_state A sel' →
  (∀ o, o ∈ A → kids o = [] → selected sel o = selected sel' o) →
  ∀ o, o ∈ A → selected sel o = selected sel' o.
Proof.
  intros Hsel Hsel' Hleaves o.
  induction o as [o IH] using option_nested_ind. intros Ho.
  destruct (kids o) as [|K ks] eqn:Hk; [by apply Hleaves|].
  rewrite (Hsel o Ho), (Hsel' o Ho) by (by rewrite Hk).
  apply forallb_ext_in. intros K' HK'.
  assert (K' ∈ A) as HKA by (by eapply kid_in_forest).
  unfold kids in HK'. destruct (subOptions o) as [subs|] eqn:Hsubs;
    [|by apply elem_of_nil in HK'].
  specialize (IH subs eq_refl). rewrite Forall_forall in IH. by apply IH.
Qed.

Lemma leaf_twice X sel :
  X ∈ A → kids X = [] → tri_state A sel →
  ∃ sel1 sel2,
    handleOptionChange L (length A) (id X) sel = Some sel1
    ∧ handleOptionChange L (length A) (id X) sel1 = Some sel2
    ∧ ∀ k, JsObject.get sel2 k = JsObject.get sel k.
Proof.
  intros HX Hleaf Hsel.
  destruct (handleOptionChange_closes levels Hwf X sel HX Hsel) as (sel1 & Hrun1 & Hsel1).
  destruct (handleOptionChange_closes levels Hwf X sel1 HX Hsel1) as (sel2 & Hrun2 & Hsel2).
  fold A L in Hrun1, Hrun2, Hsel1, Hsel2.
  exists sel1, sel2. split_and!; [done..|].
  destruct (handleOptionChange_effect _ X sel sel1 HX Hrun1) as [Hsub1 Hrest1].
  destruct (handleOptionChange_effect _ X sel1 sel2 HX Hrun2) as [Hsub2 Hrest2].
  assert (option_and_descendants X = [X]) as Htree.
  { rewrite option_and_descendants_eq. unfold descendants. by rewrite Hleaf. }
  rewrite Htree in *.
  assert (∀ o, o ∈ A → selected sel2 o = selected sel o) as Hopts.
  { apply closed_state_determined; [done..|]. intros o Ho Hko.
    destruct (decide (id o = id X)) as [Heq|Hne].
    - assert (o = X) as -> by (by apply (id_inj levels Hwf)).
      rewrite Hsub2, Hsub1 by (by left). by rewrite negb_involutive.
    - unfold selected.
      assert (∀ P, above X P → id o ≠ id P) as Hab.
      { intros P [HP HXP] Heq.
        assert (o = P) as -> by (by apply (id_inj levels Hwf)).
        unfold descendants in HXP. rewrite Hko in HXP. by apply elem_of_nil in HXP. }
      rewrite Hrest2, Hrest1; [done|..]; try done.
      all: rewrite fmap_cons, fmap_nil, list_elem_of_singleton; done. }
  intros k. destruct (decide (k ∈ id <$> A)) as [Hin|Hnotin].
  - apply list_elem_of_fmap in Hin as (o & -> & Ho). by apply Hopts.
  - assert (k ∉ id <$> [X]) as HkX.
    { rewrite fmap_cons, fmap_nil, list_elem_of_singleton. intros ->.
      apply Hnotin. by apply list_elem_of_fmap_2. }
    assert (∀ P, above X P → k ≠ id P) as Hab.
    { intros P [HP _] ->. apply Hnotin. by apply list_elem_of_fmap_2. }
    by rewrite Hrest2, Hrest1.
Qed.

End Clicks.

(** X11.  In a catalog with usable keys a click on an option returns,
    whatever the state; it gives the option and every option below it the
    negation of what the option's box read, and it leaves as it was every key
    that is neither an id of that subtree nor the id of an option above the
    clicked one. *)
Theorem click_sets_subtree_and_spares_the_rest
    (levels : list ParanoiaLevel) (X : HardeningOption) (sel : gmap string bool) :
  well_keyed levels →
  X ∈ catalog_options levels →
  ∃ sel',
    handleOptionChange (lookups_of levels) (length (catalog_options levels)) (id X) sel
    = Some sel'
    ∧ (∀ D, D ∈ option_and_descendants X → selected sel' D = negb (selected sel X))
    ∧ (∀ k, k ∉ id <$> option_and_descendants X →
            (∀ P, above levels X P → k ≠ id P) →
            JsObject.get sel' k = JsObject.get sel k).
Proof.
  intros Hwf HX.
  destruct (handleOptionChange_ends levels Hwf X sel HX) as [sel' Hrun].
  exists sel'. split; [done|].
  by apply (handleOptionChange_effect levels Hwf (length (catalog_options levels)) X).
Qed.

(** X12.  In a catalog with usable keys, two clicks on an option without
    children, from a state in which every container is selected exactly
    when all its children are, restore what every key reads as. *)
Theorem leaf_double_click_restores
    (levels : list ParanoiaLevel) (X : HardeningOption) (sel : gmap string bool) :
  well_keyed levels →
  X ∈ catalog_options levels →
  kids X = [] →
  tri_state (catalog_options levels) sel →
  ∃ sel1 sel2,
    handleOptionChange (lookups_of levels) (length (catalog_options levels)) (id X) sel
    = Some sel1
    ∧ handleOptionChange (lookups_of levels) (length (catalog_options levels)) (id X) sel1
      = Some sel2
    ∧ ∀ k, JsObject.get sel2 k = JsObject.get sel k.
Proof. intros Hwf. by apply leaf_twice. Qed.

Lemma click_sets_subtree_witness :
  ∃ sel',
    handleOptionChange (lookups_of unsplit_catalog)
      (length (catalog_options unsplit_catalog)) "networkSecurity"
      (initialSelections_of (lookups_of unsplit_catalog)) = Some sel'
    ∧ selected sel' allOptions.fail2ban = true
    ∧ JsObject.get sel' "updates" = false.
Proof.
  destruct (click_sets_subtree_and_spares_the_rest unsplit_catalog networkSecurityParent
              (initialSelections_of (lookups_of unsplit_catalog))
              unsplit_catalog_well_keyed)
    as (sel' & Hrun & Hsub & Hrest).
  { apply (list_elem_of_lookup_2 _ 4). reflexivity. }
  exists sel'. split; [exact Hrun|]. split.
  - rewrite (Hsub allOptions.fail2ban); [by vm_compute|].
    apply (list_elem_of_lookup_2 _ 4). reflexivity.
  - rewrite (Hrest "updates"); [by vm_compute| |].
    + apply (bool_decide_unpack _). by vm_compute.
    + intros P [HP HX] Heq.
      assert (P = allOptions.updates) as ->.
      { apply (id_inj unsplit_catalog unsplit_catalog_well_keyed); [done| |done].
        apply (list_elem_of_lookup_2 _ 1). reflexivity. }
      assert (descendants allOptions.updates = []) as Hleaf by reflexivity.
      rewrite Hleaf in HX. exact (proj1 (elem_of_nil _) HX).
Defined.

Lemma leaf_double_click_witness :
  ∃ sel1 sel2,
    handleOptionChange (lookups_of unsplit_catalog)
      (length (catalog_options unsplit_catalog)) "ssh"
      (initialSelections_of (lookups_of unsplit_catalog)) = Some sel1
    ∧ handleOptionChange (lookups_of unsplit_catalog)
        (length (catalog_options unsplit_catalog)) "ssh" sel1 = Some sel2
    ∧ ∀ k, JsObject.get sel2 k
           = JsObject.get (initialSelections_of (lookups_of unsplit_catalog)) k.
Proof.
  apply (leaf_double_click_restores unsplit_catalog allOptions.ssh
           (initialSelections_of (lookups_of unsplit_catalog))
           unsplit_catalog_well_keyed).
  - apply (list_elem_of_lookup_2 _ 6). reflexivity.
  - reflexivity.
  - apply initialSelections_tri_state, unsplit_catalog_well_keyed.
Defined.

(** ** Suggested prompts *)

(** The custom prompt after the suggestions were clicked, one click each. *)
Definition click_suggestions (suggestions : list string) (prev : string) : string :=
  fold_left (λ acc p, handleSuggestedPromptClick p acc) suggestions prev.

(** A line: a text with no white space at either end, and not empty. *)
Definition is_line (s : string) : Prop := trimmed s ∧ s ≠ "".

Lemma append_is_line a b : is_line a → is_line b → is_line (a +:+ LF +:+ b).
Proof.
  intros [[Has Hae]%trimmed_ends Ha] [[Hbs Hbe]%trimmed_ends Hb]. split.
  - apply ends_trimmed.
    + by apply trimStart_app.
    + rewrite trimEnd_app by (by rewrite trimEnd_app; rewrite Hbe; destruct b).
      f_equal. rewrite trimEnd_app by (by rewrite Hbe). by rewrite Hbe.
  - destruct a; [done|discriminate].
Qed.

Lemma concat_LF_cons a p ps :
  String.concat LF ((a +:+ LF +:+ p) :: ps) = a +:+ LF +:+ String.concat LF (p :: ps).
Proof.
  destruct ps as [|q qs]; [done|].
  cbn [String.concat]. by rewrite !append_assoc_String.
Qed.

Lemma click_suggestions_lines ps : ∀ acc,
  is_line acc → Forall is_line ps →
  click_suggestions ps acc = String.concat LF (acc :: ps).
Proof.
  induction ps as [|p ps IH]; intros acc Hacc Hps; [done|].
  apply Forall_cons in Hps as [Hp Hps]. cbn [click_suggestions fold_left].
  unfold handleSuggestedPromptClick at 2.
  destruct Hacc as [Htrim Hne]. rewrite Htrim.
  rewrite bool_decide_eq_false_2 by done.
  fold (click_suggestions ps (acc +:+ LF +:+ p)).
  rewrite IH; [|by apply append_is_line|done].
  apply concat_LF_cons.
Qed.

(** X13.  Clicking suggestions that are lines puts them on lines of their
    own, in the order of the clicks, after the trimmed text the prompt held;
    a blank prompt is replaced by the first suggestion. *)
Theorem suggestions_join_lines (prev p : string) (ps : list string) :
  Forall is_line (p :: ps) →
  click_suggestions (p :: ps) prev
  = String.concat LF
      ((if bool_decide (JsString.trim prev = "") then [] else [JsString.trim prev])
       ++ p :: ps).
Proof.
  intros Hps. cbn [click_suggestions fold_left].
  unfold handleSuggestedPromptClick at 2. case_bool_decide as Hblank.
  - fold (click_suggestions ps p). apply Forall_cons in Hps as [Hp Hps].
    by apply click_suggestions_lines.
  - fold (click_suggestions ps (JsString.trim prev +:+ LF +:+ p)).
    apply Forall_cons in Hps as [Hp Hps].
    rewrite click_suggestions_lines; [|apply append_is_line; [|done]|done].
    + apply concat_LF_cons.
    + split; [apply trim_idemp|done].
Qed.

(** Every suggestion of [constants.ts] is a line. *)
Lemma shipped_suggestions_are_lines : Forall is_line (promptText <$> SUGGESTED_PROMPTS).
Proof. repeat constructor; by vm_compute. Qed.


(** The first two suggestions of [constants.ts]. *)
Definition first_suggestion : string :=
  default "" (promptText <$> SUGGESTED_PROMPTS !! 0).
Definition second_suggestion : string :=
  default "" (promptText <$> SUGGESTED_PROMPTS !! 1).

Lemma suggestions_join_lines_witness :
  click_suggestions [first_suggestion; second_suggestion] "  "
  = first_suggestion +:+ LF +:+ second_suggestion
  ∧ click_suggestions [first_suggestion] " block port 23 "
    = "block port 23" +:+ LF +:+ first_suggestion.
Proof.
  split.
  - apply (suggestions_join_lines "  " first_suggestion [second_suggestion]).
    repeat constructor; by vm_compute.
  - apply (suggestions_join_lines " block port 23 " first_suggestion []).
    repeat constructor; by vm_compute.
Defined.

(** ** The generation pipeline: complete runs, and what a run leaves alone *)

Lemma leading_successes_Ok (outs : list string) :
  leading_successes (Ok <$> outs) = (outs, None).
Proof.
  induction outs as [|s outs IH]; [done|].
  rewrite fmap_cons. cbn [leading_successes]. by rewrite IH.
Qed.

(** The cells no step of a run writes. *)
Definition cells_outside_generation (s : AppState) :=
  (selectedOptions s, customPrompt s, customExclusions s,
   isImproving s, improvingError s, improvedPromptIds s, showImprovementSuccess s).

(** The cells the section loop does not write. *)
Definition cells_outside_sections (s : AppState) :=
  (cells_outside_generation s, isLoading s, error s, lastActiveOptions s,
   isRebootRecommended s, improvedScript s, improvementSummary s).

Section Runs.

Variable L : Lookups.
Variable G : Gateway.
Variable randomJoke : nat → string.

Lemma generate_sections_spares totalSteps opts : ∀ currentStep fullScript w,
  let w' := (generate_sections G randomJoke totalSteps opts currentStep fullScript w).2 in
  cells_outside_sections (app w') = cells_outside_sections (app w)
  ∧ catalog w' = catalog w.
Proof.
  induction opts as [|o opts IH]; intros cs fs w; [done|].
  cbn [generate_sections]. run_monad.
  destruct (gw_section G (length (calls w)) o) as [s|e].
  - match goal with
    | |- context [generate_sections G randomJoke ?t opts ?c ?f ?w0] =>
        destruct (IH c f w0) as [Hcells Hcat]
    end.
    cbn zeta in *. rewrite Hcells, Hcat. destruct w as [[] ? ?]. done.
  - cbn. destruct w as [[] ? ?]. done.
Qed.

(** X14.  A generation run never writes the selection, the custom prompt,
    the exclusions, the cells that track an improvement in progress, the set
    of improved ids or the option objects.  Once past its guard it empties
    the corrected script and the summary of the ShellCheck tab, and it sets
    the reboot flag to whether some active option is indexed with
    [rebootRequired]. *)
Theorem generation_spares_the_other_cells w :
  let w' := (handleGenerateScript L G randomJoke w).2 in
  cells_outside_generation (app w') = cells_outside_generation (app w)
  ∧ catalog w' = catalog w
  ∧ (isPromptTooLong (app w) || negb (isAnyOptionSelected (app w)) = false →
     improvedScript (app w') = ""
     ∧ improvementSummary (app w') = []
     ∧ isRebootRecommended (app w')
       = rebootNeeded_of L (activeOptions_of (app w) (catalog w))).
Proof.
  cbn zeta. unfold handleGenerateScript.
  destruct (isPromptTooLong (app w) || negb (isAnyOptionSelected (app w))); [done|].
  generalize (activeOptions_of (app w) (catalog w)). intros opts.
  run_monad.
  destruct (gw_header G (length (calls w))) as [h|e].
  - match goal with
    | |- context [generate_sections G randomJoke ?t opts ?c ?f ?w0] =>
        pose proof (generate_sections_spares t opts c f w0) as [Hcells Hcat];
        destruct (generate_sections G randomJoke t opts c f w0) as [[[cs fs]|e] w1]
    end; cbn [snd app catalog calls] in *.
    + destruct (gw_footer G (length (calls w1))) as [f|e];
        destruct w as [[] ? ?], w1 as [[] ? ?]; cbn in *; simplify_eq; done.
    + destruct w as [[] ? ?], w1 as [[] ? ?]; cbn in *; simplify_eq; done.
  - destruct w as [[] ? ?]. done.
Qed.

(** X15.  When every step of a run succeeds, the handler calls the header,
    then one section per active option in their order, then the footer, and
    nothing else; the script it leaves is the header and the sections, each
    followed by a blank line, then the footer and a line feed; no error is
    set, and the loading flag and the progress are cleared. *)
Theorem complete_run_assembles_every_section w h secs f :
  isPromptTooLong (app w) = false →
  isAnyOptionSelected (app w) = true →
  step_outcomes G (length (calls w)) (activeOptions_of (app w) (catalog w))
  = Ok <$> h :: secs ++ [f] →
  let w' := (handleGenerateScript L G randomJoke w).2 in
  calls w' = calls w ++ pipeline_steps (activeOptions_of (app w) (catalog w))
  ∧ generatedScript (app w') = accumulate (h :: secs) "" +:+ f +:+ LF
  ∧ length secs = length (activeOptions_of (app w) (catalog w))
  ∧ error (app w') = None
  ∧ isLoading (app w') = false
  ∧ generationStatus (app w') = None.
Proof.
  intros Hlong Hany Hout.
  assert (length secs = length (activeOptions_of (app w) (catalog w))) as Hlen.
  { apply (f_equal length) in Hout. unfold step_outcomes in Hout.
    rewrite length_fmap in Hout. cbn [length] in Hout.
    rewrite !length_app, section_outcomes_length in Hout. cbn [length] in Hout. lia. }
  destruct (handleGenerateScript_run L G randomJoke w (h :: secs ++ [f]) None Hlong Hany)
    as (w' & -> & Hc & Hg & He & Hl & Hs & _).
  { rewrite Hout. apply leading_successes_Ok. }
  cbn [snd]. split_and!; try done.
  - rewrite Hc. f_equal. apply firstn_all2. unfold pipeline_steps.
    cbn [length]. rewrite !length_app, length_fmap. cbn [length]. lia.
  - rewrite Hg. unfold committed_script.
    change (h :: secs ++ [f]) with ((h :: secs) ++ [f]).
    by rewrite removelast_last, last_last.
Qed.

End Runs.

Lemma complete_run_witness :
  let w' := (handleGenerateScript lookups (mockGateway None) noJoke three_selected).2 in
  calls w' = [CallHeader; CallSection allOptions.firewall; CallSection allOptions.ssh;
              CallSection allOptions.sshPort; CallFooter]
  ∧ generatedScript (app w')
    = "H" +:+ LF +:+ LF +:+ "S" +:+ LF +:+ LF +:+ "S" +:+ LF +:+ LF +:+ "S" +:+ LF +:+ LF
      +:+ "F" +:+ LF.
Proof.
  pose proof (complete_run_assembles_every_section lookups (mockGateway None) noJoke
                three_selected "H" ["S"; "S"; "S"] "F" eq_refl eq_refl eq_refl)
    as (Hc & Hg & _).
  split; [exact Hc | exact Hg].
Defined.

(** ** The improvement loop: what it changes *)

(** What the panels show of an option besides its box, and what the
    reboot check reads: all that [prompt] assignments leave alone. *)
Definition option_card (o : HardeningOption) :=
  (id o, label o, description o, rebootRequired o).

(** The cells the ShellCheck handler never writes.  [lastActiveOptions] is
    among them: the array keeps its elements, the same objects, whatever
    their prompts become. *)
Definition cells_outside_improvement (s : AppState) :=
  (selectedOptions s, customPrompt s, customExclusions s, generatedScript s,
   isLoading s, error s, generationStatus s, lastActiveOptions s,
   isRebootRecommended s).

(** [o] with its prompt replaced. *)
Definition with_prompt (o : HardeningOption) (newPrompt : value) : HardeningOption := {|
  id := id o; label := label o; description := description o;
  prompt := newPrompt;
  subOptions := subOptions o; rebootRequired := rebootRequired o;
|}.

Lemma assign_prompt_card c i p :
  option_card <$> assign_prompt c i p = option_card <$> c.
Proof.
  induction c as [|o c IH]; [done|]. cbn [assign_prompt].
  case_decide; rewrite !fmap_cons; [done|]. by rewrite IH.
Qed.

Lemma card_ids (c c' : list HardeningOption) :
  option_card <$> c' = option_card <$> c → id <$> c' = id <$> c.
Proof.
  intros H. apply (f_equal (fmap (λ x : string * string * string * option bool, x.1.1.1))) in H.
  by rewrite <-!list_fmap_compose in H.
Qed.

Lemma assign_prompt_absent c i p : i ∉ id <$> c → assign_prompt c i p = c.
Proof.
  induction c as [|o c IH]; [done|]. rewrite fmap_cons, not_elem_of_cons.
  intros [Hne Hi]. cbn [assign_prompt]. rewrite decide_False by done. by rewrite IH.
Qed.

Lemma assign_prompt_unique c i p :
  NoDup (id <$> c) →
  assign_prompt c i p = (λ o, if decide (id o = i) then with_prompt o p else o) <$> c.
Proof.
  induction c as [|o c IH]; [done|]. rewrite fmap_cons, NoDup_cons.
  intros [Ho Hnd]. cbn [assign_prompt]. rewrite fmap_cons. case_decide as Heq.
  - f_equal. symmetry. etrans; [|apply list_fmap_id].
    apply list_fmap_ext. intros k o' Hk. rewrite decide_False; [done|].
    intros Heq'. apply Ho. rewrite Heq, <-Heq'.
    apply list_elem_of_fmap_2. by eapply list_elem_of_lookup_2.
  - by rewrite IH.
Qed.

Ltac run_improve :=
  repeat (progress
    (unfold mbind, M_bind, update, try_finally, try_catch, dispatch, lift, throw,
       set_catalog, mret, M_ret;
     cbn beta iota; cbn [app catalog calls])).

Lemma grows_refl (ids : gset string) (c : list HardeningOption) :
  ids ⊆ ids ∧ ids ⊆ ids ∪ list_to_set (id <$> c).
Proof. split; [done|apply union_subseteq_l]. Qed.

(** One refined prompt, whatever the response put there. *)
Lemma apply_refined_inv (E : Engine) refined ids w :
  let '(r, w') := apply_refined E refined ids w in
  app w' = app w ∧ calls w' = calls w
  ∧ option_card <$> catalog w' = option_card <$> catalog w
  ∧ ∀ ids', r = Ok ids' →
      ids ⊆ ids' ∧ ids' ⊆ ids ∪ list_to_set (id <$> catalog w).
Proof.
  unfold apply_refined. run_improve.
  destruct (Js.get E refined "id") as [[| | | |i| |]|e]; cbn;
    try (split_and!; [done..|intros ? [= <-]; apply grows_refl]);
    try (split_and!; done).
  case_bool_decide as Hin; run_improve; cbn.
  - destruct (Js.get E refined "newPrompt") as [p|e]; cbn.
    + split_and!; [done..|apply assign_prompt_card|].
      intros ? [= <-]. split; [apply union_subseteq_r|].
      apply union_least; [|apply union_subseteq_l].
      apply singleton_subseteq_l, elem_of_union_r. by apply elem_of_list_to_set.
    + split_and!; done.
  - split_and!; [done..|intros ? [= <-]; apply grows_refl].
Qed.

Lemma forEach_refined_inv (E : Engine) items : ∀ ids w,
  let '(r, w') := forEach_refined E items ids w in
  app w' = app w ∧ calls w' = calls w
  ∧ option_card <$> catalog w' = option_card <$> catalog w
  ∧ ∀ ids', r = Ok ids' →
      ids ⊆ ids' ∧ ids' ⊆ ids ∪ list_to_set (id <$> catalog w).
Proof.
  induction items as [|refined items IH]; intros ids w.
  { cbn. split_and!; [done..|intros ? [= <-]; apply grows_refl]. }
  cbn [forEach_refined]. unfold mbind at 1, M_bind at 1.
  pose proof (apply_refined_inv E refined ids w) as H1.
  destruct (apply_refined E refined ids w) as [[ids1|e] w1].
  - destruct H1 as (Ha1 & Hc1 & Hk1 & Hs1). destruct (Hs1 _ eq_refl) as [Hlo1 Hhi1].
    specialize (IH ids1 w1).
    destruct (forEach_refined E items ids1 w1) as [r w2].
    destruct IH as (Ha2 & Hc2 & Hk2 & Hs2).
    split_and!; [congruence..|].
    intros ids' Hr. destruct (Hs2 _ Hr) as [Hlo2 Hhi2].
    rewrite (card_ids _ _ Hk1) in Hhi2. split; [by etrans|].
    etrans; [exact Hhi2|]. apply union_least; [done|apply union_subseteq_r].
  - destruct H1 as (Ha1 & Hc1 & Hk1 & _). split_and!; done.
Qed.

(** The options the handler sends along with the script: the objects of
    [lastActiveOptions] as they are when it runs, without the custom one. *)
Definition learnableOptions_of (w : World) : list HardeningOption :=
  filter (λ opt, id opt ≠ "custom") (read_options (catalog w) (lastActiveOptions (app w))).

Lemma read_options_card (c c' : list HardeningOption) elements :
  option_card <$> c' = option_card <$> c →
  option_card <$> read_options c' elements = option_card <$> read_options c elements.
Proof.
  intros Hc. unfold read_options.
  induction elements as [|[place|o] elements IH]; [done|..]; cbn [omap list_omap read_option].
  - assert (option_card <$> c' !! place = option_card <$> c !! place) as Hplace.
    { by rewrite <-!list_lookup_fmap, Hc. }
    destruct (c' !! place) as [o'|], (c !! place) as [o|]; try done.
    rewrite !fmap_cons, IH. cbn in Hplace. congruence.
  - by rewrite !fmap_cons, IH.
Qed.

Lemma learnable_card (l l' : list HardeningOption) :
  option_card <$> l' = option_card <$> l →
  option_card <$> filter (λ opt, id opt ≠ "custom") l'
  = option_card <$> filter (λ opt, id opt ≠ "custom") l.
Proof.
  revert l'. induction l as [|o l IH]; intros [|o' l'] H; try done.
  rewrite !fmap_cons in H. injection H as Hid Hl Hd Hr Htl.
  rewrite !filter_cons. cbn beta. rewrite Hid.
  case_decide; rewrite ?fmap_cons, (IH _ Htl); [|done].
  unfold option_card. by rewrite Hid, Hl, Hd, Hr.
Qed.

(** The message of the guard of the ShellCheck handler. *)
Definition shebangError : string :=
  "A valid script with a shebang (e.g., #!/bin/bash) must be generated on the first tab before running ShellCheck.".

(** What every path of the handler keeps, and what it sends. *)
Lemma handleRunShellcheck_frame (E : Engine) (G : Gateway) w :
  let w' := (handleRunShellcheck E G w).2 in
  option_card <$> catalog w' = option_card <$> catalog w
  ∧ improvedPromptIds (app w) ⊆ improvedPromptIds (app w')
  ∧ improvedPromptIds (app w') ⊆ improvedPromptIds (app w) ∪ list_to_set (id <$> catalog w)
  ∧ cells_outside_improvement (app w') = cells_outside_improvement (app w)
  ∧ (if JsString.startsWith (JsString.trim (generatedScript (app w))) "#!" then
       calls w' = calls w ++ [CallImprove (generatedScript (app w)) (learnableOptions_of w)]
       ∧ isImproving (app w') = false
     else
       w' = mkWorld (setImprovingError (Some shebangError) (app w)) (catalog w) (calls w)).
Proof.
  cbn zeta. unfold handleRunShellcheck, learnableOptions_of.
  destruct (JsString.startsWith (JsString.trim (generatedScript (app w))) "#!") eqn:Hsb.
  2:{ rewrite orb_true_r. cbn. destruct w as [[] ? ?]; cbn.
      split_and!; first [done | apply union_subseteq_l]. }
  rewrite (startsWith_shebang_truthy _ Hsb). cbn [negb orb].
  run_improve.
  destruct (gw_improve G (length (calls w)) (generatedScript (app w))
              (filter (λ opt, id opt ≠ "custom")
                 (read_options (catalog w) (lastActiveOptions (app w)))))
    as [result|e].
  2:{ destruct w as [[] ? ?]; cbn.
      split_and!; first [done | apply union_subseteq_l]. }
  destruct (Js.get E (refinedPrompts result) "length") as [len|e].
  2:{ destruct w as [[] ? ?]; cbn.
      split_and!; first [done | apply union_subseteq_l]. }
  destruct (Js.ToNumber E len) as [n|e].
  2:{ destruct w as [[] ? ?]; cbn.
      split_and!; first [done | apply union_subseteq_l]. }
  destruct (Js.number_lt (Fin 0) n).
  2:{ destruct w as [[] ? ?]; cbn.
      split_and!; first [done | apply union_subseteq_l]. }
  run_improve.
  destruct (refinedPrompts result) as [| | | | |items|];
    try (destruct w as [[] ? ?]; cbn;
         split_and!; first [done | apply union_subseteq_l]).
  match goal with
  | |- context [forEach_refined E items ?ids ?w0] =>
      pose proof (forEach_refined_inv E items ids w0) as Hinv;
      destruct (forEach_refined E items ids w0) as [[ids'|e] w1]
  end; cbn [app catalog calls] in Hinv; destruct Hinv as (Ha & Hc & Hk & Hs).
  - destruct (Hs _ eq_refl) as [Hlo Hhi].
    destruct w as [[] ? ?], w1 as [[] ? ?]; cbn in *.
    injection Ha; intros; subst. split_and!; done.
  - destruct w as [[] ? ?], w1 as [[] ? ?]; cbn in *.
    injection Ha; intros; subst. split_and!; first [done | apply union_subseteq_l].
Qed.

(** X16.  On every path the ShellCheck handler leaves the ids, labels,
    descriptions and reboot flags of the option objects, their number and
    their order as they were; the set of improved ids only grows, and only
    by ids of option objects; the cells of the generate tab are not written.
    [lastActiveOptions] is one of these cells: it keeps holding the same
    objects, so the options a later run would send have the same ids,
    labels, descriptions and reboot flags, while their prompts are whatever
    the objects hold by then.  The handler calls the gateway exactly when
    the trimmed script starts with [#!], once, with the script as stored and
    the last active options, as they are at that moment, without the custom
    one, and then ends with [isImproving] cleared; otherwise all it does is
    set the shebang error. *)
Theorem improvement_only_rewrites_prompts (E : Engine) (G : Gateway) w :
  let w' := (handleRunShellcheck E G w).2 in
  option_card <$> catalog w' = option_card <$> catalog w
  ∧ improvedPromptIds (app w) ⊆ improvedPromptIds (app w')
  ∧ improvedPromptIds (app w') ⊆ improvedPromptIds (app w) ∪ list_to_set (id <$> catalog w)
  ∧ cells_outside_improvement (app w') = cells_outside_improvement (app w)
  ∧ option_card <$> learnableOptions_of w' = option_card <$> learnableOptions_of w
  ∧ (if JsString.startsWith (JsString.trim (generatedScript (app w))) "#!" then
       calls w' = calls w ++ [CallImprove (generatedScript (app w)) (learnableOptions_of w)]
       ∧ isImproving (app w') = false
     else
       w' = mkWorld (setImprovingError (Some shebangError) (app w)) (catalog w) (calls w)).
Proof.
  destruct (handleRunShellcheck_frame E G w) as (Hcard & Hlo & Hhi & Hcells & Hcall).
  split_and!; [exact Hcard | exact Hlo | exact Hhi | exact Hcells | | exact Hcall].
  unfold learnableOptions_of. apply learnable_card.
  assert (lastActiveOptions (app (handleRunShellcheck E G w).2) = lastActiveOptions (app w))
    as ->.
  { unfold cells_outside_improvement in Hcells. by injection Hcells. }
  by apply read_options_card.
Qed.

(** *** A response that names the prompts it refined *)

(** The element [{ id, newPrompt }] of [refinedPrompts]. *)
Definition refined_item (ip : string * value) : value :=
  VObject [("id", VString ip.1); ("newPrompt", ip.2)].

(** The prompt a list of refinements leaves for the id [i]: that of the
    last one that names [i]. *)
Definition refined_prompt_for (pairs : list (string * value)) (i : string) : option value :=
  snd <$> last (filter (λ ip, ip.1 = i) pairs).

(** An option after the refinements. *)
Definition learn (pairs : list (string * value)) (o : HardeningOption) : HardeningOption :=
  match refined_prompt_for pairs (id o) with
  | Some p => with_prompt o p
  | None => o
  end.

Lemma number_lt_0_nat n : Js.number_lt (Fin 0) (Js.number_of_nat n) = bool_decide (0 < n).
Proof.
  unfold Js.number_of_nat, Js.number_lt. destruct n as [|n].
  - reflexivity.
  - rewrite bool_decide_eq_true_2 by lia. apply negb_true_iff, not_true_is_false.
    rewrite Qle_bool_iff. unfold Qle. simpl. lia.
Qed.

Lemma apply_refined_item (E : Engine) ip ids w :
  apply_refined E (refined_item ip) ids w
  = (Ok (if bool_decide (ip.1 ∈ id <$> catalog w) then {[ ip.1 ]} ∪ ids else ids),
     mkWorld (app w) (assign_prompt (catalog w) ip.1 ip.2) (calls w)).
Proof.
  destruct ip as [i p]. unfold apply_refined, refined_item. cbn.
  unfold mbind, M_bind, lift. cbn.
  assert (Js.lookup_field [("id", VString i); ("newPrompt", p)] "id" = VString i)
    as -> by reflexivity.
  assert (Js.lookup_field [("id", VString i); ("newPrompt", p)] "newPrompt" = p)
    as -> by reflexivity.
  case_bool_decide as Hin; cbn.
  - done.
  - rewrite assign_prompt_absent by done. by destruct w.
Qed.

(** The option objects after the refinements were assigned, in order. *)
Definition assign_all (pairs : list (string * value)) (c : list HardeningOption)
    : list HardeningOption :=
  fold_left (λ c ip, assign_prompt c ip.1 ip.2) pairs c.

Lemma assign_all_card pairs : ∀ c, option_card <$> assign_all pairs c = option_card <$> c.
Proof.
  induction pairs as [|ip pairs IH]; intros c; [done|].
  cbn [assign_all fold_left]. fold (assign_all pairs (assign_prompt c ip.1 ip.2)).
  by rewrite IH, assign_prompt_card.
Qed.

Lemma forEach_refined_items (E : Engine) pairs : ∀ ids w,
  forEach_refined E (refined_item <$> pairs) ids w
  = (Ok (list_to_set (filter (λ i, i ∈ id <$> catalog w) (reverse pairs.*1)) ∪ ids),
     mkWorld (app w) (assign_all pairs (catalog w)) (calls w)).
Proof.
  induction pairs as [|ip pairs IH]; intros ids w.
  { cbn. rewrite union_empty_l_L. by destruct w. }
  rewrite fmap_cons. cbn [forEach_refined]. unfold mbind at 1, M_bind at 1.
  rewrite apply_refined_item, IH. cbn [app catalog calls].
  f_equal. f_equal.
  rewrite (card_ids _ _ (assign_prompt_card _ _ _)).
  apply set_eq. intros x. rewrite fmap_cons, reverse_cons. cbn [fst].
  case_bool_decide as Hin;
    rewrite !elem_of_union, !elem_of_list_to_set, !list_elem_of_filter, elem_of_app,
      list_elem_of_singleton, ?elem_of_singleton; intuition (subst; auto; done).
Qed.

Lemma with_prompt_twice o p q : with_prompt (with_prompt o p) q = with_prompt o q.
Proof. reflexivity. Qed.

Lemma refined_prompt_for_snoc pairs i p j :
  refined_prompt_for (pairs ++ [(i, p)]) j
  = if decide (i = j) then Some p else refined_prompt_for pairs j.
Proof.
  unfold refined_prompt_for. rewrite filter_app, filter_cons, filter_nil. cbn [fst].
  case_decide.
  - by rewrite last_snoc.
  - by rewrite app_nil_r.
Qed.

Lemma assign_all_learn pairs c :
  NoDup (id <$> c) → assign_all pairs c = learn pairs <$> c.
Proof.
  intros Hnd. induction pairs as [|[i p] pairs IH] using rev_ind.
  { cbn. symmetry. etrans; [|apply list_fmap_id]. by apply list_fmap_ext. }
  unfold assign_all. rewrite fold_left_app. cbn [fold_left fst snd].
  fold (assign_all pairs c). rewrite IH.
  rewrite assign_prompt_unique.
  2:{ rewrite <-IH. by rewrite (card_ids _ _ (assign_all_card _ _)). }
  rewrite <-list_fmap_compose. apply list_fmap_ext. intros k o Hk. unfold compose.
  assert (id (learn pairs o) = id o) as ->.
  { unfold learn. by destruct (refined_prompt_for pairs (id o)). }
  unfold learn. rewrite refined_prompt_for_snoc.
  destruct (decide (id o = i)) as [<-|Hne].
  - rewrite decide_True by done. by destruct (refined_prompt_for pairs (id o)).
  - by rewrite decide_False by done.
Qed.

Lemma handleRunShellcheck_learns (E : Engine) (G : Gateway) w result pairs :
  JsString.startsWith (JsString.trim (generatedScript (app w))) "#!" = true →
  NoDup (id <$> catalog w) →
  gw_improve G (length (calls w)) (generatedScript (app w)) (learnableOptions_of w)
  = Ok result →
  refinedPrompts result = VArray (refined_item <$> pairs) →
  let w' := (handleRunShellcheck E G w).2 in
  catalog w' = learn pairs <$> catalog w
  ∧ improvedPromptIds (app w')
    = list_to_set (filter (λ i, i ∈ id <$> catalog w) pairs.*1) ∪ improvedPromptIds (app w)
  ∧ improvedScript (app w') = correctedScript result
  ∧ App.improvementSummary (app w') = types.improvementSummary result
  ∧ improvingError (app w') = None
  ∧ isImproving (app w') = false
  ∧ showImprovementSuccess (app w')
    = (if pairs is [] then showImprovementSuccess (app w) else true).
Proof.
  intros Hsb Hnd Hok Hitems. unfold handleRunShellcheck.
  rewrite Hsb, (startsWith_shebang_truthy _ Hsb). cbn [negb orb].
  unfold learnableOptions_of in Hok.
  run_improve. rewrite Hok. run_improve. rewrite Hitems. cbn [Js.get].
  rewrite decide_True by done. cbn [Js.ToNumber].
  rewrite number_lt_0_nat, length_fmap.
  destruct pairs as [|ip pairs].
  - cbn. destruct w as [[] ? ?]; cbn in *.
    rewrite union_empty_l_L. split_and!; try done.
    symmetry. etrans; [|apply list_fmap_id]. by apply list_fmap_ext.
  - rewrite bool_decide_eq_true_2 by (cbn; lia).
    run_improve. rewrite forEach_refined_items. cbn [app catalog calls].
    rewrite assign_all_learn by done.
    destruct w as [[] ? ?]; cbn [app catalog calls improvedPromptIds improvedScript
      App.improvementSummary improvingError isImproving showImprovementSuccess
      setIsImproving setImprovingError setImprovedScript setImprovementSummary
      setShowImprovementSuccess setImprovedPromptIds snd].
    split_and!; try done.
    f_equal. apply set_eq. intros x. rewrite !elem_of_list_to_set, !list_elem_of_filter.
    by rewrite elem_of_reverse.
Qed.

(** X17.  When the improve operation returns refined prompts, each an
    object [{ id, newPrompt }], and the option objects have pairwise distinct
    ids, the prompt of each option becomes the [newPrompt] of the last
    refinement that names its id and is otherwise kept; the set of improved
    ids gains the named ids that belong to an option; the corrected script
    and the summary are stored, no error is set, and the success notice is
    raised exactly when the list is not empty. *)
Theorem improvement_learns_refined_prompts (E : Engine) (G : Gateway) w result pairs :
  JsString.startsWith (JsString.trim (generatedScript (app w))) "#!" = true →
  NoDup (id <$> catalog w) →
  gw_improve G (length (calls w)) (generatedScript (app w)) (learnableOptions_of w)
  = Ok result →
  refinedPrompts result = VArray (refined_item <$> pairs) →
  let w' := (handleRunShellcheck E G w).2 in
  prompt <$> catalog w'
  = (λ o, default (prompt o) (refined_prompt_for pairs (id o))) <$> catalog w
  ∧ improvedPromptIds (app w')
    = list_to_set (filter (λ i, i ∈ id <$> catalog w) pairs.*1) ∪ improvedPromptIds (app w)
  ∧ improvedScript (app w') = correctedScript result
  ∧ App.improvementSummary (app w') = types.improvementSummary result
  ∧ improvingError (app w') = None
  ∧ isImproving (app w') = false
  ∧ showImprovementSuccess (app w')
    = (if pairs is [] then showImprovementSuccess (app w) else true).
Proof.
  intros Hsb Hnd Hok Hitems.
  destruct (handleRunShellcheck_learns E G w result pairs Hsb Hnd Hok Hitems)
    as (Hcat & Hrest).
  split; [|exact Hrest].
  cbn zeta in Hcat. rewrite Hcat, <-list_fmap_compose.
  apply list_fmap_ext. intros k o _. unfold compose, learn.
  by destruct (refined_prompt_for pairs (id o)).
Qed.

(** The response of the service's own test: one refined prompt, for [ssh]. *)
Definition improvement_json : string :=
  "{" +:+ QUOTE +:+ "correctedScript" +:+ QUOTE +:+ ":" +:+ QUOTE
  +:+ "#!/bin/bash\necho corrected" +:+ QUOTE +:+ ","
  +:+ QUOTE +:+ "refinedPrompts" +:+ QUOTE +:+ ":[{" +:+ QUOTE +:+ "id" +:+ QUOTE +:+ ":"
  +:+ QUOTE +:+ "ssh" +:+ QUOTE +:+ "," +:+ QUOTE +:+ "newPrompt" +:+ QUOTE +:+ ":"
  +:+ QUOTE +:+ "Improved SSH prompt" +:+ QUOTE +:+ "}],"
  +:+ QUOTE +:+ "improvementSummary" +:+ QUOTE +:+ ":[" +:+ QUOTE
  +:+ "Quoted variables to prevent word splitting." +:+ QUOTE +:+ "]}".

Definition learning_gateway : Gateway :=
  geminiGateway Reference.engine (Some "test-api-key") (λ _ _, Resolved improvement_json).

Lemma improvement_learns_witness :
  let w' := (handleRunShellcheck Reference.engine learning_gateway after_generation).2 in
  (prompt <$> catalog w') !! 4 = Some (VString "Improved SSH prompt")
  ∧ (id <$> catalog w') !! 4 = Some "ssh"
  ∧ "ssh" ∈ improvedPromptIds (app w')
  ∧ showImprovementSuccess (app w') = true.
Proof.
  pose proof (improvement_learns_refined_prompts Reference.engine learning_gateway
                after_generation
                {| correctedScript := "#!/bin/bash" +:+ LF +:+ "echo corrected";
                   refinedPrompts := VArray [refined_item ("ssh", VString "Improved SSH prompt")];
                   types.improvementSummary :=
                     [VString "Quoted variables to prevent word splitting."] |}
                [("ssh", VString "Improved SSH prompt")] eq_refl)
    as (Hp & Hids & _ & _ & _ & _ & Hshow).
  { apply (bool_decide_unpack _). by vm_compute. }
  { reflexivity. }
  { reflexivity. }
  split_and!.
  - rewrite Hp. reflexivity.
  - reflexivity.
  - rewrite Hids. apply elem_of_union_l, elem_of_list_to_set, list_elem_of_filter.
    split; [|by left]. apply (list_elem_of_lookup_2 _ 4). reflexivity.
  - exact Hshow.
Defined.

(** *** The array of active options after a refinement *)

(** The array a generation run stores reads, at that moment, as the options
    the run sends; objects from [allOptionsFromLevels] apart, it holds at
    most the custom one. *)
Lemma filter_objects_read test (allOptions : list HardeningOption) : ∀ before,
  read_options (before ++ allOptions) (filter_objects test (length before) allOptions)
  = filter (λ option, test option = true) allOptions.
Proof.
  unfold read_options.
  induction allOptions as [|o rest IH]; intros before; [done|].
  cbn [filter_objects]. rewrite omap_app, filter_cons.
  assert (omap (read_option (before ++ o :: rest))
            (filter_objects test (S (length before)) rest)
          = filter (λ option, test option = true) rest) as ->.
  { specialize (IH (before ++ [o])). rewrite <-app_assoc, length_app in IH.
    cbn [length app] in IH. by rewrite Nat.add_1_r in IH. }
  destruct (test o); [|by rewrite decide_False].
  rewrite decide_True by done. cbn [omap list_omap read_option].
  by rewrite list_lookup_middle.
Qed.

Lemma activeOptionObjects_read s (allOptions : list HardeningOption) :
  read_options allOptions (activeOptionObjects_of s allOptions)
  = activeOptions_of s allOptions.
Proof.
  unfold activeOptionObjects_of, activeOptions_of, read_options. rewrite omap_app.
  f_equal; [apply (filter_objects_read _ allOptions [])|].
  by destruct (JsString.truthy (JsString.trim (customPrompt s))).
Qed.

Lemma filter_objects_places test (allOptions : list HardeningOption) o : ∀ place,
  CustomObject o ∉ filter_objects test place allOptions.
Proof.
  induction allOptions as [|o' rest IH]; intros place; cbn [filter_objects].
  - apply not_elem_of_nil.
  - rewrite elem_of_app. intros [Hin|Hin]; [|by apply (IH (S place))].
    destruct (test o'); [|by apply elem_of_nil in Hin].
    apply list_elem_of_singleton in Hin. discriminate.
Qed.

Lemma activeOptionObjects_custom s (allOptions : list HardeningOption) o :
  CustomObject o ∈ activeOptionObjects_of s allOptions → id o = "custom".
Proof.
  unfold activeOptionObjects_of. rewrite elem_of_app. intros [Hin|Hin].
  - by apply filter_objects_places in Hin.
  - destruct (JsString.truthy (JsString.trim (customPrompt s)));
      [|by apply elem_of_nil in Hin].
    apply list_elem_of_singleton in Hin. by injection Hin as ->.
Qed.

Lemma learn_id pairs o : id (learn pairs o) = id o.
Proof. unfold learn. by destruct (refined_prompt_for pairs (id o)). Qed.

Lemma learnable_after_learn pairs (c : list HardeningOption) elements :
  (∀ o, CustomObject o ∈ elements → id o = "custom") →
  filter (λ opt, id opt ≠ "custom") (read_options (learn pairs <$> c) elements)
  = learn pairs <$> filter (λ opt, id opt ≠ "custom") (read_options c elements).
Proof.
  unfold read_options.
  induction elements as [|[place|o] elements IH]; intros Hcustom; [done|..];
    cbn [omap list_omap read_option].
  - rewrite list_lookup_fmap. destruct (c !! place) as [o|]; cbn [fmap option_fmap option_map].
    + rewrite !filter_cons, learn_id.
      case_decide; rewrite ?fmap_cons, IH; try done;
        intros o' Ho'; apply Hcustom; by right.
    + apply IH. intros o' Ho'. apply Hcustom. by right.
  - rewrite !filter_cons. rewrite !decide_False.
    + apply IH. intros o' Ho'. apply Hcustom. by right.
    + intros Hne. apply Hne, Hcustom. by left.
    + intros Hne. apply Hne, Hcustom. by left.
Qed.

(** X22.  [lastActiveOptions] holds the option objects themselves.  When
    the improve operation returns refined prompts, each an object
    [{ id, newPrompt }], the option objects have pairwise distinct ids, and
    the only object of the array that is not one of them is the custom one
    (as in every array a generation run stores), the handler does not write
    that cell, yet the options read through it afterwards are the earlier
    ones with the refined prompts in place: a further run of the handler
    sends the same script with these. *)
Theorem refined_prompts_reach_last_active_options (E : Engine) (G : Gateway)
    w result pairs :
  JsString.startsWith (JsString.trim (generatedScript (app w))) "#!" = true →
  NoDup (id <$> catalog w) →
  (∀ o, CustomObject o ∈ lastActiveOptions (app w) → id o = "custom") →
  gw_improve G (length (calls w)) (generatedScript (app w)) (learnableOptions_of w)
  = Ok result →
  refinedPrompts result = VArray (refined_item <$> pairs) →
  let w' := (handleRunShellcheck E G w).2 in
  lastActiveOptions (app w') = lastActiveOptions (app w)
  ∧ learnableOptions_of w' = learn pairs <$> learnableOptions_of w
  ∧ calls (handleRunShellcheck E G w').2
    = calls w' ++ [CallImprove (generatedScript (app w))
                     (learn pairs <$> learnableOptions_of w)].
Proof.
  intros Hsb Hnd Hcustom Hok Hitems. cbn zeta.
  destruct (handleRunShellcheck_learns E G w result pairs Hsb Hnd Hok Hitems)
    as (Hcat & _).
  destruct (handleRunShellcheck_frame E G w) as (_ & _ & _ & Hcells & _).
  cbn zeta in Hcat, Hcells.
  set (w' := (handleRunShellcheck E G w).2) in *.
  assert (lastActiveOptions (app w') = lastActiveOptions (app w)) as Hla.
  { unfold cells_outside_improvement in Hcells. by injection Hcells. }
  assert (generatedScript (app w') = generatedScript (app w)) as Hgs.
  { unfold cells_outside_improvement in Hcells. by injection Hcells. }
  assert (learnableOptions_of w' = learn pairs <$> learnableOptions_of w) as Hlearn.
  { unfold learnableOptions_of. rewrite Hcat, Hla. by apply learnable_after_learn. }
  split_and!; [exact Hla | exact Hlearn |].
  destruct (handleRunShellcheck_frame E G w') as (_ & _ & _ & _ & Hcall).
  cbn zeta in Hcall. rewrite Hgs, Hsb in Hcall. destruct Hcall as [Hcall _].
  by rewrite Hcall, Hlearn.
Qed.

Lemma refined_prompts_reach_witness :
  let w' := (handleRunShellcheck Reference.engine learning_gateway after_generation).2 in
  id <$> learnableOptions_of after_generation = ["ssh"]
  ∧ prompt <$> learnableOptions_of after_generation = [prompt allOptions.ssh]
  ∧ prompt <$> learnableOptions_of w' = [VString "Improved SSH prompt"].
Proof.
  pose proof (refined_prompts_reach_last_active_options Reference.engine learning_gateway
                after_generation
                {| correctedScript := "#!/bin/bash" +:+ LF +:+ "echo corrected";
                   refinedPrompts := VArray [refined_item ("ssh", VString "Improved SSH prompt")];
                   types.improvementSummary :=
                     [VString "Quoted variables to prevent word splitting."] |}
                [("ssh", VString "Improved SSH prompt")] eq_refl)
    as (_ & Hlearn & _).
  { apply (bool_decide_unpack _). by vm_compute. }
  { intros o Ho.
    assert (lastActiveOptions (app after_generation) = [OptionObject 4]) as Hla
      by reflexivity.
    rewrite Hla in Ho. apply list_elem_of_singleton in Ho. discriminate. }
  { reflexivity. }
  { reflexivity. }
  split_and!; [reflexivity..|].
  rewrite Hlearn. reflexivity.
Defined.

(** ** The panels: what they show when a handler returns *)












(** X20.  The width of the progress bar of the script panel is between 0
    and 100 percent whenever the current step is at most the total, and it
    is 100 percent when the current step is the total and that is positive. *)
Theorem progress_bar_stays_in_range (p : ScriptDisplay.Props) :
  ScriptDisplay.currentStep p ≤ ScriptDisplay.totalSteps p →
  (0 <= ScriptDisplay.progress p)%Q ∧ (ScriptDisplay.progress p <= 100)%Q
  ∧ (ScriptDisplay.currentStep p = ScriptDisplay.totalSteps p →
     0 < ScriptDisplay.totalSteps p → (ScriptDisplay.progress p == 100)%Q).
Proof.
  intros Hle. unfold ScriptDisplay.progress.
  set (c := ScriptDisplay.currentStep p) in *. set (t := ScriptDisplay.totalSteps p) in *.
  case_bool_decide as Ht; [|split_and!; [done..|lia]].
  assert (0 < inject_Z (Z.of_nat t))%Q as Htq.
  { unfold Qlt. simpl. lia. }
  assert (0 <= inject_Z (Z.of_nat c) / inject_Z (Z.of_nat t))%Q as H0.
  { apply Qle_shift_div_l; [done|]. rewrite Qmult_0_l. unfold Qle. simpl. lia. }
  assert (inject_Z (Z.of_nat c) / inject_Z (Z.of_nat t) <= 1)%Q as H1.
  { apply Qle_shift_div_r; [done|]. rewrite Qmult_1_l. unfold Qle. simpl. lia. }
  split_and!.
  - apply Qmult_le_0_compat; done.
  - apply (Qle_trans _ (1 * 100)); [by apply Qmult_le_compat_r|done].
  - intros Heq _. fold c in Heq. rewrite Heq. field.
    intros H. rewrite H in Htq. done.
Qed.

Lemma progress_bar_witness :
  let p := generateDisplay
             (setGenerationStatus (Some (Build_GenerationStatus 5 2 "Step 2")) initialState) in
  (0 <= ScriptDisplay.progress p)%Q ∧ (ScriptDisplay.progress p <= 100)%Q.
Proof.
  destruct (progress_bar_stays_in_range
              (generateDisplay
                 (setGenerationStatus (Some (Build_GenerationStatus 5 2 "Step 2"))
                    initialState)))
    as (H0 & H100 & _).
  { cbn. lia. }
  split; [exact H0 | exact H100].
Defined.

(** ** The progress cell of the analysis panel *)



Lemma run_snoc events event :
  AnalysisDisplay.run (events ++ [event])
  = AnalysisDisplay.step (AnalysisDisplay.run events) event.
Proof. unfold AnalysisDisplay.run. by rewrite fold_left_app. Qed.



(** The render that begins a loading phase comes before the effect: after
    an analysis that returned a result it still draws the full bar, which
    the effect then resets. *)
Lemma first_loading_frame_is_stale events r :
  let shown := AnalysisDisplay.run (events ++ [AnalysisDisplay.EffectRuns false (Some r)]) in
  AnalysisDisplay.barWidth true shown = Some 100%Q
  ∧ AnalysisDisplay.barWidth true
      (AnalysisDisplay.step shown (AnalysisDisplay.EffectRuns true None)) = Some 0%Q.
Proof. cbn zeta. by rewrite run_snoc. Qed.


